(** * Verification of the JSON-salvage and retry helpers of the Hackathon test-plan prototype

    Shallow embedding of [src/optimizer.py] ([safe_openai_call],
    [_clean_json_from_text], [analyze_artifacts]) and of the helpers of
    [src/app.py] ([extract_json], [format_missing_coverage_for_html],
    [enforce_formatting_fallback], [enrich_test_plan]).

    Text is modelled as [list ascii] (the model outputs considered here are
    ASCII); Python's [str.isspace] is restricted accordingly. *)

From Stdlib Require Import Ascii String List ZArith Bool Lia Arith.
Import ListNotations.
Open Scope list_scope.

(* ------------------------------------------------------------------ *)
(** ** Retry wrapper: [safe_openai_call] (optimizer.py, lines 8-25) *)

Module Retry.

(** Exceptions a wrapped call can raise.  [AttributeError] is the one raised
    by Python itself when the [except] clause expression
    [openai_lib.error.RateLimitError] cannot be evaluated. *)
Inductive exc :=
| RateLimitError (payload : nat)
| APIConnectionError (payload : nat)
| OtherError (payload : nat)
| AttributeError.

(** What one call of the wrapped [func] does. *)
Inductive outcome :=
| Returns (v : nat)
| Raises (e : exc).

(** A deterministic backend stub: its answer to the [k]-th call (0-based). *)
Definition stub := nat -> outcome.

Inductive event := Call | Sleep (d : Z).

Inductive result :=
| RReturn (v : nat)
| RRaise (e : exc)
| RNone.   (* the function falls off the end of its body: [return None] *)

(** Is [exc] one of the two classes named in the [except] clauses? *)
Definition retryable (e : exc) : bool :=
  match e with
  | RateLimitError _ | APIConnectionError _ => true
  | _ => false
  end.

(** Whether the attribute [openai_lib.error] exists.  It exists in the 0.x
    releases of the [openai] package only.  The module imports [OpenAI]
    ([from openai import OpenAI]) and calls [client.chat.completions.create],
    which exist only from release 1.0 on, where the exception classes are
    [openai.RateLimitError] and [openai.APIConnectionError] and there is no
    [openai.error] namespace. *)
Definition openai_v1_has_error_ns : bool := false.

Section SafeCall.

Variable func : stub.
(** [ns]: whether [openai_lib.error] resolves when an [except] clause is
    evaluated. *)
Variable ns : bool.
Variable retries : nat.

(** The body of [for attempt in range(retries)]; [k] counts the calls made so
    far, [delay] is the local variable [delay]. *)
Fixpoint attempts (atts : list nat) (k : nat) (delay : Z)
  : list event * result :=
  match atts with
  | [] => ([], RNone)
  | attempt :: rest =>
      match func k with
      | Returns v => ([Call], RReturn v)
      | Raises e =>
          if negb ns then
            (* evaluating [openai_lib.error.RateLimitError] raises *)
            ([Call], RRaise AttributeError)
          else if retryable e then
            if Nat.eqb attempt (retries - 1) then ([Call], RRaise e)
            else
              let '(tr, r) := attempts rest (S k) (delay * 2) in
              (Call :: Sleep delay :: tr, r)
          else ([Call], RRaise e)
      end
  end.

Definition safe_openai_call (initial_delay : Z) : list event * result :=
  attempts (seq 0 retries) 0 initial_delay.

End SafeCall.

Definition is_call (ev : event) : bool :=
  match ev with Call => true | Sleep _ => false end.

Definition calls (tr : list event) : nat := length (filter is_call tr).

Definition sleeps (tr : list event) : nat :=
  length (filter (fun ev => negb (is_call ev)) tr).

(** A stub that raises [errs k] on its first [n] calls and then returns [v]. *)
Definition fail_then (n : nat) (errs : nat -> exc) (v : nat) : stub :=
  fun k => if Nat.ltb k n then Raises (errs k) else Returns v.

End Retry.

(* ------------------------------------------------------------------ *)
(** ** Python string helpers on ASCII text *)

Module Text.

Definition text := list ascii.

(** A Rocq string literal as text. *)
Definition T (s : string) : text := list_ascii_of_string s.

Definition code (c : ascii) : nat := nat_of_ascii c.

(** [str.isspace] on ASCII: [\t \n \v \f \r], [\x1c]-[\x1f] and space. *)
Definition py_isspace (c : ascii) : bool :=
  let n := code c in
  ((9 <=? n) && (n <=? 13)) || ((28 <=? n) && (n <=? 32)).

Fixpoint lstrip (s : text) : text :=
  match s with
  | [] => []
  | c :: r => if py_isspace c then lstrip r else s
  end.

Definition rstrip (s : text) : text := rev (lstrip (rev s)).

(** [s.strip()] *)
Definition strip (s : text) : text := rstrip (lstrip s).

Fixpoint lstrip_char (ch : ascii) (s : text) : text :=
  match s with
  | [] => []
  | c :: r => if Ascii.eqb c ch then lstrip_char ch r else s
  end.

(** [s.strip(ch)] for a one-character argument. *)
Definition strip_char (ch : ascii) (s : text) : text :=
  rev (lstrip_char ch (rev (lstrip_char ch s))).

Fixpoint startswith (p s : text) : bool :=
  match p, s with
  | [], _ => true
  | a :: p', b :: s' => Ascii.eqb a b && startswith p' s'
  | _ :: _, [] => false
  end.

Definition endswith (p s : text) : bool := startswith (rev p) (rev s).

(** [str.lower] on ASCII. *)
Definition lower_char (c : ascii) : ascii :=
  let n := code c in
  if (65 <=? n) && (n <=? 90) then ascii_of_nat (n + 32) else c.

Definition lower (s : text) : text := map lower_char s.

End Text.

(* ------------------------------------------------------------------ *)
(** ** Extraction heuristics *)

Module Extract.
Import Text.

(** The text from the head of [s] up to and including the last [cl] of [s]. *)
Fixpoint upto_last (cl : ascii) (s : text) : option text :=
  match s with
  | [] => None
  | x :: xs =>
      match upto_last cl xs with
      | Some p => Some (x :: p)
      | None => if Ascii.eqb x cl then Some [x] else None
      end
  end.

(** [re.search(r"(\{(?:.|\n)*\})", s).group(1)] (and the same with [[ ]]):
    [(?:.|\n)] matches every character, so the leftmost match starts at the
    first [op] and, being greedy, ends at the last [cl] after it.  When no
    [cl] follows the first [op], none follows a later [op] either, so the
    search fails. *)
Fixpoint regex_span (op cl : ascii) (s : text) : option text :=
  match s with
  | [] => None
  | x :: xs =>
      if Ascii.eqb x op then option_map (cons x) (upto_last cl xs)
      else regex_span op cl xs
  end.

(** Whether [s] has an [op] with a [cl] somewhere after it. *)
Fixpoint has_pair (op cl : ascii) (s : text) : bool :=
  match s with
  | [] => false
  | x :: xs => (Ascii.eqb x op && existsb (Ascii.eqb cl) xs) || has_pair op cl xs
  end.

(** [_clean_json_from_text] (optimizer.py, lines 27-44); [None] is Python's
    [None]. *)
Definition _clean_json_from_text (text0 : text) : option text :=
  let t := strip text0 in
  if (startswith (T "{") t && endswith (T "}") t)
     || (startswith (T "[") t && endswith (T "]") t)
  then Some t
  else match regex_span "{"%char "}"%char t with
       | Some m => Some m
       | None => regex_span "["%char "]"%char t
       end.

(** [extract_json] (app.py, lines 93-110), on a [str] argument. *)
Definition extract_json (text0 : text) : text :=
  let t := strip text0 in
  if startswith (T "```") t then
    let t_inner := lstrip (strip_char "`"%char t) in
    let t_inner :=
      if startswith (T "json") (lower t_inner) then lstrip (skipn 4 t_inner)
      else t_inner in
    strip t_inner
  else if startswith (T "`") t && endswith (T "`") t then
    strip (strip_char "`"%char t)
  else match regex_span "{"%char "}"%char t with
       | Some m => m
       | None =>
           match regex_span "["%char "]"%char t with
           | Some m => m
           | None => t
           end
       end.

End Extract.

(* ------------------------------------------------------------------ *)
(** ** [json.loads] (the C scanner of CPython's [_json] module) *)

Module Json.
Import Text.

Set Warnings "-register-all".

(** Decoded Python values.  A string is its list of code points; a number
    keeps its lexeme (equal lexemes give equal Python numbers); a [dict] is
    an association list in insertion order. *)
Inductive json :=
| JNull
| JBool (b : bool)
| JNum (lexeme : text)
| JStr (s : list Z)
| JArr (items : list json)
| JObj (fields : list (list Z * json)).

Definition key := list Z.

Fixpoint key_eqb (a b : key) : bool :=
  match a, b with
  | [], [] => true
  | x :: a', y :: b' => Z.eqb x y && key_eqb a' b'
  | _, _ => false
  end.

(** [d.get(k)] *)
Fixpoint lookup (k : key) (d : list (key * json)) : option json :=
  match d with
  | [] => None
  | (k', v) :: r => if key_eqb k k' then Some v else lookup k r
  end.

(** [d[k] = v]: an existing key keeps its position, a new key goes last. *)
Fixpoint dict_set (k : key) (v : json) (d : list (key * json))
  : list (key * json) :=
  match d with
  | [] => [(k, v)]
  | (k', v') :: r =>
      if key_eqb k k' then (k', v) :: r else (k', v') :: dict_set k v r
  end.

(** A key spelled in ASCII. *)
Definition K (s : string) : key :=
  map (fun c => Z.of_nat (nat_of_ascii c)) (list_ascii_of_string s).

(** [IS_WHITESPACE]: space, tab, newline, carriage return. *)
Definition is_ws (c : ascii) : bool :=
  let n := code c in
  (n =? 32) || (n =? 9) || (n =? 10) || (n =? 13).

Fixpoint skip_ws (s : text) : text :=
  match s with
  | [] => []
  | c :: r => if is_ws c then skip_ws r else s
  end.

Definition dquote : ascii := ascii_of_nat 34.
Definition backslash : ascii := ascii_of_nat 92.

Definition is_digit (c : ascii) : bool :=
  let n := code c in (48 <=? n) && (n <=? 57).

Definition hex_val (c : ascii) : option Z :=
  let n := code c in
  if (48 <=? n) && (n <=? 57) then Some (Z.of_nat (n - 48))
  else if (97 <=? n) && (n <=? 102) then Some (Z.of_nat (n - 87))
  else if (65 <=? n) && (n <=? 70) then Some (Z.of_nat (n - 55))
  else None.

Definition hex4 (a b c d : ascii) : option Z :=
  match hex_val a, hex_val b, hex_val c, hex_val d with
  | Some x, Some y, Some z, Some w =>
      Some (((x * 16 + y) * 16 + z) * 16 + w)%Z
  | _, _, _, _ => None
  end.

(** One-character escapes: backslash followed by a double quote, a backslash,
    a slash, or one of [b f n r t]. *)
Definition simple_escape (e : ascii) : option Z :=
  match code e with
  | 34 => Some 34%Z | 92 => Some 92%Z | 47 => Some 47%Z
  | 98 => Some 8%Z | 102 => Some 12%Z | 110 => Some 10%Z
  | 114 => Some 13%Z | 116 => Some 9%Z
  | _ => None
  end.

Definition is_high_surrogate (u : Z) : bool := (55296 <=? u)%Z && (u <=? 56319)%Z.
Definition is_low_surrogate (u : Z) : bool := (56320 <=? u)%Z && (u <=? 57343)%Z.

Definition join_surrogates (hi lo : Z) : Z :=
  (65536 + Z.lor (Z.shiftl (hi - 55296) 10) (lo - 56320))%Z.

Definition cons_opt {A B} (x : A) (o : option (list A * B)) : option (list A * B) :=
  match o with Some (l, r) => Some (x :: l, r) | None => None end.

(** [scanstring_unicode] in strict mode, started just after the opening
    quote; returns the decoded string and the text after the closing quote. *)
Fixpoint scanstring (s : text) : option (list Z * text) :=
  match s with
  | [] => None
  | c :: r =>
      if Ascii.eqb c dquote then Some ([], r)
      else if Ascii.eqb c backslash then
        match r with
        | [] => None
        | e :: r1 =>
            if Ascii.eqb e "u"%char then
              match r1 with
              | h1 :: h2 :: h3 :: h4 :: r2 =>
                  match hex4 h1 h2 h3 h4 with
                  | None => None
                  | Some u =>
                      if is_high_surrogate u then
                        match r2 with
                        | b :: u' :: g1 :: g2 :: g3 :: g4 :: r3 =>
                            if Ascii.eqb b backslash && Ascii.eqb u' "u"%char then
                              match hex4 g1 g2 g3 g4 with
                              | None => None
                              | Some u2 =>
                                  if is_low_surrogate u2
                                  then cons_opt (join_surrogates u u2) (scanstring r3)
                                  else cons_opt u (scanstring r2)
                              end
                            else cons_opt u (scanstring r2)
                        | _ => cons_opt u (scanstring r2)
                        end
                      else cons_opt u (scanstring r2)
                  end
              | _ => None
              end
            else
              match simple_escape e with
              | Some x => cons_opt x (scanstring r1)
              | None => None
              end
        end
        else if code c <=? 31 then None   (* invalid control character *)
        else cons_opt (Z.of_nat (code c)) (scanstring r)
  end.

(** The longest prefix of decimal digits, and the rest. *)
Fixpoint digits (s : text) : text * text :=
  match s with
  | c :: r => if is_digit c then let '(d, r') := digits r in (c :: d, r') else ([], s)
  | [] => ([], [])
  end.

(** [('.' [0-9]+)?] *)
Definition frac_part (s : text) : text * text :=
  match s with
  | c :: d :: r =>
      if Ascii.eqb c "."%char && is_digit d
      then let '(ds, r') := digits r in (c :: d :: ds, r')
      else ([], s)
  | _ => ([], s)
  end.

(** [([eE] [-+]? [0-9]+)?], backtracking to before [e] when no digit follows. *)
Definition exp_part (s : text) : text * text :=
  match s with
  | e :: r =>
      if Ascii.eqb e "e"%char || Ascii.eqb e "E"%char then
        let '(sg, r1) :=
          match r with
          | c :: r' => if Ascii.eqb c "-"%char || Ascii.eqb c "+"%char
                       then ([c], r') else ([], r)
          | [] => ([], r)
          end in
        match digits r1 with
        | ([], _) => ([], s)
        | (ds, r2) => (e :: sg ++ ds, r2)
        end
      else ([], s)
  | [] => ([], [])
  end.

(** [_match_number_unicode]: an optional minus, then [0] or a non-zero digit
    followed by digits, then the fraction and the exponent. *)
Definition match_number (s : text) : option (json * text) :=
  let '(sg, s1) :=
    match s with
    | c :: r => if Ascii.eqb c "-"%char then ([c], r) else ([], s)
    | [] => ([], s)
    end in
  let int_part :=
    match s1 with
    | c :: r =>
        if Ascii.eqb c "0"%char then Some ([c], r)
        else if is_digit c then let '(ds, r') := digits r in Some (c :: ds, r')
        else None
    | [] => None
    end in
  match int_part with
  | None => None
  | Some (ip, s2) =>
      let '(fp, s3) := frac_part s2 in
      let '(ep, s4) := exp_part s3 in
      Some (JNum (sg ++ ip ++ fp ++ ep), s4)
  end.

(** [scan_once_unicode], [_parse_array_unicode], [_parse_object_unicode].
    [n] is fuel (the C code recurses without it; [2 * length + 2] units are
    never exhausted, see [loads]). *)
Fixpoint scan_once (n : nat) (s : text) : option (json * text) :=
  match n with
  | O => None
  | S n' =>
      match s with
      | [] => None
      | c :: r =>
          if Ascii.eqb c dquote then
            match scanstring r with
            | Some (x, r') => Some (JStr x, r')
            | None => None
            end
          else if Ascii.eqb c "{"%char then
            match skip_ws r with
            | c' :: r' => if Ascii.eqb c' "}"%char then Some (JObj [], r')
                          else parse_members n' (c' :: r') []
            | [] => None
            end
          else if Ascii.eqb c "["%char then
            match skip_ws r with
            | c' :: r' => if Ascii.eqb c' "]"%char then Some (JArr [], r')
                          else parse_items n' (c' :: r') []
            | [] => None
            end
          else if startswith (T "null") s then Some (JNull, skipn 4 s)
          else if startswith (T "true") s then Some (JBool true, skipn 4 s)
          else if startswith (T "false") s then Some (JBool false, skipn 5 s)
          else if startswith (T "NaN") s then Some (JNum (T "NaN"), skipn 3 s)
          else if startswith (T "Infinity") s then Some (JNum (T "Infinity"), skipn 8 s)
          else if startswith (T "-Infinity") s then Some (JNum (T "-Infinity"), skipn 9 s)
          else match_number s
      end
  end
(** Array elements; [s] is at an element, [acc] holds the earlier ones
    reversed. *)
with parse_items (n : nat) (s : text) (acc : list json) : option (json * text) :=
  match n with
  | O => None
  | S n' =>
      match scan_once n' s with
      | None => None
      | Some (v, r) =>
          match skip_ws r with
          | c :: r' =>
              if Ascii.eqb c "]"%char then Some (JArr (rev (v :: acc)), r')
              else if Ascii.eqb c ","%char then parse_items n' (skip_ws r') (v :: acc)
              else None
          | [] => None
          end
      end
  end
(** Object members; [s] is at a member, [acc] is the dict built so far. *)
with parse_members (n : nat) (s : text) (acc : list (key * json))
  : option (json * text) :=
  match n with
  | O => None
  | S n' =>
      match s with
      | q :: r =>
          if Ascii.eqb q dquote then
            match scanstring r with
            | None => None
            | Some (k, r1) =>
                match skip_ws r1 with
                | c :: r2 =>
                    if Ascii.eqb c ":"%char then
                      match scan_once n' (skip_ws r2) with
                      | None => None
                      | Some (v, r3) =>
                          match skip_ws r3 with
                          | d :: r4 =>
                              if Ascii.eqb d "}"%char then Some (JObj (dict_set k v acc), r4)
                              else if Ascii.eqb d ","%char
                              then parse_members n' (skip_ws r4) (dict_set k v acc)
                              else None
                          | [] => None
                          end
                      end
                    else None
                | [] => None
                end
            end
          else None
      | [] => None
      end
  end.

(** [json.loads(s)]: leading whitespace, one value, trailing whitespace, end
    of input; [None] is a raised [JSONDecodeError]. *)
Definition loads (s : text) : option json :=
  match scan_once (2 * length s + 2) (skip_ws s) with
  | Some (v, r) => match skip_ws r with [] => Some v | _ => None end
  | None => None
  end.

End Json.

(* ------------------------------------------------------------------ *)
(** ** [analyze_artifacts] (optimizer.py, lines 46-131) *)

Module Analyze.
Import Text Json Extract.

Definition nl : text := [ascii_of_nat 10].

(** The trailing-comma repair: [re.sub(r",\s*" ++ cl, cl, s)], scanning left to
    right and resuming after each replaced match.  [\s*] is greedy and [cl] is
    not a space, so a match at a comma is the comma, the run of spaces after
    it, and [cl].  [pend] holds a comma and the spaces read after it
    (reversed) while it is not yet known whether they start a match; when the
    next character is neither a space nor [cl] the search resumes after the
    comma, so they are copied out unchanged. *)
Fixpoint sub_go (cl : ascii) (pend : option text) (s : text) : text :=
  match s with
  | [] => match pend with Some b => rev b | None => [] end
  | c :: r =>
      match pend with
      | None => if Ascii.eqb c ","%char then sub_go cl (Some [c]) r
                else c :: sub_go cl None r
      | Some b =>
          if py_isspace c then sub_go cl (Some (c :: b)) r
          else if Ascii.eqb c cl then cl :: sub_go cl None r
          else rev b ++ (if Ascii.eqb c ","%char then sub_go cl (Some [c]) r
                         else c :: sub_go cl None r)
      end
  end.

Definition sub_comma (cl : ascii) (s : text) : text := sub_go cl None s.

(** Lines 121-122. *)
Definition repair (json_text : text) : text :=
  sub_comma "]"%char (sub_comma "}"%char json_text).

(** Errors [analyze_artifacts] can raise. *)
Inductive error :=
| EBackend                  (* raised by [safe_openai_call] *)
| EAttribute                (* [AttributeError] / [TypeError] on an access *)
| EValue                    (* [ValueError("Could not parse JSON ...")] *)
| EDecode.                  (* [json.JSONDecodeError] *)

(** A chat message [{"role": ..., "content": ...}] and a request. *)
Record message := Msg { role : text; content : text }.
Record request := Req {
  req_model : text; req_messages : list message;
  req_temperature : text; req_max_tokens : nat }.

(** What one [safe_openai_call(client.chat.completions.create, ...)] gives:
    a response with [choices[0].message.content] ([None] when null) and the
    result of the older subscript access [choices[0]["message"]["content"]]
    ([None] when that access raises), or a propagated exception. *)
Inductive reply :=
| Response (content : option text) (subscript : option text)
| Raised.

(** The invoked backend: its reply to the [k]-th invocation (0-based). *)
Definition backend := nat -> request -> reply.

(** Requests issued so far, and an error or a value. *)
Definition M (A : Type) := list request -> list request * (error + A).

Definition ret {A} (x : A) : M A := fun log => (log, inr x).
Definition throw {A} (e : error) : M A := fun log => (log, inl e).
Definition bind {A B} (m : M A) (k : A -> M B) : M B :=
  fun log => match m log with
             | (log', inl e) => (log', inl e)
             | (log', inr x) => k x log'
             end.
Notation "x <- m ;; k" := (bind m (fun x => k))
  (at level 61, m at next level, right associativity).

(** [safe_openai_call(client.chat.completions.create, **kwargs)]. *)
Definition call (b : backend) (rq : request) : M reply :=
  fun log => (log ++ [rq],
              match b (length log) rq with
              | Raised => inl EBackend
              | r => inr r
              end).

Section Prompts.
Variables (user_text context_text model : text).

Definition system_prompt : text :=
  T ("You are an expert test strategist for enterprise software. " ++
     "Given user stories, requirements, logs, and defect history, produce a structured JSON report with: " ++
     "1) risk_scores: an array of objects {area, score(0-100), rationale} " ++
     "2) missing_coverage: array of short descriptions of uncovered areas " ++
     "3) most_impactful_tests: array of objects {id, title, description, impact} " ++
     "4) prioritized_plan: array of objects {id, priority(P1/P2/P3), estimated_hours, reason} " ++
     "Output ONLY valid JSON (no extra commentary) using these exact keys.")%string.

Definition prompt : text :=
  system_prompt ++ nl ++ nl ++ T "INPUT DATA:" ++ nl ++
  T "User stories / requirements:" ++ nl ++ user_text ++ nl ++ nl ++
  T "Context (logs, past defects):" ++ nl ++ context_text ++ nl ++ nl ++
  T ("If some sections are empty, still produce reasonable defaults and assumptions. " ++
     "Keep each 'most_impactful_tests' item concise (title + 1-2 sentence description).")%string.

Definition first_request : request :=
  Req model [Msg (T "system") system_prompt; Msg (T "user") prompt] (T "0.1") 1200.

Definition follow_prompt : text :=
  T ("The previous output was not strict JSON. Please reformat your answer to be valid JSON with only the keys: " ++
     "risk_scores, missing_coverage, most_impactful_tests, prioritized_plan. Use the original analysis to populate them.")%string.

Definition follow_request (raw : text) : request :=
  Req model [Msg (T "system") system_prompt;
             Msg (T "user") (follow_prompt ++ nl ++ nl ++ T "Original output:" ++ nl ++ raw)]
      (T "0.0") 800.

End Prompts.

(** Line 94-97: [raw = content], or the subscript access when it is [None]. *)
Definition raw_of (r : reply) : M text :=
  match r with
  | Response (Some c) _ => ret c
  | Response None (Some c) => ret c
  | _ => throw EAttribute
  end.

(** Line 112: [content or subscript]; an empty content is falsy. *)
Definition raw2_of (r : reply) : M text :=
  match r with
  | Response (Some ((_ :: _) as c)) _ => ret c
  | Response _ (Some c) => ret c
  | _ => throw EAttribute
  end.

(** [not json_text] *)
Definition falsy_text (o : option text) : bool :=
  match o with None | Some [] => true | Some _ => false end.

(** Lines 117-123. *)
Definition parse_slice (json_text : text) : M json :=
  match loads json_text with
  | Some v => ret v
  | None => match loads (repair json_text) with
            | Some v => ret v
            | None => throw EDecode
            end
  end.

(** [d.setdefault(k, [])] *)
Definition setdefault (k : key) (d : list (key * json)) : list (key * json) :=
  match lookup k d with
  | Some _ => d
  | None => dict_set k (JArr []) d
  end.

Definition known_keys : list key :=
  [K "risk_scores"; K "missing_coverage"; K "most_impactful_tests"; K "prioritized_plan"].

(** Lines 126-129, on a [dict]. *)
Definition ensure_keys (d : list (key * json)) : list (key * json) :=
  setdefault (K "prioritized_plan")
    (setdefault (K "most_impactful_tests")
       (setdefault (K "missing_coverage") (setdefault (K "risk_scores") d))).

(** Lines 125-131: [setdefault] exists on a [dict] only. *)
Definition fill_defaults (parsed : json) : M json :=
  match parsed with
  | JObj d => ret (JObj (ensure_keys d))
  | _ => throw EAttribute
  end.

(** [analyze_artifacts(client, {"user_stories": u, "context": c}, model)]. *)
Definition analyze_artifacts (b : backend) (user_text context_text model : text)
  : M json :=
  resp <- call b (first_request user_text context_text model) ;;
  raw <- raw_of resp ;;
  json_text <-
    (if falsy_text (_clean_json_from_text raw) then
       resp2 <- call b (follow_request model raw) ;;
       raw2 <- raw2_of resp2 ;;
       match _clean_json_from_text raw2 with
       | Some ((_ :: _) as jt) => ret jt
       | _ => throw EValue
       end
     else match _clean_json_from_text raw with
          | Some jt => ret jt
          | None => throw EValue   (* not reached: [falsy_text] was false *)
          end) ;;
  parsed <- parse_slice json_text ;;
  fill_defaults parsed.

Definition run {A} (m : M A) : list request * (error + A) := m [].

End Analyze.

(* ------------------------------------------------------------------ *)
(** ** Lexical structure of JSON text

    Definitions used to state where a trailing comma sits and which texts
    the repair pass of [analyze_artifacts] leaves alone. *)

Module Lexer.
Import Text Json.

(** Outside string literals, inside one, or just after a backslash inside one. *)
Inductive lstate := LOut | LStr | LEsc.

Definition lex_step (st : lstate) (c : ascii) : lstate :=
  match st with
  | LOut => if Ascii.eqb c dquote then LStr else LOut
  | LStr => if Ascii.eqb c dquote then LOut
            else if Ascii.eqb c backslash then LEsc else LStr
  | LEsc => LStr
  end.

(** The lexical state at the end of [s], read from the start of a text. *)
Definition lex (s : text) : lstate := fold_left lex_step s LOut.

(** The lexical state together with whether the last token read outside
    string literals is a comma (blanks do not count); [None] when a closing
    bracket directly follows such a comma, which JSON forbids. *)
Definition tc_step (st : lstate * bool) (c : ascii) : option (lstate * bool) :=
  match st with
  | (LOut, pend) =>
      if Ascii.eqb c dquote then Some (LStr, false)
      else if is_ws c then Some (LOut, pend)
      else if Ascii.eqb c ","%char then Some (LOut, true)
      else if Ascii.eqb c "}"%char || Ascii.eqb c "]"%char then
        if pend then None else Some (LOut, false)
      else Some (LOut, false)
  | (LStr, _) =>
      if Ascii.eqb c dquote then Some (LOut, false)
      else if Ascii.eqb c backslash then Some (LEsc, false)
      else Some (LStr, false)
  | (LEsc, _) => Some (LStr, false)
  end.

Fixpoint tc_run (st : lstate * bool) (s : text) : option (lstate * bool) :=
  match s with
  | [] => Some st
  | c :: r => match tc_step st c with
              | Some st' => tc_run st' r
              | None => None
              end
  end.

(** Characters that end neither a token nor a string and are not a comma,
    a closing bracket or a blank: inside a number or a literal name. *)
Definition plain (c : ascii) : bool :=
  negb (Ascii.eqb c dquote || is_ws c || Ascii.eqb c ","%char ||
        Ascii.eqb c "}"%char || Ascii.eqb c "]"%char).

(** [s] starts, after blanks, with [cl]. *)
Definition closes (cl : ascii) (s : text) : bool :=
  match lstrip s with
  | d :: _ => Ascii.eqb d cl
  | [] => false
  end.

(** [re.search(r",\s*" + cl, s)] finds a match. *)
Fixpoint comma_close (cl : ascii) (s : text) : bool :=
  match s with
  | [] => false
  | c :: r => (Ascii.eqb c ","%char && closes cl r) || comma_close cl r
  end.

End Lexer.

(* ------------------------------------------------------------------ *)
(** ** Test-plan enrichment (app.py, lines 115-190)

    The plan is the value [json.loads] returned (app.py, lines 389-391): a
    tree of fresh objects with no sharing, so mutating an item in place is
    modelled by replacing it by its updated value. *)

Module Enrich.
Import Json.

Definition ustr := list Z.

Definition NL : ustr := [10%Z].

(** [sep.join(xs)] *)
Fixpoint join (sep : ustr) (xs : list ustr) : ustr :=
  match xs with
  | [] => []
  | [x] => x
  | x :: r => x ++ sep ++ join sep r
  end.

(** [str.lower] on ASCII letters; other code points are kept (their case
    mapping only matters to the keyword test below). *)
Definition zlower (c : Z) : Z :=
  if (65 <=? c)%Z && (c <=? 90)%Z then (c + 32)%Z else c.

Fixpoint zprefix (p s : ustr) : bool :=
  match p, s with
  | [], _ => true
  | a :: p', b :: s' => Z.eqb a b && zprefix p' s'
  | _ :: _, [] => false
  end.

(** [p in s] for strings. *)
Fixpoint contains (p s : ustr) : bool :=
  zprefix p s || match s with [] => false | _ :: s' => contains p s' end.

(** [str.isspace] on code points. *)
Definition z_isspace (c : Z) : bool :=
  ((9 <=? c)%Z && (c <=? 13)%Z) || ((28 <=? c)%Z && (c <=? 32)%Z)
  || (c =? 133)%Z || (c =? 160)%Z || (c =? 5760)%Z
  || ((8192 <=? c)%Z && (c <=? 8202)%Z)
  || (c =? 8232)%Z || (c =? 8233)%Z || (c =? 8239)%Z || (c =? 8287)%Z
  || (c =? 12288)%Z.

Fixpoint zlstrip (s : ustr) : ustr :=
  match s with
  | [] => []
  | c :: r => if z_isspace c then zlstrip r else s
  end.

(** [s.strip()] *)
Definition zstrip (s : ustr) : ustr := rev (zlstrip (rev (zlstrip s))).

(** The mantissa of a number lexeme (the part before [e] or [E]). *)
Fixpoint upto_e (l : Text.text) : Text.text :=
  match l with
  | [] => []
  | c :: r => if Ascii.eqb c "e"%char || Ascii.eqb c "E"%char then [] else c :: upto_e r
  end.

(** The value of the decimal digits of [l] (other characters skipped). *)
Fixpoint digits_value (acc : Z) (l : Text.text) : Z :=
  match l with
  | [] => acc
  | c :: r => digits_value (if is_digit c then acc * 10 + (Z.of_nat (nat_of_ascii c) - 48)
                            else acc)%Z r
  end.

(** The characters after the first [.] of a mantissa. *)
Fixpoint after_dot (l : Text.text) : Text.text :=
  match l with
  | [] => []
  | c :: r => if Ascii.eqb c "."%char then r else after_dot r
  end.

(** The exponent part after [e] or [E], if there is one. *)
Fixpoint after_e (l : Text.text) : option Text.text :=
  match l with
  | [] => None
  | c :: r => if Ascii.eqb c "e"%char || Ascii.eqb c "E"%char then Some r else after_e r
  end.

(** The value of an exponent [[-+]?[0-9]+]. *)
Definition exp_value (ep : Text.text) : Z :=
  match ep with
  | c :: ds => if Ascii.eqb c "-"%char then (- digits_value 0 ds)%Z else digits_value 0 ep
  | [] => 0%Z
  end.

(** Whether the number [json.loads] makes of a lexeme is zero.  A lexeme
    with neither fraction nor exponent is an [int], zero when its digits
    are.  Any other lexeme goes through [float()], which rounds
    [m * 10 ^ e] ([m] the digits of the mantissa, [e] the exponent less the
    number of fraction digits) to the nearest double, ties to even: the
    result is [0.0] when [m = 0] or when the value is at most [2 ^ -1075],
    half the least subnormal.  [NaN] and the infinities have no digit in
    their mantissa and are non-zero. *)
Definition num_is_zero (lex : Text.text) : bool :=
  let mant := upto_e lex in
  if negb (existsb is_digit mant) then false
  else
    let m := digits_value 0 mant in
    let is_float := existsb (Ascii.eqb "."%char) mant
                    || match after_e lex with Some _ => true | None => false end in
    if (m =? 0)%Z then true
    else if negb is_float then false
    else
      let e := ((match after_e lex with Some ep => exp_value ep | None => 0 end)
                - Z.of_nat (length (after_dot mant)))%Z in
      (e <? 0)%Z && (m * 2 ^ 1075 <=? 10 ^ (- e))%Z.

(** Python truthiness of a JSON value. *)
Definition truthy (v : json) : bool :=
  match v with
  | JNull => false
  | JBool b => b
  | JNum lex => negb (num_is_zero lex)
  | JStr s => negb (match s with [] => true | _ => false end)
  | JArr l => negb (match l with [] => true | _ => false end)
  | JObj d => negb (match d with [] => true | _ => false end)
  end.

(** [" ".join(x)] for the value [x] of [test_case_steps]: iterating a list
    of strings, a string (its characters) or a dict (its keys); anything
    else raises [TypeError]. *)
Definition join_steps (x : json) : option ustr :=
  match x with
  | JArr items =>
      let strs := map (fun v => match v with JStr s => Some s | _ => None end) items in
      if forallb (fun o => match o with Some _ => true | None => false end) strs
      then Some (join [32%Z] (map (fun o => match o with Some s => s | None => [] end) strs))
      else None
  | JStr s => Some (join [32%Z] (map (fun c => [c]) s))
  | JObj d => Some (join [32%Z] (map fst d))
  | _ => None
  end.

(** [d.get(k, default)] *)
Definition get (k : key) (default : json) (d : list (key * json)) : json :=
  match lookup k d with Some v => v | None => default end.

Definition bullets (xs : list ustr) : list ustr := map (fun x => K "- " ++ x) xs.

(** [format_missing_coverage_for_html] (lines 115-130) on the dict [item]. *)
Definition format_missing_coverage_for_html (item : list (key * json))
    (coverage_summary missing_coverage_list rationale_list : list ustr)
  : list (key * json) :=
  let missing_coverage_text :=
    K "With this test case:" ++ NL ++ join NL (bullets coverage_summary) ++ NL ++ NL ++
    K "Missing coverage / what to be added:" ++ NL ++
    join NL (bullets missing_coverage_list) ++ NL ++ NL ++
    K "Rationale of adding / what can be achieved after adding:" ++ NL ++
    join NL (bullets rationale_list) in
  let item := dict_set (K "missing_coverage")
                (JStr (K "<pre>" ++ missing_coverage_text ++ K "</pre>")) item in
  dict_set (K "rationale")
    (JStr (K "<pre>" ++ NL ++ join NL (bullets rationale_list) ++ K "</pre>")) item.

(** [(item.get(k) or "").strip()] *)
Definition raw_field (k : key) (item : list (key * json)) : option ustr :=
  let v := get k JNull item in
  if truthy v then match v with JStr s => Some (zstrip s) | _ => None end
  else Some [].

Definition or_default (s : ustr) (default : ustr) : ustr :=
  match s with [] => default | _ => s end.

(** [enforce_formatting_fallback] (lines 134-153); [None] is a raised
    exception. *)
Definition enforce_formatting_fallback (item : list (key * json))
  : option (list (key * json)) :=
  let formatted :=
    match get (K "missing_coverage") JNull item with
    | JStr mc => contains (K "<pre>") mc
    | _ => false
    end in
  if formatted then Some item
  else
    match raw_field (K "missing_coverage") item, raw_field (K "rationale") item with
    | Some raw_missing, Some raw_rationale =>
        let fallback_text :=
          K "With this test case:" ++ NL ++
          K "- (Original missing_coverage was returned in plain text)" ++ NL ++ NL ++
          K "Missing coverage / what to be added:" ++ NL ++
          K "- " ++ or_default raw_missing (K "None") ++ NL ++ NL ++
          K "Rationale of adding / what can be achieved after adding:" ++ NL ++
          K "- " ++ or_default raw_rationale (K "Not provided") in
        let item := dict_set (K "missing_coverage")
                      (JStr (K "<pre>" ++ fallback_text ++ K "</pre>")) item in
        Some (dict_set (K "rationale")
                (JStr (K "<pre>- " ++ or_default raw_rationale (K "Not provided") ++ K "</pre>"))
                item)
    | _, _ => None
    end.

(** The canned texts of lines 161-180. *)
Definition default_lists : list ustr * list ustr * list ustr :=
  ([K "Test steps executed successfully"],
   [K "None identified"],
   [K "This test plan covers the essential functionalities."]).

Definition vcredist_lists : list ustr * list ustr * list ustr :=
  ([K "Client has vcredist installed";
    K "Applications relying on vcredist can run successfully"],
   [K "Verify vcredist post-installation for all clients";
    K "Validate vcredist upgrade paths and old client handling";
    K "Deploy applications relying on vcredist and validate"],
   [K "Ensures the installation process installs required runtime correctly";
    (* the source text holds the code points U+00E2 U+20AC U+2122 here *)
    K "Ensures upgrades don" ++ [226; 8364; 8482]%Z ++ K "t break dependent applications";
    K "Confirms clients can run apps dependent on vcredist"]).

Definition keywords : list ustr := [K "vcredist"; K "visual c++"; K "vc++"; K "runtime"].

(** The loop body of [enrich_test_plan] for one item. *)
Definition enrich_item (item : json) : option json :=
  match item with
  | JObj d =>
      match join_steps (get (K "test_case_steps") (JArr []) d) with
      | None => None
      | Some steps =>
          let steps_text := map zlower steps in
          let '(cov, miss, rat) :=
            if existsb (fun k => contains k steps_text) keywords
            then vcredist_lists else default_lists in
          let formatted := format_missing_coverage_for_html d cov miss rat in
          option_map JObj (enforce_formatting_fallback formatted)
      end
  | _ => None   (* [item.get]: AttributeError *)
  end.

Fixpoint enrich_items (items : list json) : option (list json) :=
  match items with
  | [] => Some []
  | it :: r =>
      match enrich_item it with
      | None => None
      | Some it' => option_map (cons it') (enrich_items r)
      end
  end.

(** [enrich_test_plan(plan_data)] (lines 157-190); [None] is a raised
    exception.  [plan_data.get("plan", [])] is iterated: a list item by item,
    a string by characters and a dict by keys (whose [.get] fails unless they
    are empty); [None], numbers and booleans are not iterable. *)
Definition enrich_test_plan (plan_data : json) : option json :=
  match plan_data with
  | JObj pd =>
      match get (K "plan") (JArr []) pd with
      | JArr items =>
          match enrich_items items with
          | Some items' =>
              match lookup (K "plan") pd with
              | Some _ => Some (JObj (dict_set (K "plan") (JArr items') pd))
              | None => Some (JObj pd)   (* default [[]]: no iteration *)
              end
          | None => None
          end
      | JStr [] | JObj [] => Some (JObj pd)
      | _ => None
      end
  | _ => None
  end.

(** Item [it'] is [it] with at most its [missing_coverage] and [rationale]
    fields changed. *)
Definition item_frame (it it' : json) : Prop :=
  exists f f', it = JObj f /\ it' = JObj f' /\
    forall k, k <> K "missing_coverage" -> k <> K "rationale" ->
      lookup k f' = lookup k f.

End Enrich.

(* ------------------------------------------------------------------ *)
(** ** Sample inputs used by the witnesses *)

Module Samples.
Import Json Enrich.

(** A plan as app.py's prompt asks for it, with an extra top-level key. *)
Definition sample_plan : list (key * json) :=
  [(K "title", JStr (K "SCCM rollout"));
   (K "plan",
    JArr [JObj [(K "functional_area", JStr (K "Install"));
                (K "test_case_steps", JArr [JStr (K "Install VC++ runtime"); JStr (K "Reboot")]);
                (K "expected_result", JStr (K "Runtime present"));
                (K "missing_coverage", JStr (K "upgrade"))];
          JObj [(K "functional_area", JStr (K "Login"));
                (K "test_case_steps", JStr (K "Open app"));
                (K "priority", JNum (Text.T "1"))]])].

Definition sample_plan_out : json :=
  Eval vm_compute in
    match enrich_test_plan (JObj sample_plan) with Some o => o | None => JNull end.

(** A backend whose first answer is prose with no JSON in it and whose
    second answer is an empty object. *)
Definition prose : Text.text := Text.T "Here is my analysis, no JSON here.".

Definition reprompt_backend : Analyze.backend :=
  fun k _ => match k with
             | 0 => Analyze.Response (Some prose) None
             | _ => Analyze.Response (Some (Text.T "{}")) None
             end.

(** Text written with ['] for the double quote, which keeps JSON samples
    readable inside Rocq string literals. *)
Definition dq (s : string) : Text.text :=
  map (fun c => if Ascii.eqb c "'"%char then Json.dquote else c) (Text.T s).

End Samples.


(* ------------------------------------------------------------------ *)
(** ** [json.dump(obj, f, ensure_ascii=False, indent=2)]

    The pure-Python encoder [_make_iterencode] of [json.encoder] (used
    whenever [indent] is set) with [c_encode_basestring] for strings.  The
    result is the text written to the file; [None] marks a value outside this
    model: a number (written by [int.__repr__] / [float.__repr__], not by its
    lexeme) or a code point outside ASCII (the text model is ASCII). *)

Module Dump.
Import Text Json.

Definition nlc : ascii := ascii_of_nat 10.

(** [sep.join(xs)] on text. *)
Fixpoint tjoin (sep : text) (xs : list text) : text :=
  match xs with
  | [] => []
  | [x] => x
  | x :: r => x ++ sep ++ tjoin sep r
  end.

(** [' ' * n] *)
Definition spaces (n : nat) : text := repeat " "%char n.

(** A lower-case hexadecimal digit ([Py_hexdigits]). *)
Definition hexdig (n : Z) : ascii :=
  if (n <? 10)%Z then ascii_of_nat (48 + Z.to_nat n) else ascii_of_nat (87 + Z.to_nat n).

(** The escape of one code point: a backslash before a double quote or a
    backslash, [\b \f \n \r \t], [\u00XX] for
    the other control characters, the character itself otherwise. *)
Definition escape_cp (u : Z) : option text :=
  if (u =? 34)%Z then Some [backslash; dquote]
  else if (u =? 92)%Z then Some [backslash; backslash]
  else if (u =? 8)%Z then Some [backslash; "b"%char]
  else if (u =? 12)%Z then Some [backslash; "f"%char]
  else if (u =? 10)%Z then Some [backslash; "n"%char]
  else if (u =? 13)%Z then Some [backslash; "r"%char]
  else if (u =? 9)%Z then Some [backslash; "t"%char]
  else if (0 <=? u)%Z && (u <? 32)%Z then
    Some [backslash; "u"%char; "0"%char; "0"%char; hexdig (u / 16); hexdig (u mod 16)]
  else if (32 <=? u)%Z && (u <? 128)%Z then Some [ascii_of_nat (Z.to_nat u)]
  else None.

Fixpoint escape_all (s : list Z) : option text :=
  match s with
  | [] => Some []
  | u :: r => match escape_cp u, escape_all r with
              | Some e, Some t => Some (e ++ t)
              | _, _ => None
              end
  end.

(** [c_encode_basestring(s)]: the quoted, escaped string. *)
Definition encode_basestring (s : list Z) : option text :=
  match escape_all s with
  | Some t => Some (dquote :: t ++ [dquote])
  | None => None
  end.

(** [_iterencode(o, lvl)] with [indent=2], [item_separator = ","] and
    [key_separator = ": "]. *)
Fixpoint encode (lvl : nat) (v : json) : option text :=
  match v with
  | JNull => Some (T "null")
  | JBool true => Some (T "true")
  | JBool false => Some (T "false")
  | JNum _ => None
  | JStr s => encode_basestring s
  | JArr [] => Some (T "[]")
  | JArr items =>
      let ni := nlc :: spaces (2 * S lvl) in
      match (fix go (l : list json) : option (list text) :=
               match l with
               | [] => Some []
               | x :: r => match encode (S lvl) x, go r with
                           | Some a, Some b => Some (a :: b)
                           | _, _ => None
                           end
               end) items with
      | Some parts =>
          Some ("["%char :: ni ++ tjoin (","%char :: ni) parts ++
                nlc :: spaces (2 * lvl) ++ ["]"%char])
      | None => None
      end
  | JObj [] => Some (T "{}")
  | JObj fields =>
      let ni := nlc :: spaces (2 * S lvl) in
      match (fix go (l : list (key * json)) : option (list text) :=
               match l with
               | [] => Some []
               | (k, x) :: r =>
                   match encode_basestring k, encode (S lvl) x, go r with
                   | Some ek, Some a, Some b => Some ((ek ++ T ": " ++ a) :: b)
                   | _, _, _ => None
                   end
               end) fields with
      | Some parts =>
          Some ("{"%char :: ni ++ tjoin (","%char :: ni) parts ++
                nlc :: spaces (2 * lvl) ++ ["}"%char])
      | None => None
      end
  end.

(** The two loops of [encode] on their own: the items of a list and the
    [key: value] members of a dict, each encoded one level deeper. *)
Fixpoint encode_items (lvl : nat) (l : list json) : option (list text) :=
  match l with
  | [] => Some []
  | x :: r => match encode lvl x, encode_items lvl r with
              | Some a, Some b => Some (a :: b)
              | _, _ => None
              end
  end.

Fixpoint encode_fields (lvl : nat) (l : list (key * json)) : option (list text) :=
  match l with
  | [] => Some []
  | (k, x) :: r =>
      match encode_basestring k, encode lvl x, encode_fields lvl r with
      | Some ek, Some a, Some b => Some ((ek ++ T ": " ++ a) :: b)
      | _, _, _ => None
      end
  end.

(** [json.dump(obj, f, ensure_ascii=False, indent=2)]: the file's text. *)
Definition dump (v : json) : option text := encode 0 v.

(** No key occurs twice. *)
Fixpoint keys_nodup (ks : list key) : bool :=
  match ks with
  | [] => true
  | k :: r => negb (existsb (key_eqb k) r) && keys_nodup r
  end.

(** Every object inside [v] has pairwise distinct keys, as a Python [dict]
    always has. *)
Fixpoint dict_tree (v : json) : bool :=
  match v with
  | JArr l => forallb dict_tree l
  | JObj d => keys_nodup (map fst d) && forallb (fun kv => dict_tree (snd kv)) d
  | _ => true
  end.

(** [encode lvl v], when it succeeds, is read back to [v] by the parser,
    whatever text follows it. *)
Definition parses (lvl : nat) (v : json) : Prop :=
  forall t, encode lvl v = Some t -> dict_tree v = true ->
  forall R, exists n, scan_once n (t ++ R) = Some (v, R).

End Dump.

(* ------------------------------------------------------------------ *)
(** ** Knowledge helpers (app.py, lines 69-89)

    The file [knowledge_base.json] is its text, or [None] when it does not
    exist. *)

Module Knowledge.
Import Text Json Dump.

(** [load_knowledge()]: the value of [data.get("items", [])]; a missing
    file, a decoding error and a non-dict document (whose [.get] raises)
    give [[]]: the bare [except] catches everything. *)
Definition load_knowledge (file : option text) : json :=
  match file with
  | None => JArr []
  | Some s =>
      match loads s with
      | Some (JObj d) => Enrich.get (K "items") (JArr []) d
      | _ => JArr []
      end
  end.

(** [save_knowledge(items)]: the text written. *)
Definition save_knowledge (items : list json) : option text :=
  dump (JObj [(K "items", JArr items)]).

Inductive kerr :=
| KAttribute    (* [items.append] on a value that is not a list *)
| KUnmodelled.  (* the written text is outside the model, see [dump] *)

(** [add_knowledge(text)]: the new file text. *)
Definition add_knowledge (file : option text) (t : list Z) : kerr + text :=
  match load_knowledge file with
  | JArr items =>
      match save_knowledge (items ++ [JStr t]) with
      | Some c => inr c
      | None => inl KUnmodelled
      end
  | _ => inl KAttribute
  end.

End Knowledge.

(* ------------------------------------------------------------------ *)
(** ** [Agent] (app.py, lines 22-66) *)

Module AgentModel.
Import Text Json Dump.

(** Code points of ASCII text. *)
Definition codes (s : text) : list Z := map (fun c => Z.of_nat (code c)) s.

(** [{"role": role, "content": content}] *)
Definition msg (role content : text) : json :=
  JObj [(K "role", JStr (codes role)); (K "content", JStr (codes content))].

(** The attributes of an [Agent] that [handle] uses, and the memory file. *)
Record agent := Agent {
  system_prompt : text;
  memory : json;                 (* [self.memory] *)
  memory_file : option text }.   (* the text of [self.memory_file] *)

(** [load_memory()]: [json.load]'s result, [[]] on a missing or unreadable
    file. *)
Definition load_memory (file : option text) : json :=
  match file with
  | None => JArr []
  | Some s => match loads s with Some v => v | None => JArr [] end
  end.

(** [Agent(name, system_prompt, ...)] on an existing or missing memory file. *)
Definition init (sys : text) (file : option text) : agent :=
  Agent sys (load_memory file) file.

(** What [client.chat.completions.create(...).choices[0].message] gives:
    a raised exception or a message whose [content] may be [None]. *)
Inductive answer := ARaised | AContent (c : option text).

(** [client.chat.completions.create], as a function of the [messages] argument. *)
Definition completions := list json -> answer.

Inductive herr :=
| HBackend      (* raised by [_openai_call] *)
| HAttribute    (* [None.strip()], or [self.memory.extend] on a non-list *)
| HUnmodelled.  (* the memory file text is outside the model *)

(** [agent.handle(user_text, session_memory)].  The caller's list
    [session_memory] is mutated in place: its final value is returned beside
    the outcome, also when an exception is raised. *)
Definition handle (b : completions) (a : agent) (user_text : text)
    (session_memory : option (list json))
  : list json * (herr + (text * agent)) :=
  let session := match session_memory with Some l => l | None => [] end in
  let session1 := session ++ [msg (T "user") user_text] in
  let messages := msg (T "system") (system_prompt a) :: session1 in
  match b messages with
  | ARaised => (session1, inl HBackend)
  | AContent None => (session1, inl HAttribute)
  | AContent (Some c) =>
      let reply := strip c in
      let session2 := session1 ++ [msg (T "assistant") reply] in
      match memory a with
      | JArr mem =>
          let mem' := JArr (mem ++ session2) in
          match dump mem' with
          | Some f => (session2, inr (reply, Agent (system_prompt a) mem' (Some f)))
          | None => (session2, inl HUnmodelled)
          end
      | _ => (session2, inl HAttribute)
      end
  end.

(** [k] successive calls of [handle] on one agent and one session list, with
    the user texts [inputs]; the final session, agent and replies, or the
    first error. *)
Fixpoint handle_all (b : completions) (a : agent) (session : list json)
    (inputs : list text) : list json * (herr + (agent * list text)) :=
  match inputs with
  | [] => (session, inr (a, []))
  | u :: rest =>
      match handle b a u (Some session) with
      | (s', inl e) => (s', inl e)
      | (s', inr (reply, a')) =>
          match handle_all b a' s' rest with
          | (s'', inl e) => (s'', inl e)
          | (s'', inr (a'', replies)) => (s'', inr (a'', reply :: replies))
          end
      end
  end.

End AgentModel.

(* ------------------------------------------------------------------ *)
(** ** Pieces of the [chat] view (app.py, lines 308-420) *)

Module Chat.
Import Text Json Dump.

(** [re.sub] of the pattern [<[^>]+>] by the empty string in [s] (line
    335), scanning left to right.  A match starts at
    a [<] that is followed by at least one character other than [>] and,
    after them, by a [>]; since [[^>]+] is greedy it runs up to the first
    [>].  [pend] holds the characters read since such a [<] (reversed) while
    no [>] has been seen.  When the character right after [<] is [>], there
    is no match at [<] and the search resumes at that [>].  When the text
    ends first there is no [>] left, so no match starts in the pending
    characters either and they are copied out. *)
Fixpoint tags_go (pend : option text) (s : text) : text :=
  match s with
  | [] => match pend with Some b => "<"%char :: rev b | None => [] end
  | c :: r =>
      match pend with
      | None => if Ascii.eqb c "<"%char then tags_go (Some []) r
                else c :: tags_go None r
      | Some [] => if Ascii.eqb c ">"%char then "<"%char :: ">"%char :: tags_go None r
                   else tags_go (Some [c]) r
      | Some b => if Ascii.eqb c ">"%char then tags_go None r
                  else tags_go (Some (c :: b)) r
      end
  end.

Definition strip_tags (s : text) : text := tags_go None s.

(** [re.search(r"<[^>]+>", s)] finds a match. *)
Fixpoint has_tag (s : text) : bool :=
  match s with
  | [] => false
  | c :: r =>
      (Ascii.eqb c "<"%char &&
       match r with
       | d :: r' => negb (Ascii.eqb d ">"%char) && existsb (Ascii.eqb ">"%char) r'
       | [] => false
       end) || has_tag r
  end.

(** No character of [t] is [>]. *)
Definition no_gt (t : text) : bool := forallb (fun c => negb (Ascii.eqb c ">"%char)) t.

(** The characters that [tags_go] holds back in state [pend]. *)
Definition pending (pend : option text) : text :=
  match pend with Some b => "<"%char :: rev b | None => [] end.

End Chat.

(* ------------------------------------------------------------------ *)
(** ** Shapes used in the statements below *)

Module Shapes.
Import Text.

(** [x] occurs in [s] as a contiguous piece. *)
Definition infix {A} (x s : list A) : Prop := exists a b, s = a ++ x ++ b.

(** [x] is [s] with some elements deleted. *)
Fixpoint subseq {A} (eqb : A -> A -> bool) (x s : list A) : bool :=
  match x, s with
  | [], _ => true
  | _ :: _, [] => false
  | a :: x', b :: s' => if eqb a b then subseq eqb x' s' else subseq eqb x s'
  end.


(** Neither a comma nor whitespace. *)
Definition kept (c : ascii) : bool := negb (Ascii.eqb c ","%char || py_isspace c).

End Shapes.

(* ================================================================== *)
(** * Theorems *)

Module RetryFacts.
Import Retry.

Section Intent.
(** With an [openai] package that still has the [openai.error] namespace
    (0.x releases) the loop retries as its docstring says. *)
Variables (n : nat) (errs : nat -> exc) (v : nat) (retries : nat).
Hypothesis errs_retryable : forall k, k < n -> retryable (errs k) = true.

Lemma attempts_succeed (m a : nat) (d : Z) :
  a + m = retries -> a <= n -> n < retries ->
  let '(tr, r) := attempts (fail_then n errs v) true retries (seq a m) a d in
  r = RReturn v /\ calls tr = n + 1 - a.
Proof.
  revert a d; induction m as [|m IH]; intros a d Hm Ha Hn; [lia|].
  cbn [seq attempts]. unfold fail_then at 1.
  destruct (Nat.ltb_spec a n) as [Hlt|Hge].
  - rewrite errs_retryable by exact Hlt. cbn [negb].
    destruct (Nat.eqb_spec a (retries - 1)) as [E|E]; [lia|].
    specialize (IH (S a) (d * 2)%Z ltac:(lia) ltac:(lia) Hn).
    destruct (attempts _ _ _ _ _ _) as [tr r]. destruct IH as [IH1 IH2].
    split; [exact IH1|]. unfold calls in *. cbn. lia.
  - replace a with n by lia. split; [reflexivity|]. cbn. lia.
Qed.

Lemma attempts_exhaust (m a : nat) (d : Z) :
  a + m = retries -> a < retries -> retries <= n ->
  let '(tr, r) := attempts (fail_then n errs v) true retries (seq a m) a d in
  r = RRaise (errs (retries - 1)) /\ calls tr = retries - a.
Proof.
  revert a d; induction m as [|m IH]; intros a d Hm Ha Hn; [lia|].
  cbn [seq attempts]. unfold fail_then at 1.
  destruct (Nat.ltb_spec a n) as [Hlt|Hge]; [|lia].
  rewrite errs_retryable by exact Hlt. cbn [negb].
  destruct (Nat.eqb_spec a (retries - 1)) as [E|E].
  - subst a. split; [reflexivity|]. cbn. lia.
  - specialize (IH (S a) (d * 2)%Z ltac:(lia) ltac:(lia) Hn).
    destruct (attempts _ _ _ _ _ _) as [tr r]. destruct IH as [IH1 IH2].
    split; [exact IH1|]. unfold calls in *. cbn. lia.
Qed.

End Intent.

(** Non-claim lemma documenting the intended behaviour: with the 0.x
    namespace the retry-count property holds. *)
Lemma retry_count_with_legacy_namespace (n : nat) (errs : nat -> exc)
    (v retries : nat) (d : Z) :
  (forall k, k < n -> retryable (errs k) = true) -> 1 <= retries ->
  let '(tr, r) := safe_openai_call (fail_then n errs v) true retries d in
  (n + 1 <= retries -> r = RReturn v /\ calls tr = n + 1) /\
  (retries <= n -> r = RRaise (errs (retries - 1)) /\ calls tr = retries).
Proof.
  intros Herr Hr. unfold safe_openai_call.
  pose proof (attempts_succeed n errs v retries Herr retries 0 d) as S1.
  pose proof (attempts_exhaust n errs v retries Herr retries 0 d) as S2.
  destruct (attempts _ _ _ _ _ _) as [tr r].
  split; intro H.
  - destruct (S1 ltac:(lia) ltac:(lia) ltac:(lia)). split; [assumption|lia].
  - destruct (S2 ltac:(lia) ltac:(lia) ltac:(lia)). split; [assumption|lia].
Qed.

(** C1 (code_bug): with the [openai] release the module is written against
    (1.x, no [openai.error]), a stub that raises [RateLimitError] once and
    then returns 7 is called exactly once: evaluating the [except] clause
    raises [AttributeError], so there is no retry and the wrapper fails
    instead of returning 7 after two calls. *)
Theorem safe_call_no_retry_under_v1 :
  safe_openai_call (fail_then 1 (fun _ => RateLimitError 0) 7)
    openai_v1_has_error_ns 4 2%Z = ([Call], RRaise AttributeError).
Proof. reflexivity. Qed.

(** C2: if the first call raises a non-retryable exception, the wrapper
    fails after exactly one call with no sleep, whatever [retries >= 1] is;
    the exception propagated is the original one when [openai.error]
    resolves and [AttributeError] otherwise. *)
Theorem safe_call_non_retryable_one_call (func : stub) (ns : bool)
    (retries : nat) (d : Z) (e : exc) :
  1 <= retries -> func 0 = Raises e -> retryable e = false ->
  safe_openai_call func ns retries d
  = ([Call], RRaise (if ns then e else AttributeError)).
Proof.
  intros Hr He Hnr. unfold safe_openai_call.
  destruct retries as [|r]; [lia|]. cbn [seq attempts].
  rewrite He. destruct ns; cbn [negb]; [rewrite Hnr|]; reflexivity.
Qed.

Lemma safe_call_non_retryable_one_call_witness :
  1 <= 3 /\
  safe_openai_call (fun _ => Raises (OtherError 5)) true 3 2%Z
  = ([Call], RRaise (OtherError 5)).
Proof.
  split; [lia|].
  exact (safe_call_non_retryable_one_call (fun _ => Raises (OtherError 5))
           true 3 2%Z (OtherError 5) ltac:(lia) eq_refl eq_refl).
Defined.

(** C3 (counterexample): with [retries = 0] no [ConfigError] is raised; the
    wrapper makes zero calls and returns [None]. *)
Lemma safe_call_zero_retries_returns_none :
  let '(tr, r) := safe_openai_call (fun _ => Returns 1) true 0 2%Z in
  calls tr = 0 /\ r = RNone.
Proof. split; reflexivity. Qed.

(** C3 (amended): with [retries = 0] the wrapper makes no call, does not
    sleep, raises nothing and returns [None]. *)
Theorem safe_call_zero_retries (func : stub) (ns : bool) (d : Z) :
  safe_openai_call func ns 0 d = ([], RNone).
Proof. reflexivity. Qed.

End RetryFacts.

Module DictFacts.
Import Json.

Lemma key_eqb_spec (a b : key) : key_eqb a b = true <-> a = b.
Proof.
  revert b; induction a as [|x a IH]; intros [|y b]; cbn; try (split; congruence).
  rewrite andb_true_iff, Z.eqb_eq, IH. split; [intros [-> ->]; reflexivity|].
  intros H; injection H; auto.
Qed.

Lemma key_eqb_refl (a : key) : key_eqb a a = true.
Proof. apply key_eqb_spec; reflexivity. Qed.

Lemma key_eqb_false (a b : key) : key_eqb a b = false <-> a <> b.
Proof.
  rewrite <- key_eqb_spec. destruct (key_eqb a b); split; congruence.
Qed.

Lemma lookup_dict_set (k k' : key) (v : json) (d : list (key * json)) :
  lookup k (dict_set k' v d) = if key_eqb k k' then Some v else lookup k d.
Proof.
  induction d as [|[k0 v0] d IH]; cbn.
  - reflexivity.
  - destruct (key_eqb k' k0) eqn:E1; cbn.
    + apply key_eqb_spec in E1; subst k0.
      destruct (key_eqb k k'); reflexivity.
    + destruct (key_eqb k k0) eqn:E2; [|exact IH].
      apply key_eqb_spec in E2; subst k0.
      destruct (key_eqb k k') eqn:E3; [|reflexivity].
      apply key_eqb_spec in E3; subst k'. rewrite key_eqb_refl in E1. discriminate.
Qed.

Lemma dict_set_absent (k : key) (v : json) (d : list (key * json)) :
  lookup k d = None -> dict_set k v d = d ++ [(k, v)].
Proof.
  induction d as [|[k0 v0] d IH]; cbn; [reflexivity|].
  destruct (key_eqb k k0) eqn:E; [discriminate|].
  intros H; rewrite (IH H); reflexivity.
Qed.

Lemma dict_set_keys (k : key) (v : json) (d : list (key * json)) :
  lookup k d <> None -> map fst (dict_set k v d) = map fst d.
Proof.
  induction d as [|[k0 v0] d IH]; cbn; [congruence|].
  destruct (key_eqb k k0); cbn; [reflexivity|].
  intros H; rewrite (IH H); reflexivity.
Qed.

End DictFacts.

Module DefaultsFacts.
Import Json Analyze DictFacts.

Lemma lookup_setdefault (k k' : key) (d : list (key * json)) :
  lookup k (setdefault k' d)
  = match lookup k d with
    | Some v => Some v
    | None => if key_eqb k k' then Some (JArr []) else None
    end.
Proof.
  unfold setdefault. destruct (lookup k' d) eqn:E.
  - destruct (lookup k d) eqn:E2; [reflexivity|].
    destruct (key_eqb k k') eqn:E3; [|reflexivity].
    apply key_eqb_spec in E3; subst k'. congruence.
  - rewrite lookup_dict_set.
    destruct (key_eqb k k') eqn:E3; destruct (lookup k d) eqn:E4; try reflexivity.
    apply key_eqb_spec in E3; subst k'. congruence.
Qed.

Lemma setdefault_extends (k : key) (d : list (key * json)) :
  exists extra, setdefault k d = d ++ extra.
Proof.
  unfold setdefault. destruct (lookup k d) eqn:E.
  - exists []; rewrite app_nil_r; reflexivity.
  - exists [(k, JArr [])]; apply dict_set_absent; exact E.
Qed.

Lemma lookup_ensure_keys (k : key) (d : list (key * json)) :
  lookup k (ensure_keys d)
  = match lookup k d with
    | Some v => Some v
    | None => if existsb (key_eqb k) known_keys then Some (JArr []) else None
    end.
Proof.
  unfold ensure_keys, known_keys. rewrite !lookup_setdefault.
  cbn [existsb]. destruct (lookup k d); [reflexivity|].
  destruct (key_eqb k (K "risk_scores")), (key_eqb k (K "missing_coverage")),
    (key_eqb k (K "most_impactful_tests")), (key_eqb k (K "prioritized_plan"));
    reflexivity.
Qed.

Lemma existsb_known (k : key) :
  existsb (key_eqb k) known_keys = true <-> In k known_keys.
Proof.
  rewrite existsb_exists. split.
  - intros [x [Hx E]]. apply key_eqb_spec in E; subst; exact Hx.
  - intros H; exists k; split; [exact H|apply key_eqb_refl].
Qed.

(** C6: [setdefault] on the parsed dict keeps every pair the backend
    returned (the dict is a prefix of the result), and each of the four
    known keys is present, bound to [[]] when it was absent; no other key is
    touched. *)
Theorem fill_defaults_known_keys (d : list (key * json)) (log : list request) :
  exists d',
    fill_defaults (JObj d) log = (log, inr (JObj d')) /\
    (exists extra, d' = d ++ extra) /\
    (forall k v, lookup k d = Some v -> lookup k d' = Some v) /\
    (forall k, In k known_keys ->
       lookup k d' = Some (match lookup k d with Some v => v | None => JArr [] end)) /\
    (forall k, ~ In k known_keys -> lookup k d' = lookup k d).
Proof.
  exists (ensure_keys d). split; [reflexivity|]. split; [|split; [|split]].
  - unfold ensure_keys.
    destruct (setdefault_extends (K "risk_scores") d) as [e1 ->].
    destruct (setdefault_extends (K "missing_coverage") (d ++ e1)) as [e2 ->].
    destruct (setdefault_extends (K "most_impactful_tests") ((d ++ e1) ++ e2)) as [e3 ->].
    destruct (setdefault_extends (K "prioritized_plan") (((d ++ e1) ++ e2) ++ e3)) as [e4 ->].
    exists (e1 ++ e2 ++ e3 ++ e4). rewrite !app_assoc. reflexivity.
  - intros k v H. rewrite lookup_ensure_keys, H. reflexivity.
  - intros k Hk. rewrite lookup_ensure_keys. apply existsb_known in Hk. rewrite Hk.
    destruct (lookup k d); reflexivity.
  - intros k Hk. rewrite lookup_ensure_keys.
    destruct (existsb (key_eqb k) known_keys) eqn:E.
    + apply existsb_known in E. contradiction.
    + destruct (lookup k d); reflexivity.
Qed.

End DefaultsFacts.

Module EnrichFacts.
Import Json Enrich DictFacts.

Lemma lookup_two_sets (k k1 k2 : key) (v1 v2 : json) (d : list (key * json)) :
  k <> k1 -> k <> k2 -> lookup k (dict_set k2 v2 (dict_set k1 v1 d)) = lookup k d.
Proof.
  intros H1 H2. rewrite !lookup_dict_set.
  apply key_eqb_false in H1, H2. rewrite H1, H2. reflexivity.
Qed.

Lemma format_frame (d : list (key * json)) cov miss rat (k : key) :
  k <> K "missing_coverage" -> k <> K "rationale" ->
  lookup k (format_missing_coverage_for_html d cov miss rat) = lookup k d.
Proof. intros H1 H2. apply lookup_two_sets; assumption. Qed.

Lemma fallback_frame (d d' : list (key * json)) (k : key) :
  enforce_formatting_fallback d = Some d' ->
  k <> K "missing_coverage" -> k <> K "rationale" ->
  lookup k d' = lookup k d.
Proof.
  unfold enforce_formatting_fallback. intros E H1 H2.
  destruct (match get (K "missing_coverage") JNull d with
            | JStr mc => contains (K "<pre>") mc | _ => false end).
  - injection E as <-. reflexivity.
  - destruct (raw_field (K "missing_coverage") d), (raw_field (K "rationale") d);
      try discriminate.
    injection E as <-. apply lookup_two_sets; assumption.
Qed.

Lemma enrich_item_frame (it it' : json) :
  enrich_item it = Some it' -> item_frame it it'.
Proof.
  intros H. destruct it as [| | | | |d]; try discriminate H.
  unfold enrich_item in H.
  destruct (join_steps _) as [steps|]; [|discriminate H].
  destruct (if existsb _ keywords then vcredist_lists else default_lists)
    as [[cov miss] rat].
  destruct (enforce_formatting_fallback (format_missing_coverage_for_html d cov miss rat))
    as [f'|] eqn:E; cbn in H; [|discriminate H].
  injection H as <-.
  exists d, f'. split; [reflexivity|]. split; [reflexivity|].
  intros k H1 H2. rewrite (fallback_frame _ _ k E H1 H2). apply format_frame; assumption.
Qed.

Lemma enrich_items_frame (items items' : list json) :
  enrich_items items = Some items' -> Forall2 item_frame items items'.
Proof.
  revert items'; induction items as [|it items IH]; cbn; intros items' E.
  - injection E as <-. constructor.
  - destruct (enrich_item it) as [it'|] eqn:Ei; [|discriminate].
    destruct (enrich_items items) as [r|] eqn:Er; cbn in E; [|discriminate].
    injection E as <-. constructor; [apply enrich_item_frame; exact Ei|].
    apply IH; reflexivity.
Qed.

(** C10: when [enrich_test_plan] returns, the returned mapping has the same
    keys in the same order; every top-level value other than [plan] is
    unchanged; a [plan] list is replaced by a list of the same length whose
    [i]-th item is the [i]-th input item with at most [missing_coverage] and
    [rationale] changed; any other [plan] leaves the mapping unchanged. *)
Theorem enrich_test_plan_frame (pd : list (key * json)) (out : json) :
  enrich_test_plan (JObj pd) = Some out ->
  exists pd',
    out = JObj pd' /\
    map fst pd' = map fst pd /\
    (forall k, k <> K "plan" -> lookup k pd' = lookup k pd) /\
    (forall items, lookup (K "plan") pd = Some (JArr items) ->
       exists items', lookup (K "plan") pd' = Some (JArr items') /\
                      length items' = length items /\
                      Forall2 item_frame items items') /\
    ((forall items, lookup (K "plan") pd <> Some (JArr items)) -> pd' = pd).
Proof.
  unfold enrich_test_plan, get. intros E.
  destruct (lookup (K "plan") pd) as [pv|] eqn:Ep.
  - destruct pv as [| | |s|items|fd]; try discriminate.
    + destruct s; [|discriminate]. injection E as <-.
      exists pd. repeat split; try reflexivity.
      * intros items H; discriminate.
    + destruct (enrich_items items) as [items'|] eqn:Ei; [|discriminate].
      injection E as <-. exists (dict_set (K "plan") (JArr items') pd).
      split; [reflexivity|]. split; [apply dict_set_keys; congruence|].
      split; [|split].
      * intros k Hk. rewrite lookup_dict_set. apply key_eqb_false in Hk. rewrite Hk.
        reflexivity.
      * intros items0 H. injection H as <-. exists items'.
        rewrite lookup_dict_set, key_eqb_refl. split; [reflexivity|].
        pose proof (enrich_items_frame _ _ Ei) as F.
        split; [symmetry; exact (Forall2_length F)|exact F].
      * intros H. exfalso. exact (H items eq_refl).
    + destruct fd; [|discriminate]. injection E as <-.
      exists pd. repeat split; try reflexivity.
      * intros items H; discriminate.
  - injection E as <-. exists pd. repeat split; try reflexivity.
    intros items H; discriminate.
Qed.

End EnrichFacts.

Module EnrichWitness.
Import Json Enrich Samples.

Lemma enrich_test_plan_frame_witness :
  enrich_test_plan (JObj sample_plan) = Some sample_plan_out /\
  exists pd',
    sample_plan_out = JObj pd' /\
    map fst pd' = map fst sample_plan /\
    (forall k, k <> K "plan" -> lookup k pd' = lookup k sample_plan) /\
    (forall items, lookup (K "plan") sample_plan = Some (JArr items) ->
       exists items', lookup (K "plan") pd' = Some (JArr items') /\
                      length items' = length items /\
                      Forall2 item_frame items items') /\
    ((forall items, lookup (K "plan") sample_plan <> Some (JArr items)) -> pd' = sample_plan).
Proof.
  split; [vm_compute; reflexivity|].
  apply (EnrichFacts.enrich_test_plan_frame sample_plan sample_plan_out).
  vm_compute; reflexivity.
Defined.

End EnrichWitness.

Module TextFacts.
Import Text.

Lemma lstrip_app (x y : text) :
  lstrip (x ++ y) = if forallb py_isspace x then lstrip y else lstrip x ++ y.
Proof.
  induction x as [|c x IH]; cbn; [reflexivity|].
  destruct (py_isspace c); cbn; [exact IH|reflexivity].
Qed.

Lemma lstrip_idem (s : text) : lstrip (lstrip s) = lstrip s.
Proof.
  induction s as [|c s IH]; cbn; [reflexivity|].
  destruct (py_isspace c) eqn:E; [exact IH|cbn; rewrite E; reflexivity].
Qed.

Lemma lstrip_nonspace (c : ascii) (s : text) :
  py_isspace c = false -> lstrip (c :: s) = c :: s.
Proof. intros E; cbn; rewrite E; reflexivity. Qed.

Lemma strip_lstrip (s : text) : strip (lstrip s) = strip s.
Proof. unfold strip, rstrip. rewrite lstrip_idem. reflexivity. Qed.

Lemma lstrip_char_nonmatch (ch c : ascii) (s : text) :
  Ascii.eqb c ch = false -> lstrip_char ch (c :: s) = c :: s.
Proof. intros E; cbn; rewrite E; reflexivity. Qed.

Lemma startswith_app (p s : text) : startswith p (p ++ s) = true.
Proof.
  induction p as [|c p IH]; cbn; [reflexivity|].
  rewrite Ascii.eqb_refl, IH. reflexivity.
Qed.

Lemma startswith_spec (p s : text) :
  startswith p s = true <-> exists r, s = p ++ r.
Proof.
  revert s; induction p as [|a p IH]; intros [|b s]; cbn.
  - split; [intros _; exists []; reflexivity|reflexivity].
  - split; [intros _; exists (b :: s); reflexivity|reflexivity].
  - split; [discriminate|intros [r H]; discriminate].
  - rewrite andb_true_iff, Ascii.eqb_eq, IH. split.
    + intros [-> [r ->]]. exists r; reflexivity.
    + intros [r H]. injection H as -> ->. split; [reflexivity|exists r; reflexivity].
Qed.

End TextFacts.

Module FenceFacts.
Import Text Extract TextFacts.

Lemma rstrip_last (x : text) (c : ascii) :
  py_isspace c = false -> rstrip (x ++ [c]) = x ++ [c].
Proof.
  intros E. unfold rstrip. rewrite rev_app_distr. cbn [rev app].
  rewrite lstrip_nonspace by exact E.
  change (c :: rev x) with (rev [c] ++ rev x). rewrite <- rev_app_distr, rev_involutive.
  reflexivity.
Qed.

(** C8 (counterexample): an interior with leading whitespace is not
    returned verbatim: [extract_json("```json\n {}\n```")] is ["{}"]. *)
Lemma extract_fenced_not_verbatim :
  extract_json (T "```json" ++ [ascii_of_nat 10] ++ T " {}" ++ [ascii_of_nat 10] ++ T "```")
  = T "{}" /\ T "{}" <> T " {}".
Proof. split; [vm_compute; reflexivity|discriminate]. Qed.

(** C8 (amended): for every interior [s] that does not end with a backtick,
    [extract_json] on the fenced block [```json s```] strips the fence and the
    [json] tag and returns [s.strip()]: [s] with its leading and trailing
    whitespace removed, and [s] itself when it has none. *)
Theorem extract_fenced_json (s : text) :
  endswith (T "`") s = false ->
  extract_json (T "```json" ++ s ++ T "```") = strip s.
Proof.
  intros Hend. unfold extract_json.
  set (F := T "```json" ++ s ++ T "```").
  assert (HF : strip F = F).
  { unfold strip. subst F. cbn [T list_ascii_of_string app].
    rewrite lstrip_nonspace by reflexivity.
    replace (s ++ ["`"; "`"; "`"]%char) with ((s ++ ["`"; "`"]%char) ++ ["`"%char])
      by (rewrite <- app_assoc; reflexivity).
    change ("`" :: "`" :: "`" :: "j" :: "s" :: "o" :: "n" :: (s ++ ["`"; "`"]) ++ ["`"])%char
      with ((("`" :: "`" :: "`" :: "j" :: "s" :: "o" :: "n" :: s ++ ["`"; "`"]) ++ ["`"])%char).
    apply rstrip_last. reflexivity. }
  rewrite HF.
  assert (Hs : startswith (T "```") F = true) by (subst F; reflexivity).
  rewrite Hs.
  assert (HC : strip_char "`"%char F = T "json" ++ s).
  { unfold strip_char.
    assert (L1 : lstrip_char "`"%char F = T "json" ++ s ++ T "```") by reflexivity.
    rewrite L1.
    assert (L2 : rev (T "json" ++ s ++ T "```") = T "```" ++ (rev s ++ T "nosj")).
    { rewrite !rev_app_distr. cbn [rev T list_ascii_of_string app].
      repeat rewrite <- app_assoc. reflexivity. }
    rewrite L2.
    assert (L3 : lstrip_char "`"%char (rev s ++ T "nosj") = rev s ++ T "nosj").
    { unfold endswith in Hend. cbn [rev T list_ascii_of_string app] in Hend.
      destruct (rev s) as [|c rs]; [reflexivity|].
      cbn in Hend. rewrite andb_true_r in Hend.
      cbn [app]. apply lstrip_char_nonmatch.
      destruct (Ascii.eqb c "`"%char) eqn:E; [|reflexivity].
      apply Ascii.eqb_eq in E. subst c. discriminate. }
    change (lstrip_char "`"%char (T "```" ++ (rev s ++ T "nosj")))
      with (lstrip_char "`"%char (rev s ++ T "nosj")).
    rewrite L3, rev_app_distr, rev_involutive. reflexivity. }
  rewrite HC.
  assert (L : lstrip (T "json" ++ s) = T "json" ++ s) by reflexivity.
  rewrite L.
  assert (Lj : startswith (T "json") (lower (T "json" ++ s)) = true) by reflexivity.
  rewrite Lj. change (skipn 4 (T "json" ++ s)) with s.
  apply strip_lstrip.
Qed.

Lemma extract_fenced_json_witness :
  endswith (T "`") (T " {} ") = false /\
  extract_json (T "```json" ++ T " {} " ++ T "```") = strip (T " {} ").
Proof.
  split; [reflexivity|].
  apply extract_fenced_json. reflexivity.
Defined.

End FenceFacts.

Module AnalyzeFacts.
Import Text Json Extract Analyze.

Lemma bind_inr {A B} (m : M A) (k : A -> M B) log log' x :
  m log = (log', inr x) -> bind m k log = k x log'.
Proof. intros E. unfold bind. rewrite E. reflexivity. Qed.

Lemma bind_inl {A B} (m : M A) (k : A -> M B) log log' e :
  m log = (log', inl e) -> bind m k log = (log', inl e).
Proof. intros E. unfold bind. rewrite E. reflexivity. Qed.

Lemma call_reply b rq log r :
  b (length log) rq = r ->
  call b rq log = (log ++ [rq], match r with Raised => inl EBackend | _ => inr r end).
Proof. intros E. unfold call. rewrite E. destruct r; reflexivity. Qed.

(** The parse/repair step and [fill_defaults] issue no request.  A slice
    that parses, directly or after the repair, gives the value with the
    default keys filled in (or the [AttributeError] of [fill_defaults]); a
    slice that fails to parse before and after the repair raises
    [EDecode]. *)
Lemma finish_spec jt log :
  exists r, bind (parse_slice jt) (fun parsed => fill_defaults parsed) log = (log, r) /\
            (forall v, loads jt = Some v -> r = snd (fill_defaults v [])) /\
            (forall v, loads jt = None -> loads (repair jt) = Some v ->
                       r = snd (fill_defaults v [])) /\
            (loads jt = None -> loads (repair jt) = None -> r = inl EDecode).
Proof.
  unfold bind, parse_slice.
  destruct (loads jt) as [v|] eqn:E1; [|destruct (loads (repair jt)) as [v|] eqn:E2].
  - destruct v; eexists; (split; [reflexivity|]);
      (split; [intros v' H; injection H as <-; reflexivity|]); split; intros; congruence.
  - destruct v; eexists; (split; [reflexivity|]);
      (split; [intros; congruence|]);
      (split; [intros v' _ H; injection H as <-; reflexivity|]); intros; congruence.
  - eexists; split; [reflexivity|]. split; [intros; congruence|].
    split; [intros; congruence|]. reflexivity.
Qed.

(** C4 (counterexample): a first output ["{bad}"] has a candidate slice that
    fails to parse, also after the repair pass; [analyze_artifacts] then
    raises [JSONDecodeError] after a single invocation, without the
    follow-up prompt. *)
Lemma analyze_parse_failure_not_reprompted :
  let b : backend := fun _ _ => Response (Some (T "{bad}")) None in
  _clean_json_from_text (T "{bad}") = Some (T "{bad}") /\
  loads (T "{bad}") = None /\ loads (repair (T "{bad}")) = None /\
  let '(log, res) := run (analyze_artifacts b [] [] []) in
  length log = 1 /\ res = inl EDecode.
Proof. vm_compute. repeat split; reflexivity. Qed.

(** C4 (amended): with [raw] the first output, the backend is invoked a
    second time exactly when extraction finds no candidate slice in [raw];
    the follow-up request carries [raw] after the reformatting instruction;
    a slice that fails to parse even after the repair pass raises
    [JSONDecodeError] without re-invocation; the second output goes through
    extraction once (no slice: [ValueError]) and a nonempty slice through
    the same parse/repair step: a slice that parses, directly or after the
    repair, is returned with the default keys filled in, one that does not
    raises [JSONDecodeError]; no third invocation ever happens. *)
Theorem analyze_reprompt_on_missing_slice (b : backend) (u c m raw : text)
    (sub : option text) :
  b 0 (first_request u c m) = Response (Some raw) sub ->
  let '(log, res) := run (analyze_artifacts b u c m) in
  (falsy_text (_clean_json_from_text raw) = false ->
     log = [first_request u c m] /\
     forall jt, _clean_json_from_text raw = Some jt ->
       (forall v, loads jt = Some v -> res = snd (fill_defaults v [])) /\
       (forall v, loads jt = None -> loads (repair jt) = Some v ->
                  res = snd (fill_defaults v [])) /\
       (loads jt = None -> loads (repair jt) = None -> res = inl EDecode)) /\
  (falsy_text (_clean_json_from_text raw) = true ->
     log = [first_request u c m; follow_request m raw] /\
     (exists pre, map content (req_messages (follow_request m raw))
                  = [system_prompt; pre ++ raw]) /\
     forall raw2 sub2,
       b 1 (follow_request m raw) = Response (Some raw2) sub2 -> raw2 <> [] ->
       (falsy_text (_clean_json_from_text raw2) = true -> res = inl EValue) /\
       (forall jt2, _clean_json_from_text raw2 = Some jt2 -> jt2 <> [] ->
          (forall v, loads jt2 = Some v -> res = snd (fill_defaults v [])) /\
          (forall v, loads jt2 = None -> loads (repair jt2) = Some v ->
                     res = snd (fill_defaults v [])) /\
          (loads jt2 = None -> loads (repair jt2) = None -> res = inl EDecode))).
Proof.
  intros Hb. unfold run, analyze_artifacts.
  rewrite (bind_inr _ _ _ _ _ (call_reply b _ [] _ Hb)).  cbn [app].
  rewrite (bind_inr _ _ _ _ raw) by reflexivity.
  assert (Hpre : exists pre, map content (req_messages (follow_request m raw))
                             = [system_prompt; pre ++ raw]).
  { exists (follow_prompt ++ nl ++ nl ++ T "Original output:" ++ nl).
    cbn [follow_request req_messages map content]. rewrite <- !app_assoc. reflexivity. }
  destruct (_clean_json_from_text raw) as [[|x jt]|] eqn:Ec; cbn [falsy_text].
  2: { rewrite (bind_inr _ _ _ _ (x :: jt)) by reflexivity. cbv beta.
       destruct (finish_spec (x :: jt) [first_request u c m]) as [r [E Hr]].
       rewrite E. cbv beta iota. split; [|discriminate]. intros _. split; [reflexivity|].
       intros jt0 [= <-]. exact Hr. }
  all: destruct (b 1 (follow_request m raw)) as [c2 s2|] eqn:Eb2.
  all: unfold bind at 1; unfold bind at 1.
  all: rewrite (call_reply b (follow_request m raw) [first_request u c m] _ Eb2).
  all: cbn [app].
  all: try (cbv beta iota; split; [discriminate|]; intros _;
            split; [reflexivity|]; split; [exact Hpre|]; intros; congruence).
  all: unfold bind at 1.
  all: destruct c2 as [[|y r2]|]; destruct s2 as [r2s|]; cbn [raw2_of ret throw]; cbv beta iota.
  all: try (split; [discriminate|]; intros _;
            split; [reflexivity|]; split; [exact Hpre|]; intros; congruence).
  all: match goal with
       | |- context [_clean_json_from_text ?w] =>
           destruct (_clean_json_from_text w) as [[|z jt2]|] eqn:Ec2
       end; cbn [ret throw]; cbv beta iota.
  all: try (destruct (finish_spec (z :: jt2) [first_request u c m; follow_request m raw])
              as [r [E Hr]]; rewrite E; cbv beta iota).
  all: split; [discriminate|]; intros _.
  all: split; [reflexivity|]; split; [exact Hpre|].
  all: intros raw2' sub2' Heq Hne; injection Heq; intros; subst; try congruence.
  all: rewrite Ec2; cbn [falsy_text]; split; intros H; try discriminate; try reflexivity.
  all: intros; match goal with H : Some _ = Some _ |- _ => injection H as <- end;
    auto; congruence.
Qed.

Lemma analyze_reprompt_on_missing_slice_witness :
  Samples.reprompt_backend 0 (first_request [] [] [])
    = Response (Some Samples.prose) None /\
  fst (run (analyze_artifacts Samples.reprompt_backend [] [] []))
    = [first_request [] [] []; follow_request [] Samples.prose].
Proof.
  split; [reflexivity|].
  pose proof (analyze_reprompt_on_missing_slice Samples.reprompt_backend
                [] [] [] Samples.prose None eq_refl) as H.
  destruct (run (analyze_artifacts Samples.reprompt_backend [] [] [])) as [log res].
  destruct H as [_ H]. apply H. vm_compute. reflexivity.
Defined.

End AnalyzeFacts.

Module JsonFacts.
Import Text Json Lexer.

Ltac list_eq := repeat first [rewrite <- app_assoc | rewrite <- app_comm_cons]; reflexivity.

Lemma tc_run_app st x y :
  tc_run st (x ++ y) = match tc_run st x with Some st' => tc_run st' y | None => None end.
Proof.
  revert st; induction x as [|c x IH]; intros st; cbn; [reflexivity|].
  destruct (tc_step st c); [apply IH|reflexivity].
Qed.

Lemma tc_step_plain c pd : plain c = true -> tc_step (LOut, pd) c = Some (LOut, false).
Proof.
  unfold plain. intros H. apply negb_true_iff in H.
  repeat rewrite orb_false_iff in H. destruct H as [[[[H1 H2] H3] H4] H5].
  unfold tc_step. rewrite H1, H2, H3, H4, H5. reflexivity.
Qed.

Lemma tc_run_plain p pd :
  p <> [] -> forallb plain p = true -> tc_run (LOut, pd) p = Some (LOut, false).
Proof.
  revert pd; induction p as [|c p IH]; intros pd Hn H; [congruence|].
  cbn [forallb] in H. apply andb_prop in H as [H1 H2].
  cbn [tc_run]. rewrite tc_step_plain by exact H1.
  destruct p as [|c' p']; [reflexivity|]. apply IH; [discriminate|exact H2].
Qed.

Lemma tc_step_ws c pd : is_ws c = true -> tc_step (LOut, pd) c = Some (LOut, pd).
Proof.
  intros H. unfold tc_step. destruct (Ascii.eqb c dquote) eqn:E.
  - apply Ascii.eqb_eq in E. subst. discriminate H.
  - rewrite H. reflexivity.
Qed.

Lemma tc_run_ws w pd : forallb is_ws w = true -> tc_run (LOut, pd) w = Some (LOut, pd).
Proof.
  induction w as [|c w IH]; intros H; [reflexivity|].
  cbn [forallb] in H. apply andb_prop in H as [H1 H2].
  cbn [tc_run]. rewrite tc_step_ws by exact H1. apply IH, H2.
Qed.

Lemma str_step c b r :
  Ascii.eqb c dquote = false -> Ascii.eqb c backslash = false ->
  tc_run (LStr, b) (c :: r) = tc_run (LStr, false) r.
Proof. intros H1 H2. cbn [tc_run tc_step]. rewrite H1, H2. reflexivity. Qed.

Lemma esc_step c b r : tc_run (LEsc, b) (c :: r) = tc_run (LStr, false) r.
Proof. reflexivity. Qed.

Lemma bs_step c b r :
  Ascii.eqb c dquote = false -> Ascii.eqb c backslash = true ->
  tc_run (LStr, b) (c :: r) = tc_run (LEsc, false) r.
Proof. intros H1 H2. cbn [tc_run tc_step]. rewrite H1, H2. reflexivity. Qed.

Lemma skip_ws_split s : exists w, s = w ++ skip_ws s /\ forallb is_ws w = true.
Proof.
  induction s as [|c s IH]; cbn; [exists []; auto|].
  destruct (is_ws c) eqn:E.
  - destruct IH as [w [H1 H2]]. exists (c :: w). cbn. rewrite E, <- H1. auto.
  - exists []. auto.
Qed.

Lemma skip_ws_app w s : forallb is_ws w = true -> skip_ws (w ++ s) = skip_ws s.
Proof.
  induction w as [|c w IH]; intros H; [reflexivity|].
  cbn [forallb] in H. apply andb_prop in H as [H1 H2].
  cbn. rewrite H1. apply IH, H2.
Qed.

Lemma skip_ws_head s c r : skip_ws s = c :: r -> is_ws c = false.
Proof.
  induction s as [|d s IH]; cbn; [discriminate|].
  destruct (is_ws d) eqn:E; [exact IH|]. intros [= <- _]. exact E.
Qed.

Lemma skip_ws_nil_ws s : skip_ws s = [] -> forallb is_ws s = true.
Proof.
  induction s as [|d s IH]; cbn; [reflexivity|].
  destruct (is_ws d); [exact IH|discriminate].
Qed.

Lemma hex_val_str h z :
  hex_val h = Some z -> Ascii.eqb h dquote = false /\ Ascii.eqb h backslash = false.
Proof.
  intros H. split; destruct (Ascii.eqb h _) eqn:E; auto;
    apply Ascii.eqb_eq in E; subst; discriminate H.
Qed.

Lemma hex4_str a b c d u :
  hex4 a b c d = Some u ->
  (Ascii.eqb a dquote = false /\ Ascii.eqb a backslash = false) /\
  (Ascii.eqb b dquote = false /\ Ascii.eqb b backslash = false) /\
  (Ascii.eqb c dquote = false /\ Ascii.eqb c backslash = false) /\
  (Ascii.eqb d dquote = false /\ Ascii.eqb d backslash = false).
Proof.
  unfold hex4.
  destruct (hex_val a) eqn:Ea; [|discriminate]; destruct (hex_val b) eqn:Eb; [|discriminate];
  destruct (hex_val c) eqn:Ec; [|discriminate]; destruct (hex_val d) eqn:Ed; [|discriminate].
  intros _. repeat split; eapply hex_val_str; eassumption.
Qed.

Lemma cons_opt_inv {A B} (y : A) (o : option (list A * B)) x r :
  cons_opt y o = Some (x, r) -> exists x', o = Some (x', r).
Proof. destruct o as [[l r']|]; cbn; [intros [= _ <-]; eauto|discriminate]. Qed.

(** [scanstring] consumes a prefix of its input that closes the string
    literal. *)
Lemma scanstring_lex n s x r :
  length s <= n -> scanstring s = Some (x, r) ->
  exists p, s = p ++ r /\ tc_run (LStr, false) p = Some (LOut, false).
Proof.
  revert s x r; induction n as [|n IH]; intros s x r Hl H;
    (destruct s as [|c s']; [discriminate|]); [cbn in Hl; lia|].
  cbn [length] in Hl. cbn [scanstring] in H.
  destruct (Ascii.eqb c dquote) eqn:Eq.
  { injection H as <- <-. exists [c]. split; [reflexivity|].
    cbn [tc_run tc_step]. rewrite Eq. reflexivity. }
  destruct (Ascii.eqb c backslash) eqn:Eb.
  - destruct s' as [|e r1]; [discriminate|].
    destruct (Ascii.eqb e "u"%char) eqn:Eu.
    + destruct r1 as [|h1 [|h2 [|h3 [|h4 r2]]]]; try discriminate.
      destruct (hex4 h1 h2 h3 h4) as [u|] eqn:Eh; [|discriminate].
      destruct (hex4_str _ _ _ _ _ Eh) as [[A1 A2] [[B1 B2] [[C1 C2] [D1 D2]]]].
      assert (Hr2 : forall x, cons_opt u (scanstring r2) = Some (x, r) ->
                exists p, c :: e :: h1 :: h2 :: h3 :: h4 :: r2 = p ++ r /\
                          tc_run (LStr, false) p = Some (LOut, false)).
      { intros x' Hc. apply cons_opt_inv in Hc as [x'' Hc].
        destruct (IH r2 x'' r) as [p [-> Hp]]; [cbn in Hl; lia|exact Hc|].
        exists (c :: e :: h1 :: h2 :: h3 :: h4 :: p). split; [reflexivity|].
        rewrite bs_step, esc_step, !str_step by assumption. exact Hp. }
      destruct (is_high_surrogate u); [|exact (Hr2 _ H)].
      destruct r2 as [|b [|u' [|g1 [|g2 [|g3 [|g4 r3]]]]]]; try exact (Hr2 _ H).
      destruct (Ascii.eqb b backslash && Ascii.eqb u' "u"%char) eqn:Ebu;
        [|exact (Hr2 _ H)].
      destruct (hex4 g1 g2 g3 g4) as [u2|] eqn:Eg; [|discriminate].
      destruct (is_low_surrogate u2); [|exact (Hr2 _ H)].
      apply andb_prop in Ebu as [Eb' _].
      destruct (hex4_str _ _ _ _ _ Eg) as [[G1 G2] [[G3 G4] [[G5 G6] [G7 G8]]]].
      apply cons_opt_inv in H as [x'' Hc].
      destruct (IH r3 x'' r) as [p [-> Hp]]; [cbn in Hl; lia|exact Hc|].
      exists (c :: e :: h1 :: h2 :: h3 :: h4 :: b :: u' :: g1 :: g2 :: g3 :: g4 :: p).
      split; [reflexivity|].
      assert (Bq : Ascii.eqb b dquote = false)
        by (apply Ascii.eqb_eq in Eb'; subst; reflexivity).
      rewrite bs_step, esc_step, !str_step by assumption.
      rewrite bs_step, esc_step, !str_step by assumption. exact Hp.
    + destruct (simple_escape e) as [z|]; [|discriminate].
      apply cons_opt_inv in H as [x'' Hc].
      destruct (IH r1 x'' r) as [p [-> Hp]]; [cbn in Hl; lia|exact Hc|].
      exists (c :: e :: p). split; [reflexivity|].
      rewrite bs_step, esc_step by assumption. exact Hp.
  - destruct (code c <=? 31); [discriminate|].
    apply cons_opt_inv in H as [x'' Hc].
    destruct (IH s' x'' r) as [p [-> Hp]]; [lia|exact Hc|].
    exists (c :: p). split; [reflexivity|].
    rewrite str_step by assumption. exact Hp.
Qed.


Lemma eqb_code c d : Ascii.eqb c d = (code c =? code d).
Proof.
  destruct (Ascii.eqb_spec c d) as [->|Hn]; [symmetry; apply Nat.eqb_refl|].
  symmetry. apply Nat.eqb_neq. intros H. apply Hn.
  rewrite <- (ascii_nat_embedding c), <- (ascii_nat_embedding d).
  unfold code in H. congruence.
Qed.

Lemma plain_code c :
  plain c = negb ((code c =? 34) || ((code c =? 32) || (code c =? 9) ||
                   (code c =? 10) || (code c =? 13)) ||
                  (code c =? 44) || (code c =? 125) || (code c =? 93)).
Proof. unfold plain, is_ws. rewrite !eqb_code. reflexivity. Qed.

Lemma digit_plain c : is_digit c = true -> plain c = true.
Proof.
  unfold is_digit. rewrite plain_code. intros H.
  apply andb_prop in H as [H1 H2]. apply Nat.leb_le in H1, H2.
  repeat match goal with |- context [code c =? ?k] =>
    destruct (Nat.eqb_spec (code c) k); [lia|] end.
  reflexivity.
Qed.

Lemma digits_spec s d r :
  digits s = (d, r) -> s = d ++ r /\ forallb is_digit d = true.
Proof.
  revert d r; induction s as [|c s IH]; intros d r H; cbn in H.
  - injection H as <- <-. auto.
  - destruct (is_digit c) eqn:E.
    + destruct (digits s) as [d' r'] eqn:Ed. injection H as <- <-.
      destruct (IH d' r' eq_refl) as [-> H2]. cbn. rewrite E, H2. auto.
    + injection H as <- <-. auto.
Qed.

Lemma forallb_digits_plain d : forallb is_digit d = true -> forallb plain d = true.
Proof.
  induction d as [|c d IH]; cbn; [reflexivity|].
  intros H. apply andb_prop in H as [H1 H2]. rewrite digit_plain, IH; auto.
Qed.

Lemma eqb_char_plain c d : Ascii.eqb c d = true -> plain d = true -> plain c = true.
Proof. intros E. apply Ascii.eqb_eq in E. subst. auto. Qed.

Lemma frac_part_spec s f r :
  frac_part s = (f, r) -> s = f ++ r /\ forallb plain f = true.
Proof.
  unfold frac_part. intros H.
  destruct s as [|c [|d s']]; try (injection H as <- <-; auto).
  destruct (Ascii.eqb c "."%char && is_digit d) eqn:E; [|injection H as <- <-; auto].
  apply andb_prop in E as [E1 E2].
  destruct (digits s') as [ds r'] eqn:Ed. injection H as <- <-.
  destruct (digits_spec _ _ _ Ed) as [-> H2]. split; [reflexivity|].
  cbn. rewrite (eqb_char_plain _ _ E1 eq_refl), digit_plain, forallb_digits_plain; auto.
Qed.

Lemma exp_part_spec s e r :
  exp_part s = (e, r) -> s = e ++ r /\ forallb plain e = true.
Proof.
  unfold exp_part. intros H.
  destruct s as [|c s']; [injection H as <- <-; auto|].
  destruct (Ascii.eqb c "e"%char || Ascii.eqb c "E"%char) eqn:E;
    [|injection H as <- <-; auto].
  assert (Pc : plain c = true).
  { apply orb_prop in E as [E|E]; eapply eqb_char_plain; eauto. }
  destruct (match s' with
            | c0 :: r' => if Ascii.eqb c0 "-"%char || Ascii.eqb c0 "+"%char
                          then ([c0], r') else ([], s')
            | [] => ([], s')
            end) as [sg r1] eqn:Es.
  assert (Hs : s' = sg ++ r1 /\ forallb plain sg = true).
  { destruct s' as [|c0 r']; [injection Es as <- <-; auto|].
    destruct (Ascii.eqb c0 "-"%char || Ascii.eqb c0 "+"%char) eqn:E0;
      injection Es as <- <-; [|auto].
    split; [reflexivity|]. cbn. rewrite andb_true_r.
    apply orb_prop in E0 as [E0|E0]; eapply eqb_char_plain; eauto. }
  destruct Hs as [-> Hs].
  destruct (digits r1) as [[|d ds] r2] eqn:Ed; injection H as <- <-; [auto|].
  destruct (digits_spec _ _ _ Ed) as [-> H2]. split.
  - cbn [app]. rewrite <- app_assoc. reflexivity.
  - cbn [forallb]. rewrite Pc, forallb_app, Hs, forallb_digits_plain; auto.
Qed.

(** [match_number] consumes a non-empty run of number characters. *)
Lemma match_number_spec s v r :
  match_number s = Some (v, r) ->
  exists p, s = p ++ r /\ p <> [] /\ forallb plain p = true.
Proof.
  unfold match_number. intros H.
  destruct (match s with
            | c :: r0 => if Ascii.eqb c "-"%char then ([c], r0) else ([], s)
            | [] => ([], s)
            end) as [sg s1] eqn:Es.
  assert (Hs : s = sg ++ s1 /\ forallb plain sg = true).
  { destruct s as [|c r0]; [injection Es as <- <-; auto|].
    destruct (Ascii.eqb c "-"%char) eqn:E0; injection Es as <- <-; [|auto].
    split; [reflexivity|]. cbn. rewrite andb_true_r. eapply eqb_char_plain; eauto. }
  destruct Hs as [-> Hs].
  destruct s1 as [|c r0]; [discriminate|].
  assert (Hip : forall ip s2,
            (if Ascii.eqb c "0"%char then Some ([c], r0)
             else if is_digit c then let '(ds, r') := digits r0 in Some (c :: ds, r')
             else None) = Some (ip, s2) ->
            c :: r0 = ip ++ s2 /\ ip <> [] /\ forallb plain ip = true).
  { intros ip s2 Hi. destruct (Ascii.eqb c "0"%char) eqn:E0.
    - injection Hi as <- <-. split; [reflexivity|]. split; [discriminate|].
      cbn. rewrite andb_true_r. eapply eqb_char_plain; eauto.
    - destruct (is_digit c) eqn:Ed; [|discriminate].
      destruct (digits r0) as [ds r'] eqn:Eds. injection Hi as <- <-.
      destruct (digits_spec _ _ _ Eds) as [-> H2].
      split; [reflexivity|]. split; [discriminate|].
      cbn. rewrite digit_plain, forallb_digits_plain; auto. }
  destruct (if Ascii.eqb c "0"%char then Some ([c], r0)
            else if is_digit c then let '(ds, r') := digits r0 in Some (c :: ds, r')
            else None) as [[ip s2]|] eqn:Ei; [|discriminate].
  destruct (Hip ip s2 eq_refl) as [E1 [E2 E3]]. rewrite E1.
  destruct (frac_part s2) as [fp s3] eqn:Ef.
  destruct (exp_part s3) as [ep s4] eqn:Ee. injection H as <- <-.
  destruct (frac_part_spec _ _ _ Ef) as [-> F2].
  destruct (exp_part_spec _ _ _ Ee) as [-> X2].
  exists (sg ++ ip ++ fp ++ ep). split; [list_eq|].
  split; [destruct sg, ip; cbn; congruence|].
  rewrite !forallb_app, Hs, E3, F2, X2. reflexivity.
Qed.


Lemma run_plain1 c pd r :
  plain c = true -> tc_run (LOut, pd) (c :: r) = tc_run (LOut, false) r.
Proof. intros H. cbn [tc_run]. rewrite tc_step_plain by exact H. reflexivity. Qed.

Lemma run_ws_app w pd r :
  forallb is_ws w = true -> tc_run (LOut, pd) (w ++ r) = tc_run (LOut, pd) r.
Proof. intros H. rewrite tc_run_app, tc_run_ws by exact H. reflexivity. Qed.

Lemma run_ok_app p pd r :
  (forall pd, tc_run (LOut, pd) p = Some (LOut, false)) ->
  tc_run (LOut, pd) (p ++ r) = tc_run (LOut, false) r.
Proof. intros H. rewrite tc_run_app, H. reflexivity. Qed.

Lemma run_comma pd r : tc_run (LOut, pd) (","%char :: r) = tc_run (LOut, true) r.
Proof. reflexivity. Qed.

Lemma run_close_obj r : tc_run (LOut, false) ("}"%char :: r) = tc_run (LOut, false) r.
Proof. reflexivity. Qed.

Lemma run_close_arr r : tc_run (LOut, false) ("]"%char :: r) = tc_run (LOut, false) r.
Proof. reflexivity. Qed.

Lemma run_str_open pd r :
  tc_run (LOut, pd) (dquote :: r) = tc_run (LStr, false) r.
Proof. reflexivity. Qed.

Lemma skipn_length_app (l r : text) : skipn (length l) (l ++ r) = r.
Proof. induction l; cbn; auto. Qed.

Lemma literal_split (w : string) s :
  startswith (T w) s = true -> s = T w ++ skipn (length (T w)) s.
Proof.
  intros H. apply TextFacts.startswith_spec in H as [r ->].
  rewrite skipn_length_app. reflexivity.
Qed.

Ltac run_tac :=
  repeat first
    [ rewrite run_plain1 by reflexivity
    | rewrite run_ws_app by eassumption
    | rewrite run_ok_app by eassumption
    | rewrite run_comma | rewrite run_close_obj | rewrite run_close_arr
    | rewrite run_str_open
    | rewrite <- app_assoc
    | rewrite <- app_comm_cons ];
  first [ reflexivity | solve [auto] | idtac ].

Ltac lit_tac w H :=
  injection H as <- <-;
  let E := fresh in
  match goal with E0 : startswith (T w) _ = true |- _ => pose proof (literal_split w _ E0) as E end;
  exists (T w); split; [exact E|]; split; [discriminate|];
  intros pd; apply tc_run_plain; [discriminate|reflexivity].

(** Every successful parse consumes a non-empty prefix that is
    lexically well formed: no closing bracket directly after a comma
    outside string literals, ending outside string literals. *)
Lemma parse_lex n :
  (forall s v r, scan_once n s = Some (v, r) ->
     exists p, s = p ++ r /\ p <> [] /\
               forall pd, tc_run (LOut, pd) p = Some (LOut, false)) /\
  (forall s acc v r, parse_items n s acc = Some (v, r) ->
     exists p, s = p ++ r /\ p <> [] /\
               forall pd, tc_run (LOut, pd) p = Some (LOut, false)) /\
  (forall s acc v r, parse_members n s acc = Some (v, r) ->
     exists p, s = p ++ r /\ p <> [] /\
               forall pd, tc_run (LOut, pd) p = Some (LOut, false)).
Proof.
  induction n as [|n [IHs [IHi IHm]]];
    [split; [|split]; intros; discriminate|].
  split; [|split].
  - intros s v r H. destruct s as [|c s']; [discriminate|].
    cbn [scan_once] in H.
    destruct (Ascii.eqb c dquote) eqn:Eq.
    { apply Ascii.eqb_eq in Eq; subst c.
      destruct (scanstring s') as [[x r']|] eqn:Es; [|discriminate].
      injection H as <- <-.
      destruct (scanstring_lex (length s') s' x r' (le_n _) Es) as [p [-> Hp]].
      exists (dquote :: p). split; [reflexivity|]. split; [discriminate|].
      intros pd. rewrite run_str_open. exact Hp. }
    destruct (Ascii.eqb c "{"%char) eqn:Eo.
    { apply Ascii.eqb_eq in Eo; subst c.
      destruct (skip_ws_split s') as [w [Ew Hw]].
      destruct (skip_ws s') as [|c' r'] eqn:Esk; [discriminate|].
      destruct (Ascii.eqb c' "}"%char) eqn:Ec.
      - apply Ascii.eqb_eq in Ec; subst c'. injection H as <- <-.
        exists ("{"%char :: w ++ ["}"%char]). rewrite Ew.
        split; [list_eq|]. split; [discriminate|].
        intros pd. run_tac.
      - destruct (IHm _ _ _ _ H) as [p [Ep [Hn Hp]]].
        exists ("{"%char :: w ++ p). rewrite Ew, Ep.
        split; [list_eq|]. split; [discriminate|].
        intros pd. run_tac. }
    destruct (Ascii.eqb c "["%char) eqn:Ea.
    { apply Ascii.eqb_eq in Ea; subst c.
      destruct (skip_ws_split s') as [w [Ew Hw]].
      destruct (skip_ws s') as [|c' r'] eqn:Esk; [discriminate|].
      destruct (Ascii.eqb c' "]"%char) eqn:Ec.
      - apply Ascii.eqb_eq in Ec; subst c'. injection H as <- <-.
        exists ("["%char :: w ++ ["]"%char]). rewrite Ew.
        split; [list_eq|]. split; [discriminate|].
        intros pd. run_tac.
      - destruct (IHi _ _ _ _ H) as [p [Ep [Hn Hp]]].
        exists ("["%char :: w ++ p). rewrite Ew, Ep.
        split; [list_eq|]. split; [discriminate|].
        intros pd. run_tac. }
    destruct (startswith (T "null") (c :: s')) eqn:L1; [lit_tac "null"%string H|].
    destruct (startswith (T "true") (c :: s')) eqn:L2; [lit_tac "true"%string H|].
    destruct (startswith (T "false") (c :: s')) eqn:L3; [lit_tac "false"%string H|].
    destruct (startswith (T "NaN") (c :: s')) eqn:L4; [lit_tac "NaN"%string H|].
    destruct (startswith (T "Infinity") (c :: s')) eqn:L5; [lit_tac "Infinity"%string H|].
    destruct (startswith (T "-Infinity") (c :: s')) eqn:L6; [lit_tac "-Infinity"%string H|].
    destruct (match_number_spec _ _ _ H) as [p [Ep [Hn Hp]]].
    exists p. split; [exact Ep|]. split; [exact Hn|].
    intros pd. apply tc_run_plain; assumption.
  - intros s acc v r H. cbn [parse_items] in H.
    destruct (scan_once n s) as [[v1 r1]|] eqn:E1; [|discriminate].
    destruct (IHs _ _ _ E1) as [p1 [-> [Hn1 Hp1]]].
    destruct (skip_ws_split r1) as [w [Ew Hw]].
    destruct (skip_ws r1) as [|c r'] eqn:Esk; [discriminate|].
    destruct (Ascii.eqb c "]"%char) eqn:Ec.
    + apply Ascii.eqb_eq in Ec; subst c. injection H as <- <-.
      exists (p1 ++ w ++ ["]"%char]). rewrite Ew.
      split; [list_eq|].
      split; [destruct p1; [congruence|discriminate]|].
      intros pd. run_tac.
    + destruct (Ascii.eqb c ","%char) eqn:Ecm; [|discriminate].
      apply Ascii.eqb_eq in Ecm; subst c.
      destruct (IHi _ _ _ _ H) as [p3 [E3 [Hn3 Hp3]]].
      destruct (skip_ws_split r') as [w2 [Ew2 Hw2]].
      exists (p1 ++ w ++ ","%char :: w2 ++ p3). rewrite Ew, Ew2, E3.
      split; [list_eq|].
      split; [destruct p1; [congruence|discriminate]|].
      intros pd. run_tac.
  - intros s acc v r H. cbn [parse_members] in H.
    destruct s as [|q s']; [discriminate|].
    destruct (Ascii.eqb q dquote) eqn:Eq; [|discriminate].
    apply Ascii.eqb_eq in Eq; subst q.
    destruct (scanstring s') as [[k r1]|] eqn:Es; [|discriminate].
    destruct (scanstring_lex (length s') s' k r1 (le_n _) Es) as [p1 [-> Hp1]].
    destruct (skip_ws_split r1) as [w1 [Ew1 Hw1]].
    destruct (skip_ws r1) as [|c r2] eqn:Esk1; [discriminate|].
    destruct (Ascii.eqb c ":"%char) eqn:Ec; [|discriminate].
    apply Ascii.eqb_eq in Ec; subst c.
    destruct (skip_ws_split r2) as [w2 [Ew2 Hw2]].
    destruct (scan_once n (skip_ws r2)) as [[v3 r3]|] eqn:E3; [|discriminate].
    destruct (IHs _ _ _ E3) as [p3 [Ep3 [Hn3 Hp3]]].
    destruct (skip_ws_split r3) as [w3 [Ew3 Hw3]].
    destruct (skip_ws r3) as [|d r4] eqn:Esk3; [discriminate|].
    destruct (Ascii.eqb d "}"%char) eqn:Ed.
    + apply Ascii.eqb_eq in Ed; subst d. injection H as <- <-.
      exists (dquote :: p1 ++ w1 ++ ":"%char :: w2 ++ p3 ++ w3 ++ ["}"%char]).
      rewrite Ew1, Ew2, Ep3, Ew3.
      split; [list_eq|]. split; [discriminate|].
      intros pd. rewrite run_str_open, tc_run_app, Hp1. run_tac.
    + destruct (Ascii.eqb d ","%char) eqn:Edc; [|discriminate].
      apply Ascii.eqb_eq in Edc; subst d.
      destruct (IHm _ _ _ _ H) as [p5 [E5 [Hn5 Hp5]]].
      destruct (skip_ws_split r4) as [w4 [Ew4 Hw4]].
      exists (dquote :: p1 ++ w1 ++ ":"%char :: w2 ++ p3 ++ w3 ++ ","%char :: w4 ++ p5).
      rewrite Ew1, Ew2, Ep3, Ew3, Ew4, E5.
      split; [list_eq|]. split; [discriminate|].
      intros pd. rewrite run_str_open, tc_run_app, Hp1. run_tac.
Qed.


Lemma match_number_num s v r : match_number s = Some (v, r) -> exists l, v = JNum l.
Proof.
  unfold match_number.
  destruct (match s with
            | c :: r0 => if Ascii.eqb c "-"%char then ([c], r0) else ([], s)
            | [] => ([], s) end) as [sg s1].
  destruct (match s1 with
            | c :: r0 =>
                if Ascii.eqb c "0"%char then Some ([c], r0)
                else if is_digit c then let '(ds, r') := digits r0 in Some (c :: ds, r')
                else None
            | [] => None end) as [[ip s2]|]; [|discriminate].
  destruct (frac_part s2) as [fp s3]. destruct (exp_part s3) as [ep s4].
  intros [= <- _]. eauto.
Qed.

(** A parsed object is the text between a ["{"] and its matching ["}"], a
    parsed array the text between a ["["] and its matching ["]"]. *)
Lemma parse_shape n :
  (forall s v r, scan_once n s = Some (v, r) ->
     (forall d, v = JObj d -> exists m, s = "{"%char :: m ++ "}"%char :: r) /\
     (forall l, v = JArr l -> exists m, s = "["%char :: m ++ "]"%char :: r)) /\
  (forall s acc v r, parse_items n s acc = Some (v, r) ->
     (exists l, v = JArr l) /\ exists m, s = m ++ "]"%char :: r) /\
  (forall s acc v r, parse_members n s acc = Some (v, r) ->
     (exists d, v = JObj d) /\ exists m, s = m ++ "}"%char :: r).
Proof.
  induction n as [|n [IHs [IHi IHm]]];
    [split; [|split]; intros; discriminate|].
  split; [|split].
  - intros s v r H. destruct s as [|c s']; [discriminate|].
    cbn [scan_once] in H.
    destruct (Ascii.eqb c dquote) eqn:Eq.
    { destruct (scanstring s') as [[x r']|]; [|discriminate].
      injection H as <- <-. split; intros; discriminate. }
    destruct (Ascii.eqb c "{"%char) eqn:Eo.
    { apply Ascii.eqb_eq in Eo; subst c.
      destruct (skip_ws_split s') as [w [Ew Hw]].
      destruct (skip_ws s') as [|c' r'] eqn:Esk; [discriminate|].
      destruct (Ascii.eqb c' "}"%char) eqn:Ec.
      - apply Ascii.eqb_eq in Ec; subst c'. injection H as <- <-.
        split; intros; [|discriminate]. exists w. rewrite Ew. reflexivity.
      - destruct (IHm _ _ _ _ H) as [[d' ->] [m Em]].
        split; intros; [|discriminate]. exists (w ++ m). rewrite Ew, Em. list_eq. }
    destruct (Ascii.eqb c "["%char) eqn:Ea.
    { apply Ascii.eqb_eq in Ea; subst c.
      destruct (skip_ws_split s') as [w [Ew Hw]].
      destruct (skip_ws s') as [|c' r'] eqn:Esk; [discriminate|].
      destruct (Ascii.eqb c' "]"%char) eqn:Ec.
      - apply Ascii.eqb_eq in Ec; subst c'. injection H as <- <-.
        split; intros; [discriminate|]. exists w. rewrite Ew. reflexivity.
      - destruct (IHi _ _ _ _ H) as [[l' ->] [m Em]].
        split; intros; [discriminate|]. exists (w ++ m). rewrite Ew, Em. list_eq. }
    destruct (startswith (T "null") (c :: s'));
      [injection H as <- <-; split; intros; discriminate|].
    destruct (startswith (T "true") (c :: s'));
      [injection H as <- <-; split; intros; discriminate|].
    destruct (startswith (T "false") (c :: s'));
      [injection H as <- <-; split; intros; discriminate|].
    destruct (startswith (T "NaN") (c :: s'));
      [injection H as <- <-; split; intros; discriminate|].
    destruct (startswith (T "Infinity") (c :: s'));
      [injection H as <- <-; split; intros; discriminate|].
    destruct (startswith (T "-Infinity") (c :: s'));
      [injection H as <- <-; split; intros; discriminate|].
    destruct (match_number_num _ _ _ H) as [l ->]. split; intros; discriminate.
  - intros s acc v r H. cbn [parse_items] in H.
    destruct (scan_once n s) as [[v1 r1]|] eqn:E1; [|discriminate].
    destruct (proj1 (parse_lex n) _ _ _ E1) as [p1 [-> _]].
    destruct (skip_ws_split r1) as [w [Ew Hw]].
    destruct (skip_ws r1) as [|c r'] eqn:Esk; [discriminate|].
    destruct (Ascii.eqb c "]"%char) eqn:Ec.
    + apply Ascii.eqb_eq in Ec; subst c. injection H as <- <-.
      split; [eauto|]. exists (p1 ++ w). rewrite Ew. list_eq.
    + destruct (Ascii.eqb c ","%char) eqn:Ecm; [|discriminate].
      apply Ascii.eqb_eq in Ecm; subst c.
      destruct (IHi _ _ _ _ H) as [Hv [m Em]]. split; [exact Hv|].
      destruct (skip_ws_split r') as [w2 [Ew2 Hw2]].
      exists (p1 ++ w ++ ","%char :: w2 ++ m). rewrite Ew, Ew2, Em. list_eq.
  - intros s acc v r H. cbn [parse_members] in H.
    destruct s as [|q s']; [discriminate|].
    destruct (Ascii.eqb q dquote) eqn:Eq; [|discriminate].
    destruct (scanstring s') as [[k r1]|] eqn:Es; [|discriminate].
    destruct (scanstring_lex (length s') s' k r1 (le_n _) Es) as [p1 [-> _]].
    destruct (skip_ws_split r1) as [w1 [Ew1 Hw1]].
    destruct (skip_ws r1) as [|c r2] eqn:Esk1; [discriminate|].
    destruct (Ascii.eqb c ":"%char) eqn:Ec; [|discriminate].
    apply Ascii.eqb_eq in Ec; subst c.
    destruct (skip_ws_split r2) as [w2 [Ew2 Hw2]].
    destruct (scan_once n (skip_ws r2)) as [[v3 r3]|] eqn:E3; [|discriminate].
    destruct (proj1 (parse_lex n) _ _ _ E3) as [p3 [Ep3 _]].
    destruct (skip_ws_split r3) as [w3 [Ew3 Hw3]].
    destruct (skip_ws r3) as [|d r4] eqn:Esk3; [discriminate|].
    destruct (Ascii.eqb d "}"%char) eqn:Ed.
    + apply Ascii.eqb_eq in Ed; subst d. injection H as <- <-.
      split; [eauto|].
      exists (q :: p1 ++ w1 ++ ":"%char :: w2 ++ p3 ++ w3).
      rewrite Ew1, Ew2, Ep3, Ew3. list_eq.
    + destruct (Ascii.eqb d ","%char) eqn:Edc; [|discriminate].
      apply Ascii.eqb_eq in Edc; subst d.
      destruct (IHm _ _ _ _ H) as [Hv [m Em]]. split; [exact Hv|].
      destruct (skip_ws_split r4) as [w4 [Ew4 Hw4]].
      exists (q :: p1 ++ w1 ++ ":"%char :: w2 ++ p3 ++ w3 ++ ","%char :: w4 ++ m).
      rewrite Ew1, Ew2, Ep3, Ew3, Ew4, Em. list_eq.
Qed.


End JsonFacts.

Module PairFacts.
Import Text Json Extract.

Lemma upto_last_none cl s : existsb (Ascii.eqb cl) s = false -> upto_last cl s = None.
Proof.
  induction s as [|x s IH]; cbn; [reflexivity|].
  intros H. apply orb_false_iff in H as [H1 H2].
  rewrite IH by exact H2. rewrite Ascii.eqb_sym, H1. reflexivity.
Qed.

Lemma has_pair_regex_none op cl s :
  has_pair op cl s = false -> regex_span op cl s = None.
Proof.
  induction s as [|x s IH]; cbn; [reflexivity|].
  intros H. apply orb_false_iff in H as [H1 H2].
  destruct (Ascii.eqb x op); [|exact (IH H2)].
  cbn in H1. rewrite upto_last_none by exact H1. reflexivity.
Qed.

Lemma has_pair_app op cl a b : has_pair op cl b = true -> has_pair op cl (a ++ b) = true.
Proof.
  induction a as [|x a IH]; cbn; [auto|]. intros H. rewrite IH by exact H.
  apply orb_true_r.
Qed.

Lemma has_pair_around op cl m r : has_pair op cl (op :: m ++ cl :: r) = true.
Proof.
  cbn. rewrite Ascii.eqb_refl. cbn.
  assert (existsb (Ascii.eqb cl) (m ++ cl :: r) = true) as ->.
  { apply existsb_exists. exists cl. split; [apply in_or_app; right; left; reflexivity|].
    apply Ascii.eqb_refl. }
  reflexivity.
Qed.

Lemma endswith_one c t : endswith [c] t = true -> exists x, t = x ++ [c].
Proof.
  unfold endswith. cbn [rev app]. intros H.
  apply TextFacts.startswith_spec in H as [y Hy].
  exists (rev y). rewrite <- (rev_involutive t), Hy. reflexivity.
Qed.

(** A text that starts with [op] and ends with a different [cl] has a pair. *)
Lemma bracketed_has_pair op cl t :
  Ascii.eqb op cl = false ->
  startswith [op] t && endswith [cl] t = true -> has_pair op cl t = true.
Proof.
  intros Hd H. apply andb_prop in H as [H1 H2].
  apply endswith_one in H2 as [x ->].
  destruct x as [|y x].
  - cbn in H1. rewrite Hd in H1. discriminate.
  - cbn in H1. rewrite andb_true_r in H1. apply Ascii.eqb_eq in H1. subst y.
    apply has_pair_around.
Qed.

(** A text [json.loads] parses to an object has a ["{"] before a ["}"];
    one it parses to an array has a ["["] before a ["]"]. *)
Lemma loads_container_pair u v :
  loads u = Some v ->
  ((exists d, v = JObj d) -> has_pair "{"%char "}"%char u = true) /\
  ((exists l, v = JArr l) -> has_pair "["%char "]"%char u = true).
Proof.
  unfold loads. intros H.
  destruct (scan_once (2 * length u + 2) (skip_ws u)) as [[v' r]|] eqn:E; [|discriminate].
  destruct (skip_ws r); [|discriminate]. injection H as <-.
  destruct (proj1 (JsonFacts.parse_shape _) _ _ _ E) as [Ho Ha].
  destruct (JsonFacts.skip_ws_split u) as [w [Ew _]].
  split; intros [x ->].
  - destruct (Ho x eq_refl) as [m Em]. rewrite Ew, Em.
    apply has_pair_app, has_pair_around.
  - destruct (Ha x eq_refl) as [m Em]. rewrite Ew, Em.
    apply has_pair_app, has_pair_around.
Qed.

End PairFacts.

Module NoPairFacts.
Import Text Json Extract.

(** C9 (counterexample): ["42"] has no fence, no backticks and no bracket
    pair; extraction returns it unchanged, yet [json.loads] accepts it. *)
Lemma no_pair_scalar_parses :
  startswith (T "```") (strip (T "42")) = false /\
  startswith (T "`") (strip (T "42")) && endswith (T "`") (strip (T "42")) = false /\
  has_pair "{"%char "}"%char (strip (T "42")) = false /\
  has_pair "["%char "]"%char (strip (T "42")) = false /\
  extract_json (T "42") = T "42" /\ loads (T "42") = Some (JNum (T "42")).
Proof. vm_compute. repeat split. Qed.

(** C9 (amended): for a text [t] whose trimmed form [strip t] starts with no
    fence, is not wrapped in backticks and has no ["{"] before a ["}"] and no
    ["["] before a ["]"], [extract_json] returns [strip t] and
    [_clean_json_from_text] returns [None]; [json.loads] of [strip t] fails
    or yields a scalar, never an object or an array. *)
Theorem no_pair_returns_trimmed (t : text) :
  startswith (T "```") (strip t) = false ->
  startswith (T "`") (strip t) && endswith (T "`") (strip t) = false ->
  has_pair "{"%char "}"%char (strip t) = false ->
  has_pair "["%char "]"%char (strip t) = false ->
  extract_json t = strip t /\ _clean_json_from_text t = None /\
  forall v, loads (strip t) = Some v ->
    (forall d, v <> JObj d) /\ (forall l, v <> JArr l).
Proof.
  intros Hf Hb Ho Ha. split; [|split].
  - unfold extract_json. rewrite Hf, Hb.
    rewrite !PairFacts.has_pair_regex_none by assumption. reflexivity.
  - unfold _clean_json_from_text.
    assert (Po : startswith (T "{") (strip t) && endswith (T "}") (strip t) = false).
    { destruct (startswith (T "{") (strip t) && endswith (T "}") (strip t)) eqn:E;
        [|reflexivity].
      rewrite (PairFacts.bracketed_has_pair "{"%char "}"%char _ eq_refl E) in Ho. discriminate. }
    assert (Pa : startswith (T "[") (strip t) && endswith (T "]") (strip t) = false).
    { destruct (startswith (T "[") (strip t) && endswith (T "]") (strip t)) eqn:E;
        [|reflexivity].
      rewrite (PairFacts.bracketed_has_pair "["%char "]"%char _ eq_refl E) in Ha. discriminate. }
    rewrite Po, Pa. cbn [orb].
    rewrite !PairFacts.has_pair_regex_none by assumption. reflexivity.
  - intros v Hv. destruct (PairFacts.loads_container_pair _ _ Hv) as [Co Ca].
    split; intros x ->; [rewrite Co in Ho by eauto|rewrite Ca in Ha by eauto];
      discriminate.
Qed.

Lemma no_pair_returns_trimmed_witness :
  extract_json (T " plain words ") = T "plain words" /\
  _clean_json_from_text (T " plain words ") = None.
Proof.
  destruct (no_pair_returns_trimmed (T " plain words ")) as [H1 [H2 _]];
    [vm_compute; reflexivity ..|].
  split; [rewrite H1; vm_compute; reflexivity|exact H2].
Defined.

End NoPairFacts.
Module RepairFacts.
Import Text Json Lexer Analyze.

Lemma tc_lex st pd a st' pd' :
  tc_run (st, pd) a = Some (st', pd') -> st' = fold_left lex_step a st.
Proof.
  revert st pd; induction a as [|c a IH]; intros st pd H; cbn [tc_run fold_left] in H |- *.
  - congruence.
  - destruct (tc_step (st, pd) c) as [[s2 p2]|] eqn:E; [|discriminate].
    apply IH in H. rewrite H. f_equal.
    unfold tc_step, lex_step in *.
    destruct st; repeat match goal with
                        | E : context [if ?b then _ else _] |- _ => destruct b
                        end; congruence.
Qed.

Lemma closes_space cl c r : py_isspace c = true -> closes cl (c :: r) = closes cl r.
Proof. intros H. unfold closes. cbn. rewrite H. reflexivity. Qed.

Lemma closes_nonspace cl c r : py_isspace c = false -> closes cl (c :: r) = Ascii.eqb c cl.
Proof. intros H. unfold closes. cbn. rewrite H. reflexivity. Qed.

(** With no match of the pattern, the substitution copies its input. *)
Lemma sub_go_nomatch cl s :
  comma_close cl s = false ->
  sub_go cl None s = s /\
  forall bb, closes cl s = false -> sub_go cl (Some bb) s = rev bb ++ s.
Proof.
  induction s as [|c r IH]; intros H.
  - split; [reflexivity|]. intros bb _. cbn. rewrite app_nil_r. reflexivity.
  - cbn [comma_close] in H. apply orb_false_iff in H as [H1 H2].
    destruct (IH H2) as [N S].
    assert (Hn : (if Ascii.eqb c ","%char then sub_go cl (Some [c]) r
                  else c :: sub_go cl None r) = c :: r).
    { destruct (Ascii.eqb c ","%char) eqn:Ec.
      - cbn in H1. rewrite S by exact H1. reflexivity.
      - rewrite N. reflexivity. }
    split; [exact Hn|]. intros bb Hc. cbn [sub_go].
    destruct (py_isspace c) eqn:Es.
    + rewrite closes_space in Hc by exact Es. rewrite S by exact Hc.
      cbn. rewrite <- app_assoc. reflexivity.
    + rewrite closes_nonspace in Hc by exact Es. rewrite Hc.
      f_equal. exact Hn.
Qed.

(** One comma directly before [cl], where the text without it has no match:
    the substitution removes exactly that comma. *)
Lemma sub_go_trailing cl a b :
  py_isspace cl = false -> Ascii.eqb cl ","%char = false ->
  comma_close cl (a ++ cl :: b) = false ->
  sub_go cl None (a ++ ","%char :: cl :: b) = a ++ cl :: b /\
  forall bb, closes cl (a ++ cl :: b) = false ->
    sub_go cl (Some bb) (a ++ ","%char :: cl :: b) = rev bb ++ a ++ cl :: b.
Proof.
  intros Hs Hc. induction a as [|c a' IH]; intros H.
  - cbn [app] in *. split.
    + cbn [sub_go]. cbn [Ascii.eqb Bool.eqb]. rewrite Hs, Ascii.eqb_refl.
      f_equal. apply sub_go_nomatch.
      cbn [comma_close] in H. apply orb_false_iff in H as [_ H]. exact H.
    + intros bb Hcl. rewrite closes_nonspace, Ascii.eqb_refl in Hcl by exact Hs.
      discriminate.
  - cbn [app comma_close] in H. apply orb_false_iff in H as [H1 H2].
    destruct (IH H2) as [N S].
    assert (Hn : (if Ascii.eqb c ","%char
                  then sub_go cl (Some [c]) (a' ++ ","%char :: cl :: b)
                  else c :: sub_go cl None (a' ++ ","%char :: cl :: b))
                 = c :: a' ++ cl :: b).
    { destruct (Ascii.eqb c ","%char) eqn:Ec.
      - cbn in H1. rewrite S by exact H1. reflexivity.
      - rewrite N. reflexivity. }
    split; [exact Hn|]. intros bb Hcl. cbn [app sub_go]. cbn [app] in Hcl.
    destruct (py_isspace c) eqn:Es.
    + rewrite closes_space in Hcl by exact Es. rewrite S by exact Hcl.
      cbn. rewrite <- app_assoc. reflexivity.
    + rewrite closes_nonspace in Hcl by exact Es. rewrite Hcl.
      f_equal. exact Hn.
Qed.

Lemma lstrip_nil s : lstrip s = [] -> forallb py_isspace s = true.
Proof.
  induction s as [|c s IH]; cbn; [reflexivity|].
  destruct (py_isspace c); [exact IH|discriminate].
Qed.

Lemma closes_app cl x y :
  closes cl (x ++ y) = if forallb py_isspace x then closes cl y else closes cl x.
Proof.
  unfold closes. rewrite TextFacts.lstrip_app.
  destruct (forallb py_isspace x) eqn:E; [reflexivity|].
  destruct (lstrip x) as [|d l] eqn:El; [|reflexivity].
  apply lstrip_nil in El. congruence.
Qed.

(** Inserting a comma before a character [d] that is neither blank nor
    [cl] creates no match of the pattern for [cl]. *)
Lemma comma_close_insert cl d a b :
  py_isspace d = false -> Ascii.eqb d cl = false -> Ascii.eqb ","%char cl = false ->
  comma_close cl (a ++ ","%char :: d :: b) = comma_close cl (a ++ d :: b).
Proof.
  intros Hs Hd Hc. induction a as [|c a' IH].
  - cbn [app].
    change (comma_close cl (","%char :: d :: b)) with
      ((Ascii.eqb ","%char ","%char && closes cl (d :: b)) || comma_close cl (d :: b)).
    rewrite closes_nonspace, Hd by exact Hs. rewrite andb_false_r. reflexivity.
  - cbn [app comma_close]. rewrite IH, !closes_app.
    destruct (forallb py_isspace a'); [|reflexivity].
    rewrite (closes_nonspace cl ","%char) by reflexivity.
    rewrite (closes_nonspace cl d) by exact Hs. rewrite Hc, Hd. reflexivity.
Qed.

(** [repair] removes a single trailing comma before [cl] from a text whose
    comma-free form has no match of either pattern. *)
Lemma repair_trailing a b cl :
  cl = "}"%char \/ cl = "]"%char ->
  comma_close "}"%char (a ++ cl :: b) = false ->
  comma_close "]"%char (a ++ cl :: b) = false ->
  repair (a ++ ","%char :: cl :: b) = a ++ cl :: b.
Proof.
  intros [-> | ->] H1 H2; unfold repair, sub_comma.
  - rewrite (proj1 (sub_go_trailing "}"%char a b eq_refl eq_refl H1)).
    apply sub_go_nomatch, H2.
  - assert (H3 : comma_close "}"%char (a ++ ","%char :: "]"%char :: b) = false)
      by (rewrite comma_close_insert by reflexivity; exact H1).
    rewrite (proj1 (sub_go_nomatch "}"%char _ H3)).
    apply sub_go_trailing; [reflexivity|reflexivity|exact H2].
Qed.

(** A comma outside string literals directly before a closing bracket makes
    [json.loads] fail. *)
Lemma loads_trailing_comma a b cl :
  cl = "}"%char \/ cl = "]"%char -> lex a = LOut ->
  loads (a ++ ","%char :: cl :: b) = None.
Proof.
  intros Hcl Hl.
  assert (Hrun : forall l, tc_run (LOut, false) (a ++ [","%char; cl] ++ l) = None).
  { intros l. rewrite JsonFacts.tc_run_app.
    destruct (tc_run (LOut, false) a) as [[st pd]|] eqn:E; [|reflexivity].
    apply tc_lex in E. unfold lex in Hl. rewrite <- E in Hl. subst st.
    destruct Hcl as [-> | ->]; reflexivity. }
  destruct (loads (a ++ ","%char :: cl :: b)) as [v|] eqn:E; [exfalso|reflexivity].
  unfold loads in E.
  set (t := a ++ ","%char :: cl :: b) in E.
  destruct (scan_once (2 * length t + 2) (skip_ws t)) as [[v' r]|] eqn:Es;
    [|discriminate].
  destruct (skip_ws r) eqn:Er; [|discriminate].
  apply JsonFacts.skip_ws_nil_ws in Er.
  destruct (proj1 (JsonFacts.parse_lex _) _ _ _ Es) as [p [Ep [_ Hp]]].
  destruct (JsonFacts.skip_ws_split t) as [w [Ew Hw]].
  rewrite Ep in Ew.
  assert (Hx : tc_run (LOut, false) (w ++ p) = Some (LOut, false)).
  { rewrite JsonFacts.run_ws_app by exact Hw. apply Hp. }
  assert (Et : (a ++ [","%char; cl]) ++ b = (w ++ p) ++ r).
  { rewrite <- !app_assoc. exact Ew. }
  apply app_eq_app in Et as [l [[E1 E2] | [E1 E2]]].
  - destruct l as [|y l'].
    + rewrite app_nil_r in E1. rewrite <- E1 in Hx.
      pose proof (Hrun []) as H0. rewrite app_nil_r in H0. congruence.
    + assert (Hin : In cl (y :: l')).
      { assert (Hr : In cl (rev (w ++ p) ++ rev (y :: l')) ->
                     In cl (y :: l') \/ In cl (w ++ p)).
        { intros Hi. apply in_app_or in Hi as [Hi|Hi]; apply in_rev in Hi; auto. }
        destruct (rev (y :: l')) as [|z l''] eqn:Er'.
        - apply (f_equal (@length ascii)) in Er'. rewrite length_rev in Er'.
          discriminate.
        - assert (Hz : rev (a ++ [","%char; cl]) = rev ((w ++ p) ++ y :: l'))
            by (rewrite E1; reflexivity).
          rewrite !rev_app_distr, Er' in Hz. cbn in Hz. injection Hz as <- _.
          rewrite <- (rev_involutive (y :: l')), Er'. apply in_rev.
          rewrite rev_involutive. left. reflexivity. }
      rewrite E2 in Er. rewrite forallb_app in Er. apply andb_prop in Er as [Er _].
      rewrite forallb_forall in Er. specialize (Er cl Hin).
      destruct Hcl as [-> | ->]; discriminate Er.
  - rewrite E1, <- app_assoc, Hrun in Hx. discriminate.
Qed.

End RepairFacts.

Module TrailingCommaFacts.
Import Text Json Lexer Analyze.

(** C5 (counterexample): in [{'a':',}',}] (['] standing for the double
    quote) the only trailing comma is the last one, and the text without it
    parses to [{'a': ',}'}]; the repair pass also rewrites the [,}] inside
    the string literal, so the repaired text parses to [{'a': '}'}]. *)
Lemma trailing_comma_in_string_altered :
  let a := Samples.dq "{'a':',}'" in
  let t := a ++ [","%char; "}"%char] in
  let c := a ++ ["}"%char] in
  lex a = LOut /\ loads t = None /\
  loads c = Some (JObj [(K "a", JStr (K ",}"))]) /\
  repair t = Samples.dq "{'a':'}'}" /\
  loads (repair t) = Some (JObj [(K "a", JStr (K "}"))]).
Proof. vm_compute. repeat split. Qed.

(** C5 (amended): let [a ++ cl :: b] be a text [json.loads] parses to [v],
    with [cl] a closing brace or bracket outside string literals, and in
    which neither repair pattern (a comma, blanks, then a closing brace or
    bracket) matches.  Inserting one comma directly before that [cl] makes
    strict parsing fail; the repair pass removes exactly that comma, and the
    repaired text parses to [v]. *)
Theorem trailing_comma_repaired (a b : text) (cl : ascii) (v : json) :
  cl = "}"%char \/ cl = "]"%char ->
  lex a = LOut ->
  comma_close "}"%char (a ++ cl :: b) = false ->
  comma_close "]"%char (a ++ cl :: b) = false ->
  loads (a ++ cl :: b) = Some v ->
  loads (a ++ ","%char :: cl :: b) = None /\
  repair (a ++ ","%char :: cl :: b) = a ++ cl :: b /\
  loads (repair (a ++ ","%char :: cl :: b)) = Some v.
Proof.
  intros Hcl Hl H1 H2 Hv.
  assert (Hr : repair (a ++ ","%char :: cl :: b) = a ++ cl :: b)
    by (apply RepairFacts.repair_trailing; assumption).
  split; [apply RepairFacts.loads_trailing_comma; assumption|].
  split; [exact Hr|]. rewrite Hr. exact Hv.
Qed.

Lemma trailing_comma_repaired_witness :
  loads (T "[1, 2,]") = None /\ repair (T "[1, 2,]") = T "[1, 2]" /\
  loads (repair (T "[1, 2,]")) = Some (JArr [JNum (T "1"); JNum (T "2")]).
Proof.
  apply (trailing_comma_repaired (T "[1, 2") [] "]"%char).
  - right. reflexivity.
  - vm_compute. reflexivity.
  - vm_compute. reflexivity.
  - vm_compute. reflexivity.
  - vm_compute. reflexivity.
Defined.

End TrailingCommaFacts.

Module StringRemoval.
Import Text Json.

Lemma scanstring_suffix s x r :
  scanstring s = Some (x, r) -> exists p, s = p ++ r /\ p <> [].
Proof.
  intros H. destruct (JsonFacts.scanstring_lex (length s) s x r (le_n _) H) as [p [Ep Hp]].
  exists p. split; [exact Ep|]. intros ->. discriminate Hp.
Qed.

Lemma scanstring_shorter s x r : scanstring s = Some (x, r) -> length r < length s.
Proof.
  intros H. destruct (scanstring_suffix _ _ _ H) as [p [-> Hp]].
  rewrite length_app. destruct p; [congruence|cbn; lia].
Qed.

Lemma cons_opt_shorter (y : Z) s x r :
  cons_opt y (scanstring s) = Some (x, r) -> length r < length s.
Proof.
  intros H. apply JsonFacts.cons_opt_inv in H as [x' H]. exact (scanstring_shorter _ _ _ H).
Qed.

Lemma scan_quote R : scanstring (dquote :: R) = Some ([], R).
Proof. reflexivity. Qed.

Lemma scan_bs_nil : scanstring [backslash] = None.
Proof. reflexivity. Qed.

Lemma scan_simple e R :
  Ascii.eqb e "u"%char = false ->
  scanstring (backslash :: e :: R) =
  match simple_escape e with Some z => cons_opt z (scanstring R) | None => None end.
Proof. intros H. cbn [scanstring]. rewrite H. reflexivity. Qed.

Lemma scan_plain c R :
  Ascii.eqb c dquote = false -> Ascii.eqb c backslash = false ->
  scanstring (c :: R) =
  if code c <=? 31 then None else cons_opt (Z.of_nat (code c)) (scanstring R).
Proof. intros H1 H2. cbn [scanstring]. rewrite H1, H2. reflexivity. Qed.

Lemma scan_u_short G :
  length G < 4 -> scanstring (backslash :: "u"%char :: G) = None.
Proof.
  intros H. destruct G as [|a [|b [|c [|d G]]]]; try reflexivity. cbn in H. lia.
Qed.

Lemma scan_u_none h1 h2 h3 h4 R :
  hex4 h1 h2 h3 h4 = None ->
  scanstring (backslash :: "u"%char :: h1 :: h2 :: h3 :: h4 :: R) = None.
Proof. intros H. cbn [scanstring]. rewrite H. reflexivity. Qed.

Lemma scan_u_low h1 h2 h3 h4 u R :
  hex4 h1 h2 h3 h4 = Some u -> is_high_surrogate u = false ->
  scanstring (backslash :: "u"%char :: h1 :: h2 :: h3 :: h4 :: R) =
  cons_opt u (scanstring R).
Proof. intros H1 H2. cbn [scanstring]. rewrite H1, H2. reflexivity. Qed.

(** After a high surrogate, when the text does not go on with a backslash
    and a [u], no pair is formed. *)
Lemma scan_high_fall h1 h2 h3 h4 u R :
  hex4 h1 h2 h3 h4 = Some u -> is_high_surrogate u = true ->
  match R with b :: u' :: _ => Ascii.eqb b backslash && Ascii.eqb u' "u"%char
             | _ => false end = false ->
  scanstring (backslash :: "u"%char :: h1 :: h2 :: h3 :: h4 :: R) =
  cons_opt u (scanstring R).
Proof.
  intros H1 H2 H3. cbn [scanstring]. rewrite H1, H2.
  destruct R as [|b [|u' [|g1 [|g2 [|g3 [|g4 r3]]]]]]; try reflexivity.
  rewrite H3. reflexivity.
Qed.

Lemma scan_high_pair h1 h2 h3 h4 u g1 g2 g3 g4 r3 :
  hex4 h1 h2 h3 h4 = Some u -> is_high_surrogate u = true ->
  scanstring (backslash :: "u"%char :: h1 :: h2 :: h3 :: h4 ::
              backslash :: "u"%char :: g1 :: g2 :: g3 :: g4 :: r3) =
  match hex4 g1 g2 g3 g4 with
  | None => None
  | Some u2 =>
      if is_low_surrogate u2 then cons_opt (join_surrogates u u2) (scanstring r3)
      else cons_opt u (scanstring (backslash :: "u"%char :: g1 :: g2 :: g3 :: g4 :: r3))
  end.
Proof. intros H1 H2. cbn [scanstring]. rewrite H1, H2. reflexivity. Qed.

Lemma scan_high_pair_short h1 h2 h3 h4 u G :
  hex4 h1 h2 h3 h4 = Some u -> is_high_surrogate u = true -> length G < 4 ->
  scanstring (backslash :: "u"%char :: h1 :: h2 :: h3 :: h4 ::
              backslash :: "u"%char :: G) =
  cons_opt u (scanstring (backslash :: "u"%char :: G)).
Proof.
  intros H1 H2 H3. cbn [scanstring]. rewrite H1, H2.
  destruct G as [|a [|b [|c [|d G]]]]; try reflexivity. cbn in H3. lia.
Qed.

(** An escape [\u] is followed by four characters, consumed. *)
Lemma scan_u_rest R x r :
  scanstring (backslash :: "u"%char :: R) = Some (x, r) ->
  exists h1 h2 h3 h4 R', R = h1 :: h2 :: h3 :: h4 :: R' /\ length r < length R'.
Proof.
  intros H. destruct R as [|h1 [|h2 [|h3 [|h4 R']]]];
    try (rewrite scan_u_short in H by (cbn; lia); discriminate).
  exists h1, h2, h3, h4, R'. split; [reflexivity|].
  destruct (hex4 h1 h2 h3 h4) as [u|] eqn:Eh; [|rewrite scan_u_none in H by exact Eh; discriminate].
  destruct (is_high_surrogate u) eqn:Ehs.
  2: { rewrite (scan_u_low _ _ _ _ u) in H by eassumption. exact (cons_opt_shorter _ _ _ _ H). }
  destruct (match R' with b :: u' :: _ => Ascii.eqb b backslash && Ascii.eqb u' "u"%char
                        | _ => false end) eqn:Ec.
  2: { rewrite (scan_high_fall _ _ _ _ u) in H by eassumption. exact (cons_opt_shorter _ _ _ _ H). }
  destruct R' as [|b [|u' G]]; try discriminate.
  apply andb_prop in Ec as [E1 E2]. apply Ascii.eqb_eq in E1, E2. subst b u'.
  destruct (Nat.ltb_spec (length G) 4) as [HG|HG].
  { rewrite (scan_high_pair_short _ _ _ _ u) in H by eassumption. exact (cons_opt_shorter _ _ _ _ H). }
  destruct G as [|g1 [|g2 [|g3 [|g4 r3]]]]; try (cbn in HG; lia).
  rewrite (scan_high_pair _ _ _ _ u) in H by eassumption.
  destruct (hex4 g1 g2 g3 g4) as [u2|]; [|discriminate].
  destruct (is_low_surrogate u2).
  - apply cons_opt_shorter in H. cbn. lia.
  - exact (cons_opt_shorter _ _ _ _ H).
Qed.

Lemma scan_bs_rest R x r :
  scanstring (backslash :: R) = Some (x, r) -> length r < length R.
Proof.
  intros H. destruct R as [|e R]; [discriminate|].
  destruct (Ascii.eqb e "u"%char) eqn:Eu.
  - apply Ascii.eqb_eq in Eu. subst e. apply scan_u_rest in H as (? & ? & ? & ? & R' & -> & H).
    cbn. lia.
  - rewrite scan_simple in H by exact Eu. destruct (simple_escape e); [|discriminate].
    apply cons_opt_shorter in H. cbn. lia.
Qed.


Lemma cons_opt_eq (y : Z) (o : option (list Z * text)) x r :
  cons_opt y o = Some (x, r) -> exists x', o = Some (x', r) /\ x = y :: x'.
Proof. destruct o as [[l r']|]; cbn; [intros [= <- <-]; eauto|discriminate]. Qed.

Lemma app_nil_len {A} (p q : list A) : p ++ q = q -> p = [].
Proof.
  intros H. apply (f_equal (@length _)) in H. rewrite length_app in H.
  destruct p; [reflexivity|cbn in H; lia].
Qed.

(** What [scanstring] reads of its input ends with the closing quote:
    the text after it does not change the result. *)
Lemma scanstring_pi n : forall p q q' x,
  length p <= n -> scanstring (p ++ q) = Some (x, q) ->
  scanstring (p ++ q') = Some (x, q').
Proof.
  induction n as [|n IH]; intros p q q' x Hl H.
  { destruct p; [exfalso; apply scanstring_shorter in H; cbn in H; lia|cbn in Hl; lia]. }
  destruct p as [|c p']; [exfalso; apply scanstring_shorter in H; cbn in H; lia|].
  cbn [app] in H |- *. cbn [length] in Hl.
  destruct (Ascii.eqb c dquote) eqn:E1.
  { apply Ascii.eqb_eq in E1; subst c. rewrite scan_quote in H |- *.
    injection H as <- Hq. apply app_nil_len in Hq as ->. reflexivity. }
  destruct (Ascii.eqb c backslash) eqn:E2.
  2: { rewrite scan_plain in H |- * by assumption. destruct (code c <=? 31); [discriminate|].
       apply cons_opt_eq in H as [x' [H ->]]. rewrite (IH p' q q' x') by (lia || exact H).
       reflexivity. }
  apply Ascii.eqb_eq in E2; subst c.
  destruct p' as [|e p1]; [exfalso; apply scan_bs_rest in H; cbn in H; lia|].
  cbn [app length] in H, Hl |- *.
  destruct (Ascii.eqb e "u"%char) eqn:Eu.
  2: { rewrite scan_simple in H |- * by exact Eu. destruct (simple_escape e); [|discriminate].
       apply cons_opt_eq in H as [x' [H ->]]. rewrite (IH p1 q q' x') by (lia || exact H).
       reflexivity. }
  apply Ascii.eqb_eq in Eu; subst e.
  pose proof (scan_u_rest _ _ _ H) as (h1 & h2 & h3 & h4 & R' & ER & HR).
  assert (Hp1 : exists P, p1 = h1 :: h2 :: h3 :: h4 :: P).
  { destruct p1 as [|a1 [|a2 [|a3 [|a4 P]]]]; cbn in ER;
      try (apply (f_equal (@length _)) in ER; cbn in ER; lia).
    injection ER as -> -> -> -> _. eauto. }
  destruct Hp1 as [P ->]. cbn [app length] in H, Hl |- *. clear ER HR R'.
  destruct (hex4 h1 h2 h3 h4) as [u|] eqn:Eh; [|rewrite scan_u_none in H by exact Eh; discriminate].
  destruct (is_high_surrogate u) eqn:Ehs.
  2: { rewrite (scan_u_low _ _ _ _ u) in H |- * by assumption.
       apply cons_opt_eq in H as [x' [H ->]]. rewrite (IH P q q' x') by (lia || exact H).
       reflexivity. }
  (* a high surrogate: look at what follows *)
  destruct (match P ++ q with b :: u' :: _ => Ascii.eqb b backslash && Ascii.eqb u' "u"%char
                        | _ => false end) eqn:Ec.
  2: { rewrite (scan_high_fall _ _ _ _ u) in H by assumption.
       apply cons_opt_eq in H as [x' [H ->]].
       assert (Ec' : match P ++ q' with b :: u' :: _ => Ascii.eqb b backslash && Ascii.eqb u' "u"%char
                                   | _ => false end = false).
       { destruct P as [|b0 [|u0 P']].
         - exfalso. apply scanstring_shorter in H. cbn in H. lia.
         - destruct (Ascii.eqb b0 backslash) eqn:Eb.
           + exfalso. apply Ascii.eqb_eq in Eb. subst b0. cbn [app] in H.
             apply scan_bs_rest in H. lia.
           + destruct q'; [reflexivity|cbv beta iota delta [app]; rewrite Eb; reflexivity].
         - exact Ec. }
       rewrite (scan_high_fall _ _ _ _ u) by assumption.
       rewrite (IH P q q' x') by (lia || exact H). reflexivity. }
  (* the text goes on with a backslash and a [u] *)
  assert (HP : exists G, P ++ q = backslash :: "u"%char :: G).
  { destruct (P ++ q) as [|b [|u' G]]; try discriminate.
    apply andb_prop in Ec as [E1' E2']. apply Ascii.eqb_eq in E1', E2'. subst. eauto. }
  destruct HP as [G EG]. rewrite EG in H.
  destruct (Nat.ltb_spec (length G) 4) as [HG|HG].
  { exfalso. rewrite (scan_high_pair_short _ _ _ _ u) in H by assumption.
    apply cons_opt_eq in H as [x' [H _]]. apply scan_u_rest in H as (? & ? & ? & ? & ? & -> & _).
    cbn in HG; lia. }
  destruct G as [|g1 [|g2 [|g3 [|g4 r3]]]]; try (cbn in HG; lia). clear HG.
  rewrite (scan_high_pair _ _ _ _ u) in H by assumption.
  destruct (hex4 g1 g2 g3 g4) as [u2|] eqn:Eg; [|discriminate].
  destruct (is_low_surrogate u2) eqn:El.
  - (* the pair is joined: the six characters are in [P] *)
    apply cons_opt_eq in H as [x' [H ->]].
    destruct (scanstring_suffix _ _ _ H) as [p3 [Er3 _]]. subst r3.
    assert (EP : P = backslash :: "u"%char :: g1 :: g2 :: g3 :: g4 :: p3).
    { apply (app_inv_tail q). rewrite EG. reflexivity. }
    subst P. cbn [app length] in Hl |- *.
    rewrite (scan_high_pair _ _ _ _ u), Eg, El by assumption.
    rewrite (IH p3 q q' x') by (lia || exact H). reflexivity.
  - apply cons_opt_eq in H as [x' [H ->]]. rewrite <- EG in H.
    pose proof H as H'. rewrite EG in H'.
    apply scan_u_rest in H' as (a1 & a2 & a3 & a4 & R'' & ER & HR).
    injection ER as <- <- <- <- <-.
    assert (EP : exists p3, P = backslash :: "u"%char :: g1 :: g2 :: g3 :: g4 :: p3).
    { destruct P as [|b [|u' [|c1 [|c2 [|c3 [|c4 p3]]]]]]; cbn in EG;
        try (apply (f_equal (@length _)) in EG; cbn in EG; lia).
      injection EG as -> -> -> -> -> -> _. eauto. }
    destruct EP as [p3 ->]. cbn [app length] in Hl, H |- *.
    rewrite (scan_high_pair _ _ _ _ u), Eg, El by assumption.
    assert (H2 : scanstring (backslash :: "u"%char :: g1 :: g2 :: g3 :: g4 :: p3 ++ q') = Some (x', q')).
    { exact (IH (backslash :: "u"%char :: g1 :: g2 :: g3 :: g4 :: p3) q q' x' ltac:(cbn; lia) H). }
    rewrite H2. reflexivity.
Qed.

Lemma scanstring_rm s z x y :
  scanstring (s ++ z) = Some (x, y ++ z) -> scanstring s = Some (x, y).
Proof.
  intros H. destruct (scanstring_suffix _ _ _ H) as [p [Ep _]].
  rewrite app_assoc in Ep. apply app_inv_tail in Ep. subst s.
  rewrite <- app_assoc in H. exact (scanstring_pi (length p) p (y ++ z) y x (le_n _) H).
Qed.

End StringRemoval.

Module NumberRemoval.
Import Text Json JsonFacts.

Lemma app_tail_nil {A} (p y z : list A) : z = p ++ y ++ z -> p = [] /\ y = [].
Proof.
  intros H. apply (f_equal (@length _)) in H. rewrite !length_app in H.
  destruct p, y; cbn in H; auto; lia.
Qed.

Lemma tail_eq {A} (p y z : list A) : p ++ z = y ++ z -> y = p.
Proof. intros H. symmetry. exact (app_inv_tail _ _ _ H). Qed.

Lemma digits_rm s z d y : digits (s ++ z) = (d, y ++ z) -> digits s = (d, y).
Proof.
  revert d y; induction s as [|c s IH]; intros d y H.
  - cbn [app] in H. apply digits_spec in H as [H _].
    apply app_tail_nil in H as [-> ->]. reflexivity.
  - cbn [app digits] in H |- *. destruct (is_digit c).
    + destruct (digits (s ++ z)) as [d' r'] eqn:E in H. injection H as <- ->.
      rewrite (IH d' y E). reflexivity.
    + injection H as <- H. apply (tail_eq (c :: s)) in H as ->. reflexivity.
Qed.

Lemma frac_part_len s f r : frac_part s = (f, r) -> f = [] \/ 2 <= length f.
Proof.
  unfold frac_part. destruct s as [|c [|d s']]; try (intros [= <- _]; auto).
  destruct (_ && _); [|intros [= <- _]; auto].
  destruct (digits s'). intros [= <- _]. right. cbn. lia.
Qed.

Lemma frac_part_rm s z f y : frac_part (s ++ z) = (f, y ++ z) -> frac_part s = (f, y).
Proof.
  intros H. destruct s as [|c [|d s']].
  - cbn [app] in H. apply frac_part_spec in H as [H _].
    apply app_tail_nil in H as [-> ->]. reflexivity.
  - pose proof (frac_part_len _ _ _ H) as Hl.
    apply frac_part_spec in H as [H _]. cbn [app] in H.
    destruct f as [|a f]; [|destruct Hl as [Hl|Hl]; [discriminate|]].
    + cbn [app] in H. change (c :: z) with ([c] ++ z) in H.
      apply app_inv_tail in H as <-. reflexivity.
    + exfalso. injection H as _ H. apply (f_equal (@length _)) in H.
      rewrite !length_app in H. cbn in Hl. lia.
  - cbn [app frac_part] in H |- *. destruct (_ && _).
    + destruct (digits (s' ++ z)) as [ds r'] eqn:E. injection H as <- ->.
      rewrite (digits_rm _ _ _ _ E). reflexivity.
    + injection H as <- H. change (c :: d :: s' ++ z) with ((c :: d :: s') ++ z) in H.
      apply app_inv_tail in H as <-. reflexivity.
Qed.

Lemma exp_part_rm s z e y : exp_part (s ++ z) = (e, y ++ z) -> exp_part s = (e, y).
Proof.
  intros H. destruct s as [|c s'].
  { cbn [app] in H. apply exp_part_spec in H as [H _].
    apply app_tail_nil in H as [-> ->]. reflexivity. }
  cbn [app] in H. unfold exp_part in H |- *.
  destruct (Ascii.eqb c "e"%char || Ascii.eqb c "E"%char) eqn:Ee.
  2: { injection H as <- H. change (c :: s' ++ z) with ((c :: s') ++ z) in H.
       apply app_inv_tail in H as <-. reflexivity. }
  destruct s' as [|c0 s''].
  - (* nothing after [e] in the prefix *)
    cbn [app] in H |- *.
    destruct (match z with
              | c0 :: r' => if Ascii.eqb c0 "-"%char || Ascii.eqb c0 "+"%char
                            then ([c0], r') else ([], z)
              | [] => ([], z)
              end) as [sg r1] eqn:Es.
    assert (Hz : z = sg ++ r1).
    { destruct z as [|c0 r']; [injection Es as <- <-; reflexivity|].
      destruct (Ascii.eqb c0 "-"%char || Ascii.eqb c0 "+"%char);
        injection Es as <- <-; reflexivity. }
    destruct (digits r1) as [[|a ds] r2] eqn:Ed.
    + injection H as <- H. change (c :: z) with ([c] ++ z) in H.
      apply app_inv_tail in H as <-. reflexivity.
    + exfalso. injection H as _ ->. apply digits_spec in Ed as [Ed _].
      rewrite Ed in Hz. apply (f_equal (@length _)) in Hz. rewrite !length_app in Hz.
      cbn in Hz. lia.
  - cbn [app] in H |- *.
    assert (Hs : exists sg r1,
       (if Ascii.eqb c0 "-"%char || Ascii.eqb c0 "+"%char then ([c0], s'' ++ z)
        else ([], c0 :: s'' ++ z)) = (sg, r1 ++ z) /\
       (if Ascii.eqb c0 "-"%char || Ascii.eqb c0 "+"%char then ([c0], s'')
        else ([], c0 :: s'')) = (sg, r1)).
    { destruct (Ascii.eqb c0 "-"%char || Ascii.eqb c0 "+"%char);
        [exists [c0], s''|exists [], (c0 :: s'')]; split; reflexivity. }
    destruct Hs as [sg [r1 [E1 E2]]]. rewrite E1 in H. rewrite E2.
    destruct (digits (r1 ++ z)) as [[|a ds] r2] eqn:Ed.
    + injection H as <- H.
      change (c :: c0 :: s'' ++ z) with ((c :: c0 :: s'') ++ z) in H.
      apply app_inv_tail in H as <-.
      assert (Ed' : digits r1 = ([], r1)).
      { apply (digits_rm _ z). rewrite Ed. apply digits_spec in Ed as [Ed _].
        cbn in Ed. rewrite Ed. reflexivity. }
      rewrite Ed'. reflexivity.
    + injection H as <- ->. rewrite (digits_rm _ _ _ _ Ed). reflexivity.
Qed.


Lemma mn_tail_rm sg ip s2 z v y :
  (let '(fp, s3) := frac_part (s2 ++ z) in
   let '(ep, s4) := exp_part s3 in Some (JNum (sg ++ ip ++ fp ++ ep), s4)) = Some (v, y ++ z) ->
  (exists S3, s2 = S3 ++ y) /\
  (let '(fp, s3) := frac_part s2 in
   let '(ep, s4) := exp_part s3 in Some (JNum (sg ++ ip ++ fp ++ ep), s4)) = Some (v, y).
Proof.
  intros H. destruct (frac_part (s2 ++ z)) as [fp s3] eqn:Ef.
  destruct (exp_part s3) as [ep s4] eqn:Ee. injection H as <- ->.
  pose proof (exp_part_spec _ _ _ Ee) as [Es3 _]. subst s3.
  rewrite app_assoc in Ef, Ee. apply exp_part_rm in Ee.
  pose proof (frac_part_spec _ _ _ Ef) as [Es2 _].
  rewrite app_assoc, app_assoc in Es2. apply app_inv_tail in Es2.
  apply frac_part_rm in Ef. split; [exists (fp ++ ep); exact Es2|].
  rewrite Ef, Ee. reflexivity.
Qed.

Lemma mn_tail_split sg ip s2 v r :
  (let '(fp, s3) := frac_part s2 in
   let '(ep, s4) := exp_part s3 in Some (JNum (sg ++ ip ++ fp ++ ep), s4)) = Some (v, r) ->
  exists S3, s2 = S3 ++ r.
Proof.
  destruct (frac_part s2) as [fp s3] eqn:Ef. destruct (exp_part s3) as [ep s4] eqn:Ee.
  intros [= _ <-]. apply frac_part_spec in Ef as [-> _]. apply exp_part_spec in Ee as [-> _].
  exists (fp ++ ep). apply app_assoc.
Qed.

Lemma mn_after_sign (sg s1 z : text) v y :
  match (match s1 ++ z with
         | c :: r => if Ascii.eqb c "0"%char then Some ([c], r)
                     else if is_digit c then let '(ds, r') := digits r in Some (c :: ds, r')
                     else None
         | [] => None end) with
  | Some (ip, s2) =>
      let '(fp, s3) := frac_part s2 in
      let '(ep, s4) := exp_part s3 in Some (JNum (sg ++ ip ++ fp ++ ep), s4)
  | None => None
  end = Some (v, y ++ z) ->
  match (match s1 with
         | c :: r => if Ascii.eqb c "0"%char then Some ([c], r)
                     else if is_digit c then let '(ds, r') := digits r in Some (c :: ds, r')
                     else None
         | [] => None end) with
  | Some (ip, s2) =>
      let '(fp, s3) := frac_part s2 in
      let '(ep, s4) := exp_part s3 in Some (JNum (sg ++ ip ++ fp ++ ep), s4)
  | None => None
  end = Some (v, y).
Proof.
  intros H. destruct s1 as [|c1 r0].
  - exfalso. cbn [app] in H.
    destruct z as [|c1 r0]; [discriminate|].
    assert (Hi : exists ip s2, c1 :: r0 = ip ++ s2 /\ ip <> [] /\
      (let '(fp, s3) := frac_part s2 in
       let '(ep, s4) := exp_part s3 in Some (JNum (sg ++ ip ++ fp ++ ep), s4)) = Some (v, y ++ c1 :: r0)).
    { destruct (Ascii.eqb c1 "0"%char).
      - exists [c1], r0. split; [reflexivity|]. split; [discriminate|exact H].
      - destruct (is_digit c1); [|discriminate].
        destruct (digits r0) as [ds r'] eqn:Ed. apply digits_spec in Ed as [Ed _].
        exists (c1 :: ds), r'. split; [rewrite Ed; reflexivity|]. split; [discriminate|exact H]. }
    destruct Hi as [ip [s2 [Es2 [Hip Ht]]]].
    destruct (frac_part s2) as [fp s3] eqn:Ef. destruct (exp_part s3) as [ep s4] eqn:Ee.
    injection Ht as _ ->. apply frac_part_spec in Ef as [-> _]. apply exp_part_spec in Ee as [-> _].
    apply (f_equal (@length _)) in Es2. rewrite !length_app in Es2.
    destruct ip; [congruence|]. cbn in Es2. lia.
  - cbn [app] in H |- *.
    destruct (Ascii.eqb c1 "0"%char).
    + exact (proj2 (mn_tail_rm _ _ _ _ _ _ H)).
    + destruct (is_digit c1); [|discriminate].
      destruct (digits (r0 ++ z)) as [ds s2] eqn:Ed. cbv beta iota in H.
      destruct (mn_tail_split _ _ _ _ _ H) as [S3 ES]. rewrite app_assoc in ES. subst s2.
      destruct (mn_tail_rm _ _ _ _ _ _ H) as [_ Ht].
      apply digits_rm in Ed. rewrite Ed. cbv beta iota. exact Ht.
Qed.

Lemma match_number_rm s z v y :
  match_number (s ++ z) = Some (v, y ++ z) -> match_number s = Some (v, y).
Proof.
  intros H. destruct s as [|c s'].
  { exfalso. apply match_number_spec in H as [p [Hp [Hn _]]]. cbn [app] in Hp.
    apply app_tail_nil in Hp as [-> _]. congruence. }
  unfold match_number in H |- *. cbn [app] in H. cbv beta iota in H |- *.
  destruct (Ascii.eqb c "-"%char); cbv beta iota zeta in H |- *.
  - exact (mn_after_sign [c] s' z v y H).
  - exact (mn_after_sign [] (c :: s') z v y H).
Qed.

End NumberRemoval.

Module ParseRemoval.
Import Text Json JsonFacts StringRemoval NumberRemoval.

Lemma skip_ws_rm s z y : skip_ws (s ++ z) = y ++ z -> skip_ws s = y.
Proof.
  revert y; induction s as [|c s IH]; intros y H.
  - cbn [app] in H. destruct (skip_ws_split z) as [w [Ew _]]. rewrite H in Ew.
    apply app_tail_nil in Ew as [_ ->]. reflexivity.
  - cbn [app skip_ws] in H |- *. destruct (is_ws c); [exact (IH _ H)|].
    apply (tail_eq (c :: s)) in H as ->. reflexivity.
Qed.

Lemma skip_ws_to w c r :
  forallb is_ws w = true -> is_ws c = false -> skip_ws (w ++ c :: r) = c :: r.
Proof. intros Hw Hc. rewrite skip_ws_app by exact Hw. cbn. rewrite Hc. reflexivity. Qed.

Lemma lit_rm p k s z y :
  length p = k -> startswith p (s ++ z) = true -> skipn k (s ++ z) = y ++ z ->
  startswith p s = true /\ skipn k s = y.
Proof.
  intros <- H1 H2. apply TextFacts.startswith_spec in H1 as [r Er].
  rewrite Er, skipn_length_app in H2. subst r. rewrite app_assoc in Er.
  apply app_inv_tail in Er. subst s. split.
  - apply TextFacts.startswith_spec. eauto.
  - apply skipn_length_app.
Qed.

Lemma lit_mono p s z :
  startswith p s = false -> startswith p (s ++ z) = true ->
  forall k y, length p = k -> skipn k (s ++ z) = y ++ z -> False.
Proof.
  intros H1 H2 k y Hk H3. destruct (lit_rm _ _ _ _ _ Hk H2 H3) as [H _]. congruence.
Qed.

Lemma lit_keep p s z :
  startswith p s = true ->
  startswith p (s ++ z) = true /\ skipn (length p) (s ++ z) = skipn (length p) s ++ z.
Proof.
  intros H. apply TextFacts.startswith_spec in H as [r ->]. rewrite <- app_assoc.
  rewrite !skipn_length_app. split; [apply TextFacts.startswith_spec; eauto|reflexivity].
Qed.

Lemma scan_consumes n s v r : scan_once n s = Some (v, r) -> exists p, s = p ++ r /\ p <> [].
Proof. intros H. destruct (proj1 (parse_lex n) _ _ _ H) as [p [E [Hn _]]]. eauto. Qed.

Lemma items_consumes n s acc v r :
  parse_items n s acc = Some (v, r) -> exists p, s = p ++ r /\ p <> [].
Proof. intros H. destruct (proj1 (proj2 (parse_lex n)) _ _ _ _ H) as [p [E [Hn _]]]. eauto. Qed.

Lemma members_consumes n s acc v r :
  parse_members n s acc = Some (v, r) -> exists p, s = p ++ r /\ p <> [].
Proof. intros H. destruct (proj2 (proj2 (parse_lex n)) _ _ _ _ H) as [p [E [Hn _]]]. eauto. Qed.

(** The head of a consumed prefix that starts a value is not whitespace. *)
Lemma skip_ws_consumed r p q q' :
  skip_ws r = p ++ q -> p <> [] -> skip_ws (p ++ q') = p ++ q'.
Proof.
  intros H Hp. destruct p as [|c p]; [congruence|]. cbn [app] in H |- *.
  pose proof (skip_ws_head _ _ _ H) as Hc. cbn. rewrite Hc. reflexivity.
Qed.

Ltac lit_rm_step H c s' z v y w k :=
    let F := fresh "F" in let F' := fresh "F" in let Hy := fresh "Hy" in let Hv := fresh "Hv" in
    destruct (startswith (T w) (c :: s')) eqn:F';
    [ let K1 := fresh "K" in let K2 := fresh "K" in
      destruct (lit_keep (T w) (c :: s') z F') as [K1 K2]; cbn [app] in K1, K2;
      change (length (T w)) with k in K2;
      rewrite K1, K2 in H;
      pose proof (f_equal (fun o => match o with Some (_, r) => r | None => [] end) H) as Hy;
      pose proof (f_equal (fun o => match o with Some (vv, _) => vv | None => JNull end) H) as Hv;
      cbv beta iota in Hy, Hv; subst v;
      apply app_inv_tail in Hy; rewrite Hy; reflexivity
    | destruct (startswith (T w) (c :: s' ++ z)) eqn:F in H;
      [ exfalso;
        pose proof (f_equal (fun o => match o with Some (_, r) => r | None => [] end) H) as Hy;
        cbv beta iota in Hy;
        exact (lit_mono (T w) (c :: s') z F' F k y eq_refl Hy) | ] ].

(** Cutting off text after what a parse consumed and looked at does not
    change the parse. *)
Lemma parse_rm n :
  (forall s z v y, scan_once n (s ++ z) = Some (v, y ++ z) -> scan_once n s = Some (v, y)) /\
  (forall s z acc v y, parse_items n (s ++ z) acc = Some (v, y ++ z) ->
     parse_items n s acc = Some (v, y)) /\
  (forall s z acc v y, parse_members n (s ++ z) acc = Some (v, y ++ z) ->
     parse_members n s acc = Some (v, y)).
Proof.
  induction n as [|n [IHs [IHi IHm]]]; [split; [|split]; intros; discriminate|].
  split; [|split].
  - intros s z v y H. destruct s as [|c s'].
    { exfalso. cbn [app] in H. destruct (scan_consumes _ _ _ _ H) as [p [Ep Hp]].
      apply app_tail_nil in Ep as [Ep _]. congruence. }
    cbn [app] in H. cbn [scan_once] in H |- *.
    destruct (Ascii.eqb c dquote) eqn:Eq.
    { destruct (scanstring (s' ++ z)) as [[x r']|] eqn:Es; [|discriminate].
      injection H as <- ->. rewrite (scanstring_rm _ _ _ _ Es). reflexivity. }
    destruct (Ascii.eqb c "{"%char) eqn:Eo.
    { destruct (skip_ws (s' ++ z)) as [|c' r'] eqn:Esk; [discriminate|].
      destruct (Ascii.eqb c' "}"%char) eqn:Ec.
      - injection H as <- ->.
        change (c' :: y ++ z) with ((c' :: y) ++ z) in Esk.
        rewrite (skip_ws_rm _ _ _ Esk), Ec. reflexivity.
      - destruct (members_consumes _ _ _ _ _ H) as [p [Ep Hp]].
        destruct p as [|a p]; [congruence|]. injection Ep as <- Er'. subst r'.
        rewrite app_assoc in Esk, H.
        change (c' :: (p ++ y) ++ z) with ((c' :: p ++ y) ++ z) in Esk, H.
        rewrite (skip_ws_rm _ _ _ Esk), Ec. exact (IHm (c' :: p ++ y) z [] v y H). }
    destruct (Ascii.eqb c "["%char) eqn:Ea.
    { destruct (skip_ws (s' ++ z)) as [|c' r'] eqn:Esk; [discriminate|].
      destruct (Ascii.eqb c' "]"%char) eqn:Ec.
      - injection H as <- ->.
        change (c' :: y ++ z) with ((c' :: y) ++ z) in Esk.
        rewrite (skip_ws_rm _ _ _ Esk), Ec. reflexivity.
      - destruct (items_consumes _ _ _ _ _ H) as [p [Ep Hp]].
        destruct p as [|a p]; [congruence|]. injection Ep as <- Er'. subst r'.
        rewrite app_assoc in Esk, H.
        change (c' :: (p ++ y) ++ z) with ((c' :: p ++ y) ++ z) in Esk, H.
        rewrite (skip_ws_rm _ _ _ Esk), Ec. exact (IHi (c' :: p ++ y) z [] v y H). }
    lit_rm_step H c s' z v y "null"%string 4.
    lit_rm_step H c s' z v y "true"%string 4.
    lit_rm_step H c s' z v y "false"%string 5.
    lit_rm_step H c s' z v y "NaN"%string 3.
    lit_rm_step H c s' z v y "Infinity"%string 8.
    lit_rm_step H c s' z v y "-Infinity"%string 9.
    exact (match_number_rm (c :: s') z v y H).
  - intros s z acc v y H. cbn [parse_items] in H |- *.
    destruct (scan_once n (s ++ z)) as [[v1 r1]|] eqn:E1; [|discriminate].
    destruct (skip_ws_split r1) as [w [Ew Hw]].
    destruct (skip_ws r1) as [|c r'] eqn:Esk; [discriminate|].
    pose proof (skip_ws_head _ _ _ Esk) as Hc.
    destruct (Ascii.eqb c "]"%char) eqn:Ec.
    + injection H as <- ->. rewrite Ew in E1.
      replace (w ++ c :: y ++ z) with ((w ++ c :: y) ++ z) in E1 by list_eq.
      apply IHs in E1. rewrite E1, skip_ws_to, Ec by assumption. reflexivity.
    + destruct (Ascii.eqb c ","%char) eqn:Ecm; [|discriminate].
      destruct (items_consumes _ _ _ _ _ H) as [p3 [E3 Hp3]].
      destruct (skip_ws_split r') as [w2 [Ew2 Hw2]].
      rewrite E3 in Ew2. rewrite Ew2 in Ew. rewrite Ew in E1.
      replace (w ++ c :: w2 ++ p3 ++ y ++ z) with ((w ++ c :: w2 ++ p3 ++ y) ++ z) in E1
        by list_eq.
      apply IHs in E1. rewrite E1, skip_ws_to, Ec, Ecm by assumption.
      rewrite skip_ws_app by exact Hw2. rewrite (skip_ws_consumed _ _ _ y E3 Hp3).
      rewrite E3, app_assoc in H. exact (IHi _ _ _ _ _ H).
  - intros s z acc v y H. destruct s as [|q s'].
    { exfalso. cbn [app] in H. destruct (members_consumes _ _ _ _ _ H) as [p [Ep Hp]].
      apply app_tail_nil in Ep as [Ep _]. congruence. }
    cbn [app] in H. cbn [parse_members] in H |- *.
    destruct (Ascii.eqb q dquote) eqn:Eq; [|discriminate].
    destruct (scanstring (s' ++ z)) as [[k r1]|] eqn:Es; [|discriminate].
    destruct (skip_ws_split r1) as [w1 [Ew1 Hw1]].
    destruct (skip_ws r1) as [|c r2] eqn:Esk1; [discriminate|].
    pose proof (skip_ws_head _ _ _ Esk1) as Hc.
    destruct (Ascii.eqb c ":"%char) eqn:Ec; [|discriminate].
    destruct (skip_ws_split r2) as [w2 [Ew2 Hw2]].
    destruct (scan_once n (skip_ws r2)) as [[v3 r3]|] eqn:E3; [|discriminate].
    destruct (scan_consumes _ _ _ _ E3) as [p3 [Ep3 Hp3]].
    destruct (skip_ws_split r3) as [w3 [Ew3 Hw3]].
    destruct (skip_ws r3) as [|d r4] eqn:Esk3; [discriminate|].
    pose proof (skip_ws_head _ _ _ Esk3) as Hd.
    rewrite Ep3 in E3.
    destruct (Ascii.eqb d "}"%char) eqn:Ed.
    + injection H as <- ->.
      assert (Er1 : r1 = (w1 ++ c :: w2 ++ p3 ++ w3 ++ d :: y) ++ z)
        by (rewrite Ew1, Ew2, Ep3, Ew3; list_eq).
      rewrite Er1 in Es. apply scanstring_rm in Es. rewrite Es.
      rewrite skip_ws_to, Ec by assumption.
      rewrite skip_ws_app by exact Hw2. rewrite (skip_ws_consumed _ _ _ (w3 ++ d :: y) Ep3 Hp3).
      rewrite Ew3 in E3.
      replace (p3 ++ w3 ++ d :: y ++ z) with ((p3 ++ w3 ++ d :: y) ++ z) in E3 by list_eq.
      replace (w3 ++ d :: y ++ z) with ((w3 ++ d :: y) ++ z) in E3 by list_eq.
      apply IHs in E3. rewrite E3, skip_ws_to, Ed by assumption. reflexivity.
    + destruct (Ascii.eqb d ","%char) eqn:Edc; [|discriminate].
      destruct (members_consumes _ _ _ _ _ H) as [p5 [E5 Hp5]].
      destruct (skip_ws_split r4) as [w4 [Ew4 Hw4]].
      rewrite E5 in Ew4.
      assert (Er1 : r1 = (w1 ++ c :: w2 ++ p3 ++ w3 ++ d :: w4 ++ p5 ++ y) ++ z)
        by (rewrite Ew1, Ew2, Ep3, Ew3, Ew4; list_eq).
      rewrite Er1 in Es. apply scanstring_rm in Es. rewrite Es.
      rewrite skip_ws_to, Ec by assumption.
      rewrite skip_ws_app by exact Hw2.
      rewrite (skip_ws_consumed _ _ _ (w3 ++ d :: w4 ++ p5 ++ y) Ep3 Hp3).
      rewrite Ew3, Ew4 in E3.
      replace (p3 ++ w3 ++ d :: (w4 ++ p5 ++ y ++ z)) with
        ((p3 ++ w3 ++ d :: w4 ++ p5 ++ y) ++ z) in E3 by list_eq.
      replace (w3 ++ d :: w4 ++ p5 ++ y ++ z) with ((w3 ++ d :: w4 ++ p5 ++ y) ++ z) in E3
        by list_eq.
      apply IHs in E3. rewrite E3, skip_ws_to, Ed, Edc by assumption.
      rewrite skip_ws_app by exact Hw4. rewrite (skip_ws_consumed _ _ _ y E5 Hp5).
      rewrite E5, app_assoc in H. exact (IHm _ _ _ _ _ H).
Qed.

End ParseRemoval.

Module ParseFuel.
Import Text Json JsonFacts ParseRemoval.

Lemma skip_ws_len s : length (skip_ws s) <= length s.
Proof. destruct (skip_ws_split s) as [w [Ew _]]. rewrite Ew at 2. rewrite length_app. lia. Qed.

Lemma len_app {A} (l r : list A) : length (l ++ r) = length l + length r.
Proof. apply length_app. Qed.

Lemma nonempty_len {A} (p : list A) : p <> [] -> 1 <= length p.
Proof. destruct p; [congruence|cbn; lia]. Qed.

(** A parse that consumes [k] characters needs no more than [k] units of
    fuel. *)
Lemma parse_fuel n :
  (forall s v r, scan_once n s = Some (v, r) ->
     forall m, length s <= m + length r -> scan_once m s = Some (v, r)) /\
  (forall s acc v r, parse_items n s acc = Some (v, r) ->
     forall m, length s <= m + length r -> parse_items m s acc = Some (v, r)) /\
  (forall s acc v r, parse_members n s acc = Some (v, r) ->
     forall m, length s <= m + length r -> parse_members m s acc = Some (v, r)).
Proof.
  induction n as [|n [IHs [IHi IHm]]]; [split; [|split]; intros; discriminate|].
  split; [|split].
  - intros s v r H m Hm.
    destruct (scan_consumes _ _ _ _ H) as [p [Ep Hp]].
    destruct m as [|m].
    { exfalso. apply nonempty_len in Hp. rewrite Ep, len_app in Hm. lia. }
    clear Ep Hp. destruct s as [|c s']; [discriminate|].
    cbn [scan_once] in H |- *. cbn [length] in Hm.
    destruct (Ascii.eqb c dquote); [exact H|].
    destruct (Ascii.eqb c "{"%char).
    { pose proof (skip_ws_len s') as Hl.
      destruct (skip_ws s') as [|c' r'] eqn:Esk; [discriminate|].
      destruct (Ascii.eqb c' "}"%char); [exact H|].
      apply (IHm _ _ _ _ H). cbn [length] in Hl |- *. lia. }
    destruct (Ascii.eqb c "["%char).
    { pose proof (skip_ws_len s') as Hl.
      destruct (skip_ws s') as [|c' r'] eqn:Esk; [discriminate|].
      destruct (Ascii.eqb c' "]"%char); [exact H|].
      apply (IHi _ _ _ _ H). cbn [length] in Hl |- *. lia. }
    exact H.
  - intros s acc v r H m Hm.
    destruct (items_consumes _ _ _ _ _ H) as [p [Ep Hp]].
    destruct m as [|m].
    { exfalso. apply nonempty_len in Hp. rewrite Ep, len_app in Hm. lia. }
    clear Ep Hp. cbn [parse_items] in H |- *.
    destruct (scan_once n s) as [[v1 r1]|] eqn:E1; [|discriminate].
    destruct (scan_consumes _ _ _ _ E1) as [p1 [Ep1 Hp1]].
    apply nonempty_len in Hp1.
    destruct (skip_ws_split r1) as [w [Ew Hw]].
    destruct (skip_ws r1) as [|c r'] eqn:Esk; [discriminate|].
    destruct (Ascii.eqb c "]"%char) eqn:Ec.
    + injection H as <- <-.
      rewrite (IHs _ _ _ E1 m) by (rewrite Ep1, Ew, !len_app in *; cbn [length] in *; lia).
      rewrite Esk, Ec. reflexivity.
    + destruct (Ascii.eqb c ","%char) eqn:Ecm; [|discriminate].
      destruct (items_consumes _ _ _ _ _ H) as [p3 [E3 Hp3]].
      pose proof (skip_ws_len r') as Hl. rewrite E3, len_app in Hl.
      rewrite (IHs _ _ _ E1 m) by (rewrite Ep1, Ew, !len_app in *; cbn [length] in *; lia).
      rewrite Esk, Ec, Ecm.
      apply (IHi _ _ _ _ H). rewrite E3, len_app.
      rewrite Ep1, Ew, !len_app in Hm. cbn [length] in Hm. lia.
  - intros s acc v r H m Hm.
    destruct (members_consumes _ _ _ _ _ H) as [p [Ep Hp]].
    destruct m as [|m].
    { exfalso. apply nonempty_len in Hp. rewrite Ep, len_app in Hm. lia. }
    clear Ep Hp. cbn [parse_members] in H |- *.
    destruct s as [|q s']; [discriminate|]. cbn [length] in Hm.
    destruct (Ascii.eqb q dquote); [|discriminate].
    destruct (scanstring s') as [[k r1]|] eqn:Es; [|discriminate].
    pose proof (StringRemoval.scanstring_shorter _ _ _ Es) as L1.
    pose proof (skip_ws_len r1) as L2.
    destruct (skip_ws r1) as [|c r2] eqn:Esk1; [discriminate|].
    destruct (Ascii.eqb c ":"%char); [|discriminate].
    pose proof (skip_ws_len r2) as L3.
    destruct (scan_once n (skip_ws r2)) as [[v3 r3]|] eqn:E3; [|discriminate].
    destruct (scan_consumes _ _ _ _ E3) as [p3 [Ep3 Hp3]].
    pose proof (skip_ws_len r3) as L4.
    destruct (skip_ws r3) as [|d r4] eqn:Esk3; [discriminate|].
    cbn [length] in L2, L4.
    destruct (Ascii.eqb d "}"%char) eqn:Ed.
    + injection H as <- <-.
      rewrite (IHs _ _ _ E3 m) by lia. rewrite Esk3, Ed. reflexivity.
    + destruct (Ascii.eqb d ","%char) eqn:Edc; [|discriminate].
      destruct (members_consumes _ _ _ _ _ H) as [p5 [E5 Hp5]].
      pose proof (skip_ws_len r4) as L5. rewrite E5, len_app in L5.
      rewrite Ep3, len_app in L3. apply nonempty_len in Hp3.
      rewrite (IHs _ _ _ E3 m) by (rewrite Ep3, len_app; lia).
      rewrite Esk3, Ed, Edc.
      apply (IHm _ _ _ _ H). rewrite E5, len_app. lia.
Qed.

End ParseFuel.

Module ObjectFacts.
Import Text Extract Json JsonFacts TextFacts.

Lemma is_ws_space c : is_ws c = true -> py_isspace c = true.
Proof.
  unfold is_ws, py_isspace. set (n := code c).
  destruct (Nat.eqb_spec n 32) as [->|]; [reflexivity|].
  destruct (Nat.eqb_spec n 9) as [->|]; [reflexivity|].
  destruct (Nat.eqb_spec n 10) as [->|]; [reflexivity|].
  destruct (Nat.eqb_spec n 13) as [->|]; [reflexivity|].
  discriminate.
Qed.

Lemma forallb_ws_space w : forallb is_ws w = true -> forallb py_isspace w = true.
Proof.
  induction w as [|c w IH]; cbn; [reflexivity|].
  intros H. apply andb_prop in H as [H1 H2]. rewrite is_ws_space, IH; auto.
Qed.

Lemma forallb_rev_space w : forallb py_isspace w = true -> forallb py_isspace (rev w) = true.
Proof.
  induction w as [|c w IH]; cbn; [reflexivity|].
  intros H. apply andb_prop in H as [H1 H2].
  rewrite forallb_app, IH by exact H2. cbn. rewrite H1. reflexivity.
Qed.

(** [s.strip()] of a text made of whitespace, a middle that starts and ends
    with non-space characters, and whitespace. *)
Lemma strip_around w0 c x e w1 :
  forallb py_isspace w0 = true -> forallb py_isspace w1 = true ->
  py_isspace c = false -> py_isspace e = false ->
  strip (w0 ++ (c :: x ++ [e]) ++ w1) = c :: x ++ [e].
Proof.
  intros H0 H1 Hc He. unfold strip. rewrite lstrip_app, H0.
  change ((c :: x ++ [e]) ++ w1) with (c :: (x ++ [e]) ++ w1).
  rewrite lstrip_nonspace by exact Hc.
  change (c :: (x ++ [e]) ++ w1) with ((c :: x ++ [e]) ++ w1).
  unfold rstrip. rewrite rev_app_distr, lstrip_app, forallb_rev_space by exact H1.
  change (c :: x ++ [e]) with ((c :: x) ++ [e]).
  rewrite rev_app_distr. cbn [rev app]. rewrite lstrip_nonspace by exact He.
  cbn [rev]. rewrite rev_app_distr, rev_involutive. reflexivity.
Qed.

Lemma upto_last_end cl x : upto_last cl (x ++ [cl]) = Some (x ++ [cl]).
Proof.
  induction x as [|y x IH]; cbn [app upto_last].
  - rewrite Ascii.eqb_refl. reflexivity.
  - rewrite IH. reflexivity.
Qed.

(** C7 (counterexample): a well-formed JSON object with a leading space is
    not returned unchanged: both extractors return ["{}"] for [" {}"]. *)
Lemma extract_object_not_verbatim :
  loads (T " {}") = Some (JObj []) /\
  extract_json (T " {}") = T "{}" /\
  _clean_json_from_text (T " {}") = Some (T "{}") /\
  T "{}" <> T " {}".
Proof. split; [|split; [|split]]; [vm_compute; reflexivity..|discriminate]. Qed.

(** C7 (amended): for every text [s] that [json.loads] parses to a JSON
    object, [s] is that object's text [s.strip()] between JSON whitespace;
    [extract_json] returns [s.strip()], [_clean_json_from_text] returns
    [s.strip()], and strict parsing of the returned slice succeeds with the
    same object.  The returned slice is [s] itself exactly when [s] has no
    leading or trailing whitespace. *)
Theorem extract_parsed_object (s : text) (d : list (key * json)) :
  loads s = Some (JObj d) ->
  (exists w0 w1, s = w0 ++ strip s ++ w1 /\
                 forallb is_ws w0 = true /\ forallb is_ws w1 = true) /\
  extract_json s = strip s /\
  _clean_json_from_text s = Some (strip s) /\
  loads (strip s) = Some (JObj d).
Proof.
  intros H. unfold loads in H.
  destruct (scan_once (2 * length s + 2) (skip_ws s)) as [[v r]|] eqn:E; [|discriminate].
  destruct (skip_ws r) eqn:Er; [|discriminate]. injection H as ->.
  apply skip_ws_nil_ws in Er.
  destruct (skip_ws_split s) as [w0 [Ew0 Hw0]].
  destruct (proj1 (proj1 (parse_shape _) _ _ _ E) d eq_refl) as [m Em].
  set (t := "{"%char :: m ++ ["}"%char]).
  assert (Et : skip_ws s = t ++ r) by (rewrite Em; subst t; list_eq).
  rewrite Et in E, Ew0.
  assert (Et' : scan_once (2 * length s + 2) (t ++ r) = Some (JObj d, [] ++ r)) by exact E.
  apply (proj1 (ParseRemoval.parse_rm _)) in Et'.
  assert (Ht : scan_once (2 * length t + 2) t = Some (JObj d, []))
    by (apply (proj1 (ParseFuel.parse_fuel _) _ _ _ Et'); cbn [length]; lia).
  assert (Hs : strip s = t).
  { rewrite Ew0. subst t.
    apply strip_around; [apply forallb_ws_space; assumption..|reflexivity|reflexivity]. }
  rewrite Hs. split; [|split; [|split]].
  - exists w0, r. split; [exact Ew0|]. split; assumption.
  - unfold extract_json. rewrite Hs. subst t. cbn [startswith T list_ascii_of_string].
    change (Ascii.eqb "`" "{")%char with false. cbn [andb].
    cbn [regex_span]. rewrite Ascii.eqb_refl, upto_last_end. reflexivity.
  - unfold _clean_json_from_text. rewrite Hs.
    assert (B : startswith (T "{") t && endswith (T "}") t = true).
    { subst t. unfold endswith. cbn [T list_ascii_of_string rev app].
      rewrite app_comm_cons, rev_app_distr. reflexivity. }
    rewrite B. reflexivity.
  - unfold loads. assert (Sk : skip_ws t = t) by reflexivity.
    rewrite Sk, Ht. reflexivity.
Qed.

Lemma extract_parsed_object_witness :
  loads (T " {} ") = Some (JObj []) /\
  extract_json (T " {} ") = strip (T " {} ") /\
  _clean_json_from_text (T " {} ") = Some (strip (T " {} ")) /\
  loads (strip (T " {} ")) = Some (JObj []).
Proof.
  assert (H : loads (T " {} ") = Some (JObj [])) by (vm_compute; reflexivity).
  split; [exact H|].
  exact (proj2 (extract_parsed_object (T " {} ") [] H)).
Defined.

End ObjectFacts.


Module SliceFacts.
Import Text Extract Shapes TextFacts FenceFacts.

Lemma infix_refl {A} (s : list A) : infix s s.
Proof. exists [], []. rewrite app_nil_r. reflexivity. Qed.

Lemma infix_trans {A} (x y z : list A) : infix x y -> infix y z -> infix x z.
Proof.
  intros [a [b ->]] [c [d ->]]. exists (c ++ a), (b ++ d).
  rewrite !app_assoc. reflexivity.
Qed.

Lemma lstrip_suffix s : exists w, s = w ++ lstrip s.
Proof.
  induction s as [|c s [w Hw]]; cbn; [exists []; reflexivity|].
  destruct (py_isspace c); [exists (c :: w); cbn; f_equal; exact Hw|exists []; reflexivity].
Qed.

Lemma lstrip_char_suffix ch s : exists w, s = w ++ lstrip_char ch s.
Proof.
  induction s as [|c s [w Hw]]; cbn; [exists []; reflexivity|].
  destruct (Ascii.eqb c ch); [exists (c :: w); cbn; f_equal; exact Hw|exists []; reflexivity].
Qed.

Lemma rev_suffix_prefix (f : list ascii -> list ascii) s :
  (forall u, exists w, u = w ++ f u) -> exists w, s = rev (f (rev s)) ++ w.
Proof.
  intros Hf. destruct (Hf (rev s)) as [w Hw]. exists (rev w).
  rewrite <- rev_app_distr, <- Hw, rev_involutive. reflexivity.
Qed.

Lemma infix_lstrip s : infix (lstrip s) s.
Proof. destruct (lstrip_suffix s) as [w Hw]. exists w, []. rewrite app_nil_r. exact Hw. Qed.

Lemma infix_rstrip s : infix (rstrip s) s.
Proof.
  destruct (rev_suffix_prefix lstrip s lstrip_suffix) as [w Hw].
  exists [], w. exact Hw.
Qed.

Lemma infix_strip s : infix (strip s) s.
Proof. unfold strip. eapply infix_trans; [apply infix_rstrip|apply infix_lstrip]. Qed.

Lemma infix_strip_char ch s : infix (strip_char ch s) s.
Proof.
  unfold strip_char. destruct (lstrip_char_suffix ch s) as [w1 H1].
  destruct (rev_suffix_prefix (lstrip_char ch) (lstrip_char ch s) (lstrip_char_suffix ch))
    as [w2 H2].
  exists w1, w2. rewrite <- H2. exact H1.
Qed.

Lemma infix_skipn n (s : text) : infix (skipn n s) s.
Proof. exists (firstn n s), []. rewrite app_nil_r, firstn_skipn. reflexivity. Qed.

Lemma upto_last_shape cl s p :
  upto_last cl s = Some p -> (exists b, s = p ++ b) /\ exists x, p = x ++ [cl].
Proof.
  revert p; induction s as [|y s IH]; intros p H; cbn in H; [discriminate|].
  destruct (upto_last cl s) as [p'|] eqn:E.
  - injection H as <-. destruct (IH p' eq_refl) as [[b Hb] [x Hx]].
    split; [exists b; rewrite Hb; reflexivity|exists (y :: x); rewrite Hx; reflexivity].
  - destruct (Ascii.eqb y cl) eqn:Ey; [|discriminate]. injection H as <-.
    apply Ascii.eqb_eq in Ey; subst y.
    split; [exists s; reflexivity|exists []; reflexivity].
Qed.

Lemma regex_span_shape op cl s m :
  regex_span op cl s = Some m -> infix m s /\ exists x, m = op :: x ++ [cl].
Proof.
  revert m; induction s as [|y s IH]; intros m H; cbn in H; [discriminate|].
  destruct (Ascii.eqb y op) eqn:Ey.
  - apply Ascii.eqb_eq in Ey; subst y.
    destruct (upto_last cl s) as [p|] eqn:E; [|discriminate].
    cbn in H. injection H as <-.
    destruct (upto_last_shape _ _ _ E) as [[b Hb] [x Hx]].
    split; [exists [], b; rewrite Hb; reflexivity|exists x; rewrite Hx; reflexivity].
  - destruct (IH m H) as [[a [b Hab]] Hx]. split; [|exact Hx].
    exists (y :: a), b. rewrite Hab. reflexivity.
Qed.

Lemma rstrip_idem s : rstrip (rstrip s) = rstrip s.
Proof. unfold rstrip. rewrite rev_involutive, lstrip_idem. reflexivity. Qed.

Lemma lstrip_rstrip s : lstrip s = s -> lstrip (rstrip s) = rstrip s.
Proof.
  intros H. destruct (rev_suffix_prefix lstrip s lstrip_suffix) as [w Hw].
  fold (rstrip s) in Hw. destruct (rstrip s) as [|c r] eqn:E; [reflexivity|].
  rewrite Hw in H. cbn in H |- *. destruct (py_isspace c) eqn:Ec; [|reflexivity].
  exfalso. assert (length (lstrip ((r ++ w))) <= length (r ++ w)) as L.
  { clear. induction (r ++ w) as [|d u IH]; cbn; [lia|].
    destruct (py_isspace d); cbn; lia. }
  rewrite H in L. cbn in L. lia.
Qed.

Lemma strip_idem s : strip (strip s) = strip s.
Proof.
  unfold strip at 1 2. rewrite lstrip_rstrip by apply lstrip_idem.
  apply rstrip_idem.
Qed.

Lemma strip_bracketed op cl x :
  py_isspace op = false -> py_isspace cl = false ->
  strip (op :: x ++ [cl]) = op :: x ++ [cl].
Proof.
  intros Ho Hc. unfold strip. rewrite lstrip_nonspace by exact Ho.
  change (op :: x ++ [cl]) with ((op :: x) ++ [cl]). apply rstrip_last, Hc.
Qed.

Lemma clean_slice_shape s m :
  _clean_json_from_text s = Some m ->
  infix m (strip s) /\
  exists x, m = "{"%char :: x ++ ["}"%char] \/ m = "["%char :: x ++ ["]"%char].
Proof.
  unfold _clean_json_from_text. set (t := strip s).
  destruct ((startswith (T "{") t && endswith (T "}") t)
            || (startswith (T "[") t && endswith (T "]") t)) eqn:E.
  - intros H. injection H as <-. split; [apply infix_refl|].
    apply orb_true_iff in E as [E|E]; apply andb_prop in E as [E1 E2];
      apply PairFacts.endswith_one in E2 as [y Ey]; rewrite Ey in E1 |- *;
      apply startswith_spec in E1 as [r Hr];
      (destruct y as [|a y]; cbn in Hr; injection Hr; [discriminate|]);
      intros _ ->; exists y; [left|right]; reflexivity.
  - destruct (regex_span "{"%char "}"%char t) as [m'|] eqn:R1.
    + intros H. injection H as <-. destruct (regex_span_shape _ _ _ _ R1) as [Hi [x Hx]].
      split; [exact Hi|exists x; left; exact Hx].
    + intros H. destruct (regex_span_shape _ _ _ _ H) as [Hi [x Hx]].
      split; [exact Hi|exists x; right; exact Hx].
Qed.

Lemma upto_last_none_inv cl s : upto_last cl s = None -> existsb (Ascii.eqb cl) s = false.
Proof.
  induction s as [|x s IH]; cbn; [reflexivity|].
  destruct (upto_last cl s) eqn:E; [discriminate|]. rewrite (IH eq_refl).
  rewrite (Ascii.eqb_sym cl x). destruct (Ascii.eqb x cl); intros H; [discriminate H|reflexivity].
Qed.

Lemma has_pair_has_close op cl s : has_pair op cl s = true -> existsb (Ascii.eqb cl) s = true.
Proof.
  induction s as [|x s IH]; cbn; [discriminate|].
  intros H. apply orb_true_iff in H as [H|H].
  - apply andb_prop in H as [_ H]. rewrite H. apply orb_true_r.
  - rewrite IH by exact H. apply orb_true_r.
Qed.

Lemma has_pair_regex_some op cl s :
  has_pair op cl s = true -> exists m, regex_span op cl s = Some m.
Proof.
  induction s as [|x s IH]; cbn; [discriminate|].
  intros H. destruct (Ascii.eqb x op) eqn:Ex.
  - cbn in H. destruct (upto_last cl s) as [p|] eqn:E; [eexists; reflexivity|].
    exfalso. apply upto_last_none_inv in E.
    apply orb_true_iff in H as [H|H]; [rewrite E in H; discriminate|].
    apply has_pair_has_close in H. congruence.
  - exact (IH H).
Qed.

Lemma has_pair_app_l op cl a b : has_pair op cl a = true -> has_pair op cl (a ++ b) = true.
Proof.
  induction a as [|x a IH]; cbn; [discriminate|].
  intros H. apply orb_true_iff in H as [H|H].
  - apply andb_prop in H as [H1 H2]. rewrite H1, existsb_app, H2. reflexivity.
  - rewrite IH by exact H. apply orb_true_r.
Qed.

Lemma strip_infix_self s : infix (strip s) s.
Proof. apply infix_strip. Qed.

Ltac nonspace := vm_compute; reflexivity.

(** X1: [extract_json] only cuts: its result is a contiguous piece of its
    argument. *)
Theorem extract_json_infix (s : text) : infix (extract_json s) s.
Proof.
  unfold extract_json. set (t := strip s).
  assert (Ht : infix t s) by apply infix_strip.
  destruct (startswith (T "```") t).
  - eapply infix_trans; [apply infix_strip|]. eapply infix_trans; [|exact Ht].
    set (u := lstrip (strip_char "`"%char t)).
    assert (Hu : infix u t).
    { eapply infix_trans; [apply infix_lstrip|apply infix_strip_char]. }
    destruct (startswith (T "json") (lower u)); [|exact Hu].
    eapply infix_trans; [apply infix_lstrip|]. eapply infix_trans; [apply infix_skipn|exact Hu].
  - destruct (startswith (T "`") t && endswith (T "`") t).
    + eapply infix_trans; [apply infix_strip|]. eapply infix_trans; [apply infix_strip_char|exact Ht].
    + destruct (regex_span "{"%char "}"%char t) as [m|] eqn:R1.
      * eapply infix_trans; [apply (proj1 (regex_span_shape _ _ _ _ R1))|exact Ht].
      * destruct (regex_span "["%char "]"%char t) as [m|] eqn:R2; [|exact Ht].
        eapply infix_trans; [apply (proj1 (regex_span_shape _ _ _ _ R2))|exact Ht].
Qed.

(** X2: [extract_json] never returns text with leading or trailing
    whitespace: its result is a fixed point of [str.strip]. *)
Theorem extract_json_stripped (s : text) : strip (extract_json s) = extract_json s.
Proof.
  unfold extract_json. set (t := strip s).
  destruct (startswith (T "```") t); [apply strip_idem|].
  destruct (startswith (T "`") t && endswith (T "`") t); [apply strip_idem|].
  destruct (regex_span "{"%char "}"%char t) as [m|] eqn:R1.
  - destruct (proj2 (regex_span_shape _ _ _ _ R1)) as [x ->].
    apply strip_bracketed; nonspace.
  - destruct (regex_span "["%char "]"%char t) as [m|] eqn:R2; [|apply strip_idem].
    destruct (proj2 (regex_span_shape _ _ _ _ R2)) as [x ->].
    apply strip_bracketed; nonspace.
Qed.

(** X3: a slice [_clean_json_from_text] returns is a contiguous piece of its
    argument that starts with an opening bracket and ends with the matching
    closing one (so it is never empty). *)
Theorem clean_json_slice (s m : text) :
  _clean_json_from_text s = Some m ->
  infix m s /\
  exists x, m = "{"%char :: x ++ ["}"%char] \/ m = "["%char :: x ++ ["]"%char].
Proof.
  intros H. destruct (clean_slice_shape _ _ H) as [Hi Hx].
  split; [eapply infix_trans; [exact Hi|apply infix_strip]|exact Hx].
Qed.

Lemma clean_json_slice_witness :
  _clean_json_from_text (T "Result: {} done") = Some (T "{}") /\
  infix (T "{}") (T "Result: {} done") /\
  exists x, T "{}" = "{"%char :: x ++ ["}"%char] \/ T "{}" = "["%char :: x ++ ["]"%char].
Proof.
  split; [vm_compute; reflexivity|].
  apply (clean_json_slice (T "Result: {} done") (T "{}")). vm_compute. reflexivity.
Defined.

(** X4: [_clean_json_from_text] returns [None] exactly when the stripped
    text has no [{] followed later by a [}] and no [[] followed later by a
    [ ]]. *)
Theorem clean_json_none_iff (s : text) :
  _clean_json_from_text s = None <->
  has_pair "{"%char "}"%char (strip s) = false /\ has_pair "["%char "]"%char (strip s) = false.
Proof.
  unfold _clean_json_from_text. set (t := strip s). split.
  - destruct ((startswith (T "{") t && endswith (T "}") t)
              || (startswith (T "[") t && endswith (T "]") t)); [discriminate|].
    destruct (regex_span "{"%char "}"%char t) as [m|] eqn:R1; [discriminate|].
    intros R2. split.
    + destruct (has_pair "{"%char "}"%char t) eqn:H; [|reflexivity].
      destruct (has_pair_regex_some _ _ _ H) as [m Hm]. congruence.
    + destruct (has_pair "["%char "]"%char t) eqn:H; [|reflexivity].
      destruct (has_pair_regex_some _ _ _ H) as [m Hm]. congruence.
  - intros [H1 H2].
    assert (Hc : (startswith (T "{") t && endswith (T "}") t)
                 || (startswith (T "[") t && endswith (T "]") t) = false).
    { apply orb_false_iff. split.
      - destruct (startswith (T "{") t && endswith (T "}") t) eqn:E; [|reflexivity].
        rewrite (PairFacts.bracketed_has_pair "{"%char "}"%char _ eq_refl E) in H1. discriminate.
      - destruct (startswith (T "[") t && endswith (T "]") t) eqn:E; [|reflexivity].
        rewrite (PairFacts.bracketed_has_pair "["%char "]"%char _ eq_refl E) in H2. discriminate. }
    rewrite Hc, !PairFacts.has_pair_regex_none by assumption. reflexivity.
Qed.

(** X5: on a JSON-looking array that contains an object, the two extractors
    disagree: [_clean_json_from_text] returns the whole array, while
    [extract_json] returns the span from the first [{] to the last [}],
    which is not the array. *)
Theorem extract_json_array_with_object (m : text) :
  has_pair "{"%char "}"%char m = true ->
  let t := "["%char :: m ++ ["]"%char] in
  _clean_json_from_text t = Some t /\
  exists y, extract_json t = "{"%char :: y ++ ["}"%char] /\ extract_json t <> t.
Proof.
  intros H t.
  assert (St : strip t = t) by (apply strip_bracketed; nonspace).
  split.
  - unfold _clean_json_from_text. rewrite St. unfold t.
    replace (startswith (T "[") ("["%char :: m ++ ["]"%char])) with true by reflexivity.
    replace (endswith (T "]") ("["%char :: m ++ ["]"%char])) with true.
    + rewrite orb_true_r. reflexivity.
    + unfold endswith. rewrite app_comm_cons, rev_app_distr. reflexivity.
  - assert (R : regex_span "{"%char "}"%char t = regex_span "{"%char "}"%char (m ++ ["]"%char]))
      by reflexivity.
    destruct (has_pair_regex_some "{"%char "}"%char (m ++ ["]"%char])
                (has_pair_app_l _ _ _ _ H)) as [r Hr].
    destruct (proj2 (regex_span_shape _ _ _ _ Hr)) as [y Hy].
    assert (E : extract_json t = r).
    { unfold extract_json. rewrite St, R, Hr. reflexivity. }
    rewrite E. exists y. split; [exact Hy|]. rewrite Hy. unfold t. discriminate.
Qed.

Lemma extract_json_array_with_object_witness :
  has_pair "{"%char "}"%char (T "{},{}") = true /\
  extract_json (T "[{},{}]") = T "{},{}" /\ Json.loads (T "{},{}") = None /\
  (let t := "["%char :: T "{},{}" ++ ["]"%char] in
   _clean_json_from_text t = Some t /\
   exists y, extract_json t = "{"%char :: y ++ ["}"%char] /\ extract_json t <> t).
Proof.
  split; [reflexivity|]. split; [vm_compute; reflexivity|]. split; [vm_compute; reflexivity|].
  apply (extract_json_array_with_object (T "{},{}")). reflexivity.
Defined.

End SliceFacts.


Module RetryShape.
Import Retry Shapes.

Section Loop.
Variables (func : stub) (ns : bool) (retries : nat).



Lemma attempts_returns (m a : nat) (d : Z) (v : nat) :
  a + m = retries ->
  snd (attempts func ns retries (seq a m) a d) = RReturn v <->
  exists k, a <= k < a + m /\ func k = Returns v /\
    forall j, a <= j < k -> exists e, func j = Raises e /\ retryable e = true /\ ns = true.
Proof.
  revert a d; induction m as [|m IH]; intros a d Hm.
  { split; [discriminate|intros [k [Hk _]]; lia]. }
  cbn [seq attempts].
  assert (First : forall k, a <= k < a + S m -> func k = Returns v ->
            (forall j, a <= j < k -> exists e, func j = Raises e /\ retryable e = true /\ ns = true) ->
            k = a \/ exists e, func a = Raises e /\ retryable e = true /\ ns = true).
  { intros k Hk _ Hj. destruct (Nat.eq_dec k a) as [->|Ne]; [left; reflexivity|].
    right. apply Hj. lia. }
  destruct (func a) as [v0|e] eqn:Fa.
  - split.
    + intros H. injection H as ->. exists a. split; [lia|]. split; [exact Fa|intros j Hj; lia].
    + intros [k [Hk [Fk Hj]]]. destruct (First k Hk Fk Hj) as [->|[e [He _]]]; [|congruence].
      rewrite Fa in Fk. injection Fk as ->. reflexivity.
  - destruct ns eqn:Ens; cbn [negb].
    + destruct (retryable e) eqn:Re.
      * destruct (Nat.eqb_spec a (retries - 1)) as [E|E].
        -- split; [discriminate|]. intros [k [Hk [Fk Hj]]].
           destruct (Nat.eq_dec k a) as [->|Ne]; [congruence|lia].
        -- specialize (IH (S a) (d * 2)%Z ltac:(lia)).
           destruct (attempts _ _ _ _ _ _) as [tr r] eqn:At. cbn in IH |- *.
           rewrite IH. split.
           ++ intros [k [Hk [Fk Hj]]]. exists k. split; [lia|]. split; [exact Fk|].
              intros j Hj'. destruct (Nat.eq_dec j a) as [->|Ne].
              ** exists e. auto.
              ** apply Hj. lia.
           ++ intros [k [Hk [Fk Hj]]].
              destruct (Nat.eq_dec k a) as [->|Ne]; [congruence|].
              exists k. split; [lia|]. split; [exact Fk|]. intros j Hj'. apply Hj. lia.
      * split; [discriminate|]. intros [k [Hk [Fk Hj]]].
        destruct (First k Hk Fk Hj) as [->|[e' [He' [Hr _]]]]; [congruence|].
        injection He' as <-. congruence.
    + split; [discriminate|]. intros [k [Hk [Fk Hj]]].
      destruct (First k Hk Fk Hj) as [->|[e' [_ [_ Hn]]]]; congruence.
Qed.

End Loop.



(** X8: [safe_openai_call] returns [v] exactly when some call [k] among the
    first [retries] returns [v] and every earlier call raised a retryable
    error (rate limit or connection) that the [except] clauses could catch,
    i.e. with the [openai.error] namespace present. *)
Theorem safe_call_returns_iff (func : stub) (ns : bool) (retries : nat) (d : Z) (v : nat) :
  snd (safe_openai_call func ns retries d) = RReturn v <->
  exists k, k < retries /\ func k = Returns v /\
    forall j, j < k -> exists e, func j = Raises e /\ retryable e = true /\ ns = true.
Proof.
  unfold safe_openai_call. rewrite (attempts_returns func ns retries retries 0 d v eq_refl).
  split; intros [k [Hk [Fk Hj]]]; exists k; (split; [lia|]); split; auto;
    intros j Hj'; apply Hj; lia.
Qed.

End RetryShape.


Module AnalyzeShape.
Import Text Json Extract Analyze DefaultsFacts.

(** X9: [analyze_artifacts] sends one or two requests to the backend: always
    the first request built from the artifacts, and possibly one follow-up
    request quoting a raw output. *)
Theorem analyze_request_log (b : backend) (u c m : text) :
  fst (run (analyze_artifacts b u c m)) = [first_request u c m] \/
  exists raw, fst (run (analyze_artifacts b u c m))
              = [first_request u c m; follow_request m raw].
Proof.
  cbv [run analyze_artifacts bind call ret throw raw_of raw2_of fill_defaults parse_slice].
  repeat (cbn [fst snd app length];
          match goal with |- context [match ?x with _ => _ end] =>
            lazymatch type of x with prod _ _ => fail | _ => destruct x end end);
    first [left; reflexivity | right; eexists; reflexivity].
Qed.

(** X10: whenever [analyze_artifacts] returns normally, the value is a dict
    in which the four known keys are present; it never returns a list or a
    scalar. *)
Theorem analyze_returns_dict (b : backend) (u c m : text) (v : json) :
  snd (run (analyze_artifacts b u c m)) = inr v ->
  exists d, v = JObj d /\ forall k, In k known_keys -> lookup k d <> None.
Proof.
  cbv [run analyze_artifacts bind call ret throw raw_of raw2_of fill_defaults parse_slice].
  repeat (cbn [fst snd app length];
          match goal with |- context [match ?x with _ => _ end] =>
            lazymatch type of x with prod _ _ => fail | _ => destruct x end end);
    intros H; try discriminate H; injection H as <-;
    eexists; (split; [reflexivity|]);
    intros k Hk; rewrite lookup_ensure_keys; apply existsb_known in Hk; rewrite Hk;
    match goal with |- match ?x with _ => _ end <> None => destruct x end; discriminate.
Qed.

Lemma analyze_returns_dict_witness :
  snd (run (analyze_artifacts Samples.reprompt_backend [] [] [])) = inr (JObj (ensure_keys [])) /\
  exists d, JObj (ensure_keys []) = JObj d /\ forall k, In k known_keys -> lookup k d <> None.
Proof.
  split; [vm_compute; reflexivity|].
  apply (analyze_returns_dict Samples.reprompt_backend [] [] []). vm_compute. reflexivity.
Defined.

End AnalyzeShape.


Module RepairShape.
Import Text Json Analyze Lexer Shapes.

Section Sub.
Context {A : Type} (eqb : A -> A -> bool).
Hypothesis eqb_refl : forall a, eqb a a = true.

Lemma subseq_refl (s : list A) : subseq eqb s s = true.
Proof. induction s as [|a s IH]; cbn; [reflexivity|]. rewrite eqb_refl. exact IH. Qed.

Lemma subseq_drop_tail (s : list A) :
  (forall a x, subseq eqb (a :: x) s = true -> subseq eqb x s = true) /\
  (forall c x, subseq eqb x s = true -> subseq eqb x (c :: s) = true).
Proof.
  induction s as [|b s [IH3 IH2]].
  - split; [intros a x H; discriminate H|].
    intros c [|a x] H; [reflexivity|discriminate H].
  - assert (L3 : forall a x, subseq eqb (a :: x) (b :: s) = true -> subseq eqb x (b :: s) = true).
    { intros a x H. cbn in H. destruct (eqb a b).
      - apply IH2, H.
      - apply IH2, (IH3 a), H. }
    split; [exact L3|].
    intros c [|a x] H; [reflexivity|]. cbn [subseq]. destruct (eqb a c); [|exact H].
    exact (L3 a x H).
Qed.

Lemma subseq_cons (c : A) x s : subseq eqb x s = true -> subseq eqb x (c :: s) = true.
Proof. apply (proj2 (subseq_drop_tail s)). Qed.

Lemma subseq_both (c : A) x s : subseq eqb x s = true -> subseq eqb (c :: x) (c :: s) = true.
Proof. intros H. cbn. rewrite eqb_refl. exact H. Qed.

Lemma subseq_app_both (p x s : list A) :
  subseq eqb x s = true -> subseq eqb (p ++ x) (p ++ s) = true.
Proof. induction p as [|c p IH]; cbn [app]; [auto|]. intros H. apply subseq_both, IH, H. Qed.

Lemma subseq_skip (p x s : list A) : subseq eqb x s = true -> subseq eqb x (p ++ s) = true.
Proof. induction p as [|c p IH]; cbn [app]; [auto|]. intros H. apply subseq_cons, IH, H. Qed.

End Sub.

Lemma sub_go_only_deletes cl s : forall pend,
  let orig := match pend with Some b => rev b | None => [] end ++ s in
  (forall b, pend = Some b -> filter kept b = []) ->
  subseq Ascii.eqb (sub_go cl pend s) orig = true /\
  filter kept (sub_go cl pend s) = filter kept orig.
Proof.
  induction s as [|c r IH]; intros pend orig Hp; subst orig.
  - destruct pend as [b|]; cbn [sub_go app]; rewrite ?app_nil_r;
      (split; [first [reflexivity|apply subseq_refl, Ascii.eqb_refl]|reflexivity]).
  - destruct pend as [b|].
    + specialize (Hp b eq_refl). cbn [sub_go].
      destruct (py_isspace c) eqn:Es.
      * destruct (IH (Some (c :: b))) as [S1 S2].
        { intros b' E. injection E as <-. cbn. unfold kept at 1. rewrite Es, orb_true_r.
          exact Hp. }
        cbn [rev] in S1, S2. rewrite <- app_assoc in S1, S2. split; assumption.
      * destruct (Ascii.eqb c cl) eqn:Ec.
        -- apply Ascii.eqb_eq in Ec; subst cl.
           destruct (IH None) as [S1 S2]; [discriminate|]. cbn [app] in S1, S2.
           split.
           ++ apply subseq_skip, subseq_both, S1; apply Ascii.eqb_refl.
           ++ rewrite filter_app, filter_rev, Hp. cbn [rev app filter].
              destruct (kept c); [f_equal|]; exact S2.
        -- assert (T1 : forall y, subseq Ascii.eqb y (c :: r) = true ->
                     subseq Ascii.eqb (rev b ++ y) (rev b ++ c :: r) = true).
           { intros y. apply subseq_app_both, Ascii.eqb_refl. }
           destruct (Ascii.eqb c ","%char) eqn:Ecomma.
           ++ destruct (IH (Some [c])) as [S1 S2].
              { intros b' E. injection E as <-. cbn. unfold kept. rewrite Ecomma. reflexivity. }
              cbn [rev app] in S1, S2. split; [apply T1, S1|].
              rewrite !filter_app, S2. reflexivity.
           ++ destruct (IH None) as [S1 S2]; [discriminate|]. cbn [app] in S1, S2.
              split; [apply T1, subseq_both, S1; apply Ascii.eqb_refl|].
              rewrite !filter_app. f_equal. cbn [filter]. destruct (kept c); [f_equal|]; exact S2.
    + cbn [sub_go app]. destruct (Ascii.eqb c ","%char) eqn:Ecomma.
      * destruct (IH (Some [c])) as [S1 S2].
        { intros b' E. injection E as <-. cbn. unfold kept. rewrite Ecomma. reflexivity. }
        cbn [rev app] in S1, S2. split; [exact S1|]. rewrite S2. reflexivity.
      * destruct (IH None) as [S1 S2]; [discriminate|]. cbn [app] in S1, S2.
        split; [apply subseq_both, S1; apply Ascii.eqb_refl|].
        cbn [filter]. destruct (kept c); [f_equal|]; exact S2.
Qed.

Lemma sub_comma_only_deletes cl s :
  subseq Ascii.eqb (sub_comma cl s) s = true /\
  filter kept (sub_comma cl s) = filter kept s.
Proof. apply (sub_go_only_deletes cl s None). discriminate. Qed.

Lemma subseq_trans (x y s : list ascii) :
  subseq Ascii.eqb x y = true -> subseq Ascii.eqb y s = true -> subseq Ascii.eqb x s = true.
Proof.
  revert x y; induction s as [|c s IH]; intros x y H1 H2.
  - destruct y; [destruct x; [reflexivity|discriminate]|discriminate].
  - destruct y as [|b y].
    + destruct x; [reflexivity|discriminate].
    + cbn in H2. destruct (Ascii.eqb b c) eqn:Ebc.
      * apply Ascii.eqb_eq in Ebc; subst b.
        destruct x as [|a x]; [reflexivity|]. cbn in H1 |- *.
        destruct (Ascii.eqb a c) eqn:Eac; [exact (IH _ _ H1 H2)|].
        apply (IH _ y); [exact H1|exact H2].
      * apply subseq_cons. apply (IH x (b :: y)); assumption.
Qed.

(** X11: the trailing-comma repair of [analyze_artifacts] only deletes
    characters, and only commas and whitespace: its result is a subsequence
    of its argument with every other character kept, in order.  A text in
    which neither pattern matches is returned unchanged. *)
Theorem repair_only_deletes (s : Text.text) :
  subseq Ascii.eqb (repair s) s = true /\
  filter kept (repair s) = filter kept s /\
  (comma_close "}"%char s = false -> comma_close "]"%char s = false -> repair s = s).
Proof.
  unfold repair.
  destruct (sub_comma_only_deletes "}"%char s) as [A1 A2].
  destruct (sub_comma_only_deletes "]"%char (sub_comma "}"%char s)) as [B1 B2].
  split; [eapply subseq_trans; eassumption|]. split; [congruence|].
  intros H1 H2. unfold sub_comma.
  rewrite (proj1 (RepairFacts.sub_go_nomatch _ _ H1)).
  exact (proj1 (RepairFacts.sub_go_nomatch _ _ H2)).
Qed.

End RepairShape.


Module FallbackFacts.
Import Json Enrich DictFacts EnrichFacts.

Lemma dict_set_same k v d : lookup k d = Some v -> dict_set k v d = d.
Proof.
  induction d as [|[k0 v0] d IH]; cbn; [discriminate|].
  destruct (key_eqb k k0) eqn:E.
  - intros H. injection H as ->. apply key_eqb_spec in E; subst k0. reflexivity.
  - intros H. rewrite (IH H). reflexivity.
Qed.

Lemma zprefix_app p x : zprefix p (p ++ x) = true.
Proof. induction p as [|a p IH]; cbn; [reflexivity|]. rewrite Z.eqb_refl. exact IH. Qed.

Lemma contains_pre x : contains (K "<pre>") (K "<pre>" ++ x) = true.
Proof.
  destruct (K "<pre>" ++ x) eqn:E; [discriminate|].
  cbn [contains]. rewrite <- E, zprefix_app. reflexivity.
Qed.

Lemma mc_rat : K "missing_coverage" <> K "rationale".
Proof. discriminate. Qed.

(** An item whose [missing_coverage] is a string holding [<pre>] is returned
    unchanged. *)
Lemma fallback_formatted (d : list (key * json)) x :
  get (K "missing_coverage") JNull d = JStr (K "<pre>" ++ x) ->
  enforce_formatting_fallback d = Some d.
Proof.
  intros H. unfold enforce_formatting_fallback. rewrite H, contains_pre. reflexivity.
Qed.

Lemma get_mc_set2 (d : list (key * json)) v1 v2 :
  get (K "missing_coverage") JNull
    (dict_set (K "rationale") v2 (dict_set (K "missing_coverage") v1 d)) = v1.
Proof.
  unfold get. rewrite !lookup_dict_set. rewrite key_eqb_refl.
  replace (key_eqb (K "missing_coverage") (K "rationale")) with false by reflexivity.
  reflexivity.
Qed.

Lemma format_then_fallback (d : list (key * json)) cov miss rat :
  enforce_formatting_fallback (format_missing_coverage_for_html d cov miss rat)
  = Some (format_missing_coverage_for_html d cov miss rat).
Proof.
  eapply fallback_formatted. unfold format_missing_coverage_for_html.
  rewrite get_mc_set2. reflexivity.
Qed.

(** X12: in [enrich_test_plan] the fallback pass never changes an item:
    [format_missing_coverage_for_html] always writes a [missing_coverage]
    string that holds [<pre>], so [enforce_formatting_fallback] returns the
    formatted item as it is, whatever the model returned. *)
Theorem fallback_after_format (d : list (key * json)) cov miss rat :
  enforce_formatting_fallback (format_missing_coverage_for_html d cov miss rat)
  = Some (format_missing_coverage_for_html d cov miss rat).
Proof. apply format_then_fallback. Qed.

(** X13: [enforce_formatting_fallback] is idempotent: an item it returns is
    already formatted and is returned unchanged by a second call. *)
Theorem fallback_idempotent (d d' : list (key * json)) :
  enforce_formatting_fallback d = Some d' -> enforce_formatting_fallback d' = Some d'.
Proof.
  intros E. pose proof E as E0. unfold enforce_formatting_fallback in E.
  destruct (match get (K "missing_coverage") JNull d with
            | JStr mc => contains (K "<pre>") mc | _ => false end).
  - injection E as <-. exact E0.
  - destruct (raw_field (K "missing_coverage") d), (raw_field (K "rationale") d);
      try discriminate.
    injection E as <-. eapply fallback_formatted. rewrite get_mc_set2. reflexivity.
Qed.

Lemma fallback_idempotent_witness :
  let d := [(K "missing_coverage", JNum (Text.T "1e-400"))] in
  enforce_formatting_fallback d <> None /\
  forall d', enforce_formatting_fallback d = Some d' ->
             enforce_formatting_fallback d' = Some d'.
Proof.
  intros d. split; [vm_compute; discriminate|].
  intros d' H. exact (fallback_idempotent d d' H).
Defined.

Lemma raw_field_none k d :
  raw_field k d = None <->
  truthy (get k JNull d) = true /\ forall s, get k JNull d <> JStr s.
Proof.
  unfold raw_field. destruct (get k JNull d) as [|b|lx|s|items|f]; cbn [truthy];
    repeat match goal with |- context [match ?c with _ => _ end] => destruct c end;
    cbn; split; intros H; try discriminate H;
    try (destruct H as [H1 H2]; first [discriminate H1 | exfalso; eapply H2; reflexivity
                                      | reflexivity]);
    try (split; [reflexivity|intros ? E; discriminate E]).
Qed.

(** X14: [enforce_formatting_fallback] raises exactly when the item is not
    already formatted and its [missing_coverage] or [rationale] holds a
    truthy value that is not a string (a non-empty list or dict, [true], a
    number that is not zero after [int] or [float] conversion): [.strip()]
    is then an [AttributeError]. *)
Theorem fallback_raises_iff (d : list (key * json)) :
  enforce_formatting_fallback d = None <->
  (forall mc, get (K "missing_coverage") JNull d = JStr mc ->
              contains (K "<pre>") mc = false) /\
  exists k, (k = K "missing_coverage" \/ k = K "rationale") /\
    truthy (get k JNull d) = true /\ forall s, get k JNull d <> JStr s.
Proof.
  unfold enforce_formatting_fallback.
  set (f := match get (K "missing_coverage") JNull d with
            | JStr mc => contains (K "<pre>") mc | _ => false end).
  assert (Hf : f = false <-> forall mc, get (K "missing_coverage") JNull d = JStr mc ->
                                 contains (K "<pre>") mc = false).
  { unfold f. destruct (get (K "missing_coverage") JNull d); split; intros H;
      try reflexivity; try (intros mc E; discriminate E); try (intros; exact H);
      try (apply H; reflexivity);
      try (intros mc E; injection E as <-; exact H). }
  destruct f eqn:Ef.
  - split; [discriminate|]. intros [H _]. apply Hf in H. discriminate.
  - split.
    + intros H. split; [apply Hf; reflexivity|].
      destruct (raw_field (K "missing_coverage") d) eqn:R1.
      * destruct (raw_field (K "rationale") d) eqn:R2; [discriminate|].
        exists (K "rationale"). split; [right; reflexivity|]. apply raw_field_none, R2.
      * exists (K "missing_coverage"). split; [left; reflexivity|]. apply raw_field_none, R1.
    + intros [_ [k [[->| ->] Hk]]]; apply raw_field_none in Hk; rewrite Hk;
        [reflexivity|]. destruct (raw_field (K "missing_coverage") d); reflexivity.
Qed.

End FallbackFacts.


Module EnrichIdem.
Import Json Enrich DictFacts EnrichFacts FallbackFacts.

Lemma format_twice (d : list (key * json)) cov miss rat :
  format_missing_coverage_for_html (format_missing_coverage_for_html d cov miss rat) cov miss rat
  = format_missing_coverage_for_html d cov miss rat.
Proof.
  unfold format_missing_coverage_for_html at 1.
  set (f := format_missing_coverage_for_html d cov miss rat).
  rewrite (dict_set_same (K "missing_coverage")).
  - apply dict_set_same. unfold f, format_missing_coverage_for_html.
    rewrite lookup_dict_set, key_eqb_refl. reflexivity.
  - unfold f, format_missing_coverage_for_html. rewrite !lookup_dict_set, key_eqb_refl.
    replace (key_eqb (K "missing_coverage") (K "rationale")) with false by reflexivity.
    reflexivity.
Qed.

Lemma enrich_item_idem (it it' : json) :
  enrich_item it = Some it' -> enrich_item it' = Some it'.
Proof.
  intros H. destruct it as [| | | | |d]; try discriminate H.
  unfold enrich_item in H |- *.
  destruct (join_steps _) as [steps|] eqn:Js; [|discriminate H].
  destruct (if existsb _ keywords then vcredist_lists else default_lists)
    as [[cov miss] rat] eqn:Ls.
  rewrite format_then_fallback in H. cbn in H. injection H as <-.
  unfold get at 1. rewrite format_frame by discriminate. fold (get (K "test_case_steps") (JArr []) d).
  rewrite Js, Ls, format_twice, format_then_fallback. reflexivity.
Qed.

Lemma enrich_items_idem (items items' : list json) :
  enrich_items items = Some items' -> enrich_items items' = Some items'.
Proof.
  revert items'; induction items as [|it items IH]; cbn; intros items' E.
  - injection E as <-. reflexivity.
  - destruct (enrich_item it) as [it'|] eqn:Ei; [|discriminate].
    destruct (enrich_items items) as [r|] eqn:Er; cbn in E; [|discriminate].
    injection E as <-. cbn. rewrite (enrich_item_idem _ _ Ei), (IH r eq_refl). reflexivity.
Qed.

(** X15: [enrich_test_plan] is idempotent: running it again on a plan it has
    returned gives the same plan back (the formatted texts are recomputed
    from the unchanged [test_case_steps] and written over themselves). *)
Theorem enrich_test_plan_idem (p p' : json) :
  enrich_test_plan p = Some p' -> enrich_test_plan p' = Some p'.
Proof.
  intros E. destruct p as [| | | | |pd]; try discriminate E.
  unfold enrich_test_plan in E.
  destruct (get (K "plan") (JArr []) pd) as [| | |s|items|fd] eqn:G; try discriminate E.
  - destruct s; [|discriminate]. injection E as <-. unfold enrich_test_plan. rewrite G.
    reflexivity.
  - destruct (enrich_items items) as [items'|] eqn:Ei; [|discriminate].
    destruct (lookup (K "plan") pd) eqn:Lp; injection E as <-.
    + unfold enrich_test_plan, get. rewrite lookup_dict_set, key_eqb_refl.
      rewrite (enrich_items_idem _ _ Ei), dict_set_same; [reflexivity|].
      rewrite lookup_dict_set, key_eqb_refl. reflexivity.
    + unfold enrich_test_plan. rewrite G, Ei, Lp. reflexivity.
  - destruct fd; [|discriminate]. injection E as <-. unfold enrich_test_plan. rewrite G.
    reflexivity.
Qed.

Lemma enrich_test_plan_idem_witness :
  enrich_test_plan (JObj Samples.sample_plan) = Some Samples.sample_plan_out /\
  enrich_test_plan Samples.sample_plan_out = Some Samples.sample_plan_out.
Proof.
  assert (E : enrich_test_plan (JObj Samples.sample_plan) = Some Samples.sample_plan_out)
    by (vm_compute; reflexivity).
  split; [exact E|]. exact (enrich_test_plan_idem _ _ E).
Defined.

End EnrichIdem.


Module DumpFacts.
Import Text Json Dump DictFacts JsonFacts ParseFuel.

(** Induction on [json] through the nested lists. *)
Lemma json_nested_ind (P : json -> Prop)
  (Hnull : P JNull) (Hbool : forall b, P (JBool b)) (Hnum : forall l, P (JNum l))
  (Hstr : forall s, P (JStr s)) (Harr : forall l, Forall P l -> P (JArr l))
  (Hobj : forall d, Forall (fun kv => P (snd kv)) d -> P (JObj d)) :
  forall v, P v.
Proof.
  refine (fix IH (v : json) : P v := _).
  destruct v as [|b|l|s|l|d].
  - exact Hnull.
  - apply Hbool.
  - apply Hnum.
  - apply Hstr.
  - apply Harr. induction l as [|x l IHl]; constructor; [apply IH|exact IHl].
  - apply Hobj. induction d as [|[k x] d IHd]; constructor; [apply IH|exact IHd].
Qed.

Lemma escape_cp_scan (u : Z) e t :
  escape_cp u = Some e -> scanstring (e ++ t) = cons_opt u (scanstring t).
Proof.
  intros H. destruct (Z_lt_le_dec u 0) as [Hn|Hp].
  { unfold escape_cp in H. destruct u; try lia; discriminate H. }
  destruct (Z_lt_le_dec u 128) as [Hl|Hg].
  2:{ unfold escape_cp in H.
      repeat (rewrite (proj2 (Z.eqb_neq _ _)) in H by lia).
      rewrite (proj2 (Z.ltb_ge u 32)), (proj2 (Z.ltb_ge u 128)) in H by lia.
      rewrite !andb_false_r in H. discriminate H. }
  rewrite <- (Z2Nat.id u Hp) in H |- *.
  assert (Hn : (Z.to_nat u < 128)%nat) by lia.
  generalize dependent (Z.to_nat u). clear u Hp Hl. intros n.
  do 128 (destruct n as [|n]; [intros H _; injection H as <-; reflexivity|]).
  intros; lia.
Qed.

Lemma escape_all_scan (s : list Z) e R :
  escape_all s = Some e -> scanstring (e ++ dquote :: R) = Some (s, R).
Proof.
  revert e; induction s as [|u s IH]; intros e H; cbn in H.
  - injection H as <-. reflexivity.
  - destruct (escape_cp u) as [e1|] eqn:E1; [|discriminate H].
    destruct (escape_all s) as [e2|] eqn:E2; [|discriminate H].
    injection H as <-. rewrite <- app_assoc, (escape_cp_scan u e1 _ E1), (IH e2 eq_refl).
    reflexivity.
Qed.

Lemma basestring_scan (s : list Z) t :
  encode_basestring s = Some t ->
  exists e, t = dquote :: e ++ [dquote] /\ forall R, scanstring (e ++ dquote :: R) = Some (s, R).
Proof.
  unfold encode_basestring. destruct (escape_all s) as [e|] eqn:E; [|discriminate].
  intros H. injection H as <-. exists e. split; [reflexivity|].
  intros R. apply escape_all_scan, E.
Qed.

Lemma encode_items_eq lvl x xs :
  encode lvl (JArr (x :: xs)) =
  match encode_items (S lvl) (x :: xs) with
  | Some parts =>
      Some ("["%char :: (nlc :: spaces (2 * S lvl)) ++
            tjoin (","%char :: nlc :: spaces (2 * S lvl)) parts ++
            nlc :: spaces (2 * lvl) ++ ["]"%char])
  | None => None
  end.
Proof.
  cbn [encode encode_items].
  match goal with |- match match _ with Some _ => match ?F xs with _ => _ end | None => _ end
                     with _ => _ end = _ =>
    assert (E : forall l, F l = encode_items (S lvl) l);
    [intros l; induction l as [|y l IH]; [reflexivity|];
     cbn [encode_items]; rewrite <- IH; reflexivity|rewrite E; reflexivity] end.
Qed.

Lemma encode_fields_eq lvl kx d :
  encode lvl (JObj (kx :: d)) =
  match encode_fields (S lvl) (kx :: d) with
  | Some parts =>
      Some ("{"%char :: (nlc :: spaces (2 * S lvl)) ++
            tjoin (","%char :: nlc :: spaces (2 * S lvl)) parts ++
            nlc :: spaces (2 * lvl) ++ ["}"%char])
  | None => None
  end.
Proof.
  destruct kx as [k x]. cbn [encode encode_fields].
  match goal with |- match match _ with Some _ => match _ with Some _ => match ?F d with _ => _ end
                     | None => _ end | None => _ end with _ => _ end = _ =>
    assert (E : forall l, F l = encode_fields (S lvl) l);
    [intros l; induction l as [|[k0 y] l IH]; [reflexivity|];
     cbn [encode_fields]; rewrite <- IH; reflexivity|rewrite E; reflexivity] end.
Qed.

(** The text of a value starts with a character that is not whitespace and
    closes no container. *)
Lemma encode_head lvl v t :
  encode lvl v = Some t ->
  exists c t', t = c :: t' /\ is_ws c = false /\ Ascii.eqb c "]"%char = false /\
               Ascii.eqb c "}"%char = false.
Proof.
  intros H.
  assert (Hd : exists c t', t = c :: t' /\ In c ["n"%char; "t"%char; "f"%char; dquote;
                                                "["%char; "{"%char]).
  { destruct v as [|[]|l|s|[|x xs]|[|kx d]].
    1-3, 6, 8: cbn in H; injection H as <-; do 2 eexists; split; [reflexivity|cbn; tauto].
    - discriminate H.
    - cbn in H. unfold encode_basestring in H. destruct (escape_all s); [|discriminate].
      injection H as <-. do 2 eexists; split; [reflexivity|cbn; tauto].
    - rewrite encode_items_eq in H. destruct (encode_items _ _); [|discriminate].
      injection H as <-. do 2 eexists; split; [reflexivity|cbn; tauto].
    - rewrite encode_fields_eq in H. destruct (encode_fields _ _); [|discriminate].
      injection H as <-. do 2 eexists; split; [reflexivity|cbn; tauto]. }
  destruct Hd as [c [t' [-> Hc]]]. exists c, t'. split; [reflexivity|].
  cbn in Hc. repeat destruct Hc as [<-|Hc]; [..|contradiction]; auto.
Qed.

Lemma ws_indent n : forallb is_ws (nlc :: spaces n) = true.
Proof. induction n as [|n IH]; [reflexivity|exact IH]. Qed.

Lemma skip_ws_nonspace c t : is_ws c = false -> skip_ws (c :: t) = c :: t.
Proof. intros H. cbn. rewrite H. reflexivity. Qed.

Lemma skip_indent n s : skip_ws ((nlc :: spaces n) ++ s) = skip_ws s.
Proof. apply skip_ws_app, ws_indent. Qed.

Lemma fuel_scan n s v r :
  scan_once n s = Some (v, r) -> forall m, length s <= m -> scan_once m s = Some (v, r).
Proof. intros H m Hm. apply (proj1 (parse_fuel n) s v r H). lia. Qed.

Lemma fuel_items n s acc v r :
  parse_items n s acc = Some (v, r) -> forall m, length s <= m ->
  parse_items m s acc = Some (v, r).
Proof. intros H m Hm. apply (proj1 (proj2 (parse_fuel n)) s acc v r H). lia. Qed.

Lemma fuel_members n s acc v r :
  parse_members n s acc = Some (v, r) -> forall m, length s <= m ->
  parse_members m s acc = Some (v, r).
Proof. intros H m Hm. apply (proj2 (proj2 (parse_fuel n)) s acc v r H). lia. Qed.

Lemma nodup_absent (l1 l2 : list key) k :
  keys_nodup (l1 ++ k :: l2) = true -> existsb (key_eqb k) l1 = false.
Proof.
  induction l1 as [|a l1 IH]; cbn; [reflexivity|].
  intros H. apply andb_prop in H as [H1 H2]. rewrite (IH H2), orb_false_r.
  apply negb_true_iff in H1. rewrite existsb_app in H1. cbn in H1.
  destruct (key_eqb k a) eqn:E; [|reflexivity].
  apply key_eqb_spec in E; subst a. rewrite key_eqb_refl, orb_true_r in H1.
  discriminate H1.
Qed.

Lemma lookup_absent k (acc : list (key * json)) :
  existsb (key_eqb k) (map fst acc) = false -> lookup k acc = None.
Proof.
  induction acc as [|[k0 v0] acc IH]; cbn; [reflexivity|].
  intros H. apply orb_false_iff in H as [H1 H2]. rewrite H1. apply IH, H2.
Qed.

Lemma encode_items_cons lvl x l :
  encode_items lvl (x :: l) =
  match encode lvl x, encode_items lvl l with
  | Some a, Some b => Some (a :: b)
  | _, _ => None
  end.
Proof. reflexivity. Qed.

Lemma encode_fields_cons lvl k x l :
  encode_fields lvl ((k, x) :: l) =
  match encode_basestring k, encode lvl x, encode_fields lvl l with
  | Some ek, Some a, Some b => Some ((ek ++ T ": " ++ a) :: b)
  | _, _, _ => None
  end.
Proof. reflexivity. Qed.

Lemma items_parse lvl (xs : list json) : forall x parts acc R,
  Forall (fun y => parses (S lvl) y) (x :: xs) ->
  forallb dict_tree (x :: xs) = true ->
  encode_items (S lvl) (x :: xs) = Some parts ->
  exists n, parse_items n (tjoin (","%char :: nlc :: spaces (2 * S lvl)) parts ++
                           nlc :: spaces (2 * lvl) ++ "]"%char :: R) acc
            = Some (JArr (rev acc ++ x :: xs), R).
Proof.
  induction xs as [|y ys IH]; intros x parts acc R HP HD HE;
    inversion HP as [|? ? Px Pr]; subst; cbn [forallb] in HD;
    apply andb_prop in HD as [Dx Dr]; rewrite encode_items_cons in HE;
    destruct (encode (S lvl) x) as [p|] eqn:Ex; try discriminate HE.
  - injection HE as <-. cbn [tjoin].
    destruct (Px p Ex Dx (nlc :: spaces (2 * lvl) ++ "]"%char :: R)) as [n Hn].
    exists (S (length (p ++ nlc :: spaces (2 * lvl) ++ "]"%char :: R))).
    cbn [parse_items]. rewrite (fuel_scan _ _ _ _ Hn) by lia.
    rewrite app_comm_cons, (skip_indent (2 * lvl) ("]"%char :: R)). cbn.
    reflexivity.
  - destruct (encode_items (S lvl) (y :: ys)) as [ps|] eqn:Eys; [|discriminate HE].
    injection HE as <-.
    destruct (IH y ps (x :: acc) R Pr Dr Eys) as [n2 H2].
    assert (Hps : exists c ps', tjoin (","%char :: nlc :: spaces (2 * S lvl)) ps = c :: ps'
                             /\ is_ws c = false).
    { rewrite encode_items_cons in Eys. destruct (encode (S lvl) y) as [q|] eqn:Ey; [|discriminate].
      destruct (encode_items (S lvl) ys) as [qs|]; [|discriminate]. injection Eys as <-.
      destruct (encode_head _ _ _ Ey) as [c [q' [-> [Hc _]]]].
      exists c. destruct qs; eexists; split; [reflexivity|exact Hc|reflexivity|exact Hc]. }
    destruct Hps as [c [ps' [Eps Hc]]].
    assert (Tj : tjoin (","%char :: nlc :: spaces (2 * S lvl)) (p :: ps) =
                 p ++ (","%char :: nlc :: spaces (2 * S lvl)) ++ c :: ps').
    { destruct ps; [discriminate Eps|]. rewrite <- Eps. reflexivity. }
    rewrite Tj, <- !app_assoc.
    set (tail := nlc :: spaces (2 * lvl) ++ "]"%char :: R) in *.
    set (rest := (","%char :: nlc :: spaces (2 * S lvl)) ++ (c :: ps') ++ tail).
    destruct (Px p Ex Dx rest) as [n1 H1].
    exists (S (length (p ++ rest))). cbn [parse_items].
    rewrite (fuel_scan _ _ _ _ H1) by lia.
    unfold rest at 1. cbn [app]. rewrite skip_ws_nonspace by reflexivity. cbn [Ascii.eqb].
    change (Ascii.eqb "," "]") with false. change (Ascii.eqb "," ",") with true.
    cbn iota beta.
    rewrite app_comm_cons, skip_indent, skip_ws_nonspace by exact Hc.
    rewrite Eps in H2. cbn [rev] in H2. rewrite <- app_assoc in H2. cbn [app] in H2.
    apply (fuel_items _ _ _ _ _ H2).
    unfold rest, tail. repeat progress (rewrite ?length_app; cbn [length]). lia.
Qed.

Lemma skip_ws_enc lvl v t X : encode lvl v = Some t -> skip_ws (t ++ X) = t ++ X.
Proof.
  intros H. destruct (encode_head _ _ _ H) as [c [t' [-> [Hc _]]]].
  apply skip_ws_nonspace, Hc.
Qed.

Lemma members_parse lvl (d : list (key * json)) : forall k x parts acc R,
  Forall (fun kv => parses (S lvl) (snd kv)) ((k, x) :: d) ->
  forallb (fun kv => dict_tree (snd kv)) ((k, x) :: d) = true ->
  keys_nodup (map fst (acc ++ (k, x) :: d)) = true ->
  encode_fields (S lvl) ((k, x) :: d) = Some parts ->
  exists n, parse_members n (tjoin (","%char :: nlc :: spaces (2 * S lvl)) parts ++
                             nlc :: spaces (2 * lvl) ++ "}"%char :: R) acc
            = Some (JObj (acc ++ (k, x) :: d), R).
Proof.
  induction d as [|[k' y] d IH]; intros k x parts acc R HP HD HN HE;
    inversion HP as [|? ? Px Pr]; subst; cbn [forallb] in HD;
    apply andb_prop in HD as [Dx Dr]; cbn [snd] in Dx, Px; rewrite encode_fields_cons in HE;
    destruct (encode_basestring k) as [ek|] eqn:Ek; try discriminate HE;
    destruct (encode (S lvl) x) as [a|] eqn:Ex; try discriminate HE;
    destruct (basestring_scan k ek Ek) as [e [-> Se]];
    (assert (Abs : dict_set k x acc = acc ++ [(k, x)])
      by (apply dict_set_absent, lookup_absent; rewrite map_app in HN; cbn [map fst] in HN;
          exact (nodup_absent _ _ _ HN))).
  - cbn [encode_fields] in HE. injection HE as <-. cbn [tjoin].
    set (tail := nlc :: spaces (2 * lvl) ++ "}"%char :: R).
    destruct (Px a Ex Dx tail) as [n1 H1].
    cbn [app T list_ascii_of_string]. rewrite <- !app_assoc. cbn [app].
    exists (S (length (a ++ tail))). cbn [parse_members].
    rewrite Ascii.eqb_refl, Se, skip_ws_nonspace by reflexivity.
    change (Ascii.eqb ":" ":") with true. cbn iota beta.
    change (skip_ws (" "%char :: a ++ tail)) with (skip_ws (a ++ tail)).
    rewrite (skip_ws_enc _ _ _ _ Ex), (fuel_scan _ _ _ _ H1) by lia.
    unfold tail. rewrite app_comm_cons, skip_indent. cbn. rewrite Abs. reflexivity.
  - destruct (encode_fields (S lvl) ((k', y) :: d)) as [ps|] eqn:Eps; [|discriminate HE].
    injection HE as <-.
    assert (HN' : keys_nodup (map fst ((acc ++ [(k, x)]) ++ (k', y) :: d)) = true)
      by (rewrite <- app_assoc; exact HN).
    destruct (IH k' y ps (acc ++ [(k, x)]) R Pr Dr HN' Eps) as [n2 H2].
    assert (Hps : exists ps', tjoin (","%char :: nlc :: spaces (2 * S lvl)) ps = dquote :: ps').
    { rewrite encode_fields_cons in Eps.
      destruct (encode_basestring k') as [ek'|] eqn:Ek'; [|discriminate].
      destruct (encode (S lvl) y); [|discriminate].
      destruct (encode_fields (S lvl) d) as [qs|]; [|discriminate]. injection Eps as <-.
      destruct (basestring_scan k' ek' Ek') as [e' [-> _]].
      destruct qs; eexists; reflexivity. }
    destruct Hps as [ps' Eps'].
    assert (Tj : forall q, tjoin (","%char :: nlc :: spaces (2 * S lvl)) (q :: ps) =
                 q ++ (","%char :: nlc :: spaces (2 * S lvl)) ++ dquote :: ps').
    { intros q. destruct ps; [discriminate Eps'|]. rewrite <- Eps'. reflexivity. }
    rewrite Tj. rewrite Eps' in H2.
    set (tail := nlc :: spaces (2 * lvl) ++ "}"%char :: R) in *.
    cbn [app T list_ascii_of_string]. rewrite <- !app_assoc. cbn [app].
    rewrite <- !app_assoc. cbn [app].
    set (rest := ","%char :: nlc :: spaces (2 * S lvl) ++ dquote :: ps' ++ tail).
    destruct (Px a Ex Dx rest) as [n1 H1].
    exists (S (length (a ++ rest))). cbn [parse_members].
    rewrite Ascii.eqb_refl, Se, skip_ws_nonspace by reflexivity.
    change (Ascii.eqb ":" ":") with true. cbn iota beta.
    change (skip_ws (" "%char :: a ++ rest)) with (skip_ws (a ++ rest)).
    rewrite (skip_ws_enc _ _ _ _ Ex), (fuel_scan _ _ _ _ H1) by lia.
    unfold rest at 1. cbn [app]. rewrite skip_ws_nonspace by reflexivity.
    change (Ascii.eqb "," "}") with false. change (Ascii.eqb "," ",") with true.
    cbn iota beta.
    rewrite app_comm_cons, skip_indent, skip_ws_nonspace by reflexivity.
    rewrite Abs. rewrite <- app_assoc in H2. cbn [app] in H2.
    apply (fuel_members _ _ _ _ _ H2).
    unfold rest, tail. repeat progress (rewrite ?length_app; cbn [length]). lia.
Qed.

Lemma encode_parses (v : json) : forall lvl, parses lvl v.
Proof.
  induction v as [| b | l | s | l IHl | d IHd] using json_nested_ind;
    intros lvl t H D R.
  - cbn in H. injection H as <-. exists 1. reflexivity.
  - destruct b; cbn in H; injection H as <-; exists 1; reflexivity.
  - discriminate H.
  - cbn [encode] in H. destruct (basestring_scan s t H) as [e [-> Se]].
    exists 1. cbn [app]. rewrite <- app_assoc. cbn [app scan_once].
    rewrite Ascii.eqb_refl, Se. reflexivity.
  - destruct l as [|x xs].
    + cbn in H. injection H as <-. exists 1. reflexivity.
    + rewrite encode_items_eq in H.
      destruct (encode_items (S lvl) (x :: xs)) as [parts|] eqn:Ep; [|discriminate H].
      injection H as <-. cbn [dict_tree] in D.
      assert (HP : Forall (fun y => parses (S lvl) y) (x :: xs))
        by (eapply Forall_impl; [|exact IHl]; intros y Hy; apply Hy).
      destruct (items_parse lvl xs x parts [] R HP D Ep) as [n2 H2].
      assert (Hh : exists c ps', tjoin (","%char :: nlc :: spaces (2 * S lvl)) parts = c :: ps'
                   /\ is_ws c = false /\ Ascii.eqb c "]"%char = false).
      { rewrite encode_items_cons in Ep. destruct (encode (S lvl) x) as [q|] eqn:Ex; [|discriminate].
        destruct (encode_items (S lvl) xs) as [qs|]; [|discriminate]. injection Ep as <-.
        destruct (encode_head _ _ _ Ex) as [c [q' [-> [Hc [Hc2 _]]]]].
        exists c. destruct qs; eexists; (split; [reflexivity|auto]). }
      change (exists n, scan_once n (("["%char :: (nlc :: spaces (2 * S lvl)) ++
                tjoin (","%char :: nlc :: spaces (2 * S lvl)) parts ++
                nlc :: spaces (2 * lvl) ++ ["]"%char]) ++ R) = Some (JArr (x :: xs), R)).
      destruct Hh as [c [ps' [Eh [Hc Hc2]]]]. rewrite Eh in H2 |- *.
      cbn [app]. rewrite <- !app_assoc. cbn [app].
      exists (S (length (c :: ps' ++ nlc :: spaces (2 * lvl) ++ "]"%char :: R))).
      cbn [scan_once]. change (Ascii.eqb "[" dquote) with false.
      change (Ascii.eqb "[" "{") with false. change (Ascii.eqb "[" "[") with true.
      cbn iota beta. rewrite app_comm_cons, skip_indent, skip_ws_nonspace by exact Hc.
      rewrite Hc2. rewrite <- !app_assoc. cbn [app]. rewrite <- !app_assoc. cbn [app].
      cbn [app rev] in H2.
      apply (fuel_items _ _ _ _ _ H2). lia.
  - destruct d as [|[k x] d].
    + cbn in H. injection H as <-. exists 1. reflexivity.
    + rewrite encode_fields_eq in H.
      destruct (encode_fields (S lvl) ((k, x) :: d)) as [parts|] eqn:Ep; [|discriminate H].
      injection H as <-. cbn [dict_tree] in D. apply andb_prop in D as [D1 D2].
      assert (HP : Forall (fun kv => parses (S lvl) (snd kv)) ((k, x) :: d))
        by (eapply Forall_impl; [|exact IHd]; intros y Hy; apply Hy).
      destruct (members_parse lvl d k x parts [] R HP D2 D1 Ep) as [n2 H2].
      assert (Hh : exists ps', tjoin (","%char :: nlc :: spaces (2 * S lvl)) parts = dquote :: ps').
      { rewrite encode_fields_cons in Ep.
        destruct (encode_basestring k) as [ek|] eqn:Ek; [|discriminate].
        destruct (encode (S lvl) x); [|discriminate].
        destruct (encode_fields (S lvl) d) as [qs|]; [|discriminate]. injection Ep as <-.
        destruct (basestring_scan k ek Ek) as [e' [-> _]].
        destruct qs; eexists; reflexivity. }
      change (exists n, scan_once n (("{"%char :: (nlc :: spaces (2 * S lvl)) ++
                tjoin (","%char :: nlc :: spaces (2 * S lvl)) parts ++
                nlc :: spaces (2 * lvl) ++ ["}"%char]) ++ R) = Some (JObj ((k, x) :: d), R)).
      destruct Hh as [ps' Eh]. rewrite Eh in H2 |- *.
      cbn [app]. rewrite <- !app_assoc. cbn [app].
      exists (S (length (dquote :: ps' ++ nlc :: spaces (2 * lvl) ++ "}"%char :: R))).
      cbn [scan_once]. change (Ascii.eqb "{" dquote) with false.
      change (Ascii.eqb "{" "{") with true.
      cbn iota beta. rewrite app_comm_cons, skip_indent, skip_ws_nonspace by reflexivity.
      change (Ascii.eqb dquote "}") with false. cbn iota beta.
      rewrite <- !app_assoc. cbn [app]. rewrite <- !app_assoc. cbn [app]. cbn [app] in H2.
      apply (fuel_members _ _ _ _ _ H2). lia.
Qed.

Lemma dump_then_loads (v : json) (t : text) :
  dump v = Some t -> dict_tree v = true -> loads t = Some v.
Proof.
  intros H D. destruct (encode_parses v 0 t H D []) as [n Hn].
  rewrite app_nil_r in Hn. unfold loads.
  destruct (encode_head _ _ _ H) as [c [t' [Et [Hc _]]]].
  rewrite Et in Hn |- *. rewrite skip_ws_nonspace by exact Hc.
  rewrite (fuel_scan _ _ _ _ Hn) by (cbn [length]; lia). reflexivity.
Qed.

(** X16: [json.dump] followed by [json.load] gives the value back: when
    [json.dump(obj, f, ensure_ascii=False, indent=2)] writes a text for a
    value whose dicts have distinct keys (as every Python dict has), then
    [json.loads] of that text returns the same value, with dict keys in the
    same order. *)
Theorem dump_loads (v : json) (t : text) :
  dump v = Some t -> dict_tree v = true -> loads t = Some v.
Proof. apply dump_then_loads. Qed.

Lemma dump_loads_witness :
  let v := JObj [(K "items", JArr [JStr ([34; 104; 105; 34; 92; 10]%Z ++ K "bye"); JNull; JBool true]);
                 (K "nested", JObj [(K "a", JArr []); (K "b", JObj [])])] in
  exists t, dump v = Some t /\ loads t = Some v.
Proof.
  intros v. eexists. split; [reflexivity|].
  apply dump_loads; reflexivity.
Defined.

End DumpFacts.


Module KnowledgeFacts.
Import Text Json Dump Knowledge DictFacts DumpFacts.

Lemma existsb_dict_set j k v (r : list (key * json)) :
  existsb (key_eqb j) (map fst (dict_set k v r)) = existsb (key_eqb j) (map fst r) || key_eqb j k.
Proof.
  induction r as [|[k0 v0] r IH]; cbn; [apply orb_false_r|].
  destruct (key_eqb k k0) eqn:E; cbn.
  - apply key_eqb_spec in E; subst k0. destruct (key_eqb j k); cbn; [reflexivity|].
    rewrite orb_false_r. reflexivity.
  - rewrite IH, orb_assoc. reflexivity.
Qed.

Lemma key_eqb_sym a b : key_eqb a b = key_eqb b a.
Proof.
  destruct (key_eqb b a) eqn:E.
  - apply key_eqb_spec in E; subst. apply key_eqb_refl.
  - apply key_eqb_false. apply key_eqb_false in E. congruence.
Qed.

Lemma nodup_dict_set k v (acc : list (key * json)) :
  keys_nodup (map fst acc) = true -> keys_nodup (map fst (dict_set k v acc)) = true.
Proof.
  induction acc as [|[k0 v0] acc IH]; cbn; [reflexivity|].
  intros H. apply andb_prop in H as [H1 H2].
  destruct (key_eqb k k0) eqn:E; cbn.
  - rewrite H1, H2. reflexivity.
  - rewrite existsb_dict_set, IH by exact H2. rewrite key_eqb_sym, E, orb_false_r, H1.
    reflexivity.
Qed.

Lemma trees_dict_set k v (acc : list (key * json)) :
  dict_tree v = true -> forallb (fun kv => dict_tree (snd kv)) acc = true ->
  forallb (fun kv => dict_tree (snd kv)) (dict_set k v acc) = true.
Proof.
  intros Hv. induction acc as [|[k0 v0] acc IH]; cbn; [rewrite Hv; reflexivity|].
  intros H. apply andb_prop in H as [H1 H2].
  destruct (key_eqb k k0); cbn; [rewrite Hv, H2; reflexivity|rewrite H1, IH by exact H2; reflexivity].
Qed.

Lemma forallb_rev_tree (l : list json) : forallb dict_tree (rev l) = forallb dict_tree l.
Proof.
  induction l as [|x l IH]; cbn; [reflexivity|].
  rewrite forallb_app, IH. cbn. rewrite andb_true_r, andb_comm. reflexivity.
Qed.

Lemma match_number_tree s v r : match_number s = Some (v, r) -> dict_tree v = true.
Proof.
  unfold match_number.
  destruct (match s with c :: r => if Ascii.eqb c "-"%char then ([c], r) else ([], s)
            | [] => ([], s) end) as [sg s1].
  destruct (match s1 with
            | c :: r => if Ascii.eqb c "0"%char then Some ([c], r)
                        else if is_digit c then let '(ds, r') := digits r in Some (c :: ds, r')
                        else None
            | [] => None end) as [[ip s2]|]; [|discriminate].
  destruct (frac_part s2) as [fp s3]. destruct (exp_part s3) as [ep s4].
  intros H. injection H as <- _. reflexivity.
Qed.

(** Every value that the parser builds has dicts with distinct keys: a
    repeated key overwrites the earlier value in place. *)
Lemma parse_tree n :
  (forall s v r, scan_once n s = Some (v, r) -> dict_tree v = true) /\
  (forall s acc v r, forallb dict_tree acc = true ->
     parse_items n s acc = Some (v, r) -> dict_tree v = true) /\
  (forall s acc v r, keys_nodup (map fst acc) = true ->
     forallb (fun kv => dict_tree (snd kv)) acc = true ->
     parse_members n s acc = Some (v, r) -> dict_tree v = true).
Proof.
  induction n as [|n [IHs [IHi IHm]]]; [split; [|split]; intros; discriminate|].
  split; [|split].
  - intros s v r H. destruct s as [|c s]; [discriminate|]. cbn [scan_once] in H.
    destruct (Ascii.eqb c dquote).
    { destruct (scanstring s) as [[x r']|]; [|discriminate]. injection H as <- _. reflexivity. }
    destruct (Ascii.eqb c "{"%char).
    { destruct (skip_ws s) as [|c' r']; [discriminate|].
      destruct (Ascii.eqb c' "}"%char); [injection H as <- _; reflexivity|].
      exact (IHm _ [] _ _ eq_refl eq_refl H). }
    destruct (Ascii.eqb c "["%char).
    { destruct (skip_ws s) as [|c' r']; [discriminate|].
      destruct (Ascii.eqb c' "]"%char); [injection H as <- _; reflexivity|].
      exact (IHi _ [] _ _ eq_refl H). }
    repeat match type of H with
           | (if ?b then _ else _) = _ => destruct b; [injection H as <- _; reflexivity|]
           end.
    exact (match_number_tree _ _ _ H).
  - intros s acc v r Ha H. cbn [parse_items] in H.
    destruct (scan_once n s) as [[x r1]|] eqn:Es; [|discriminate].
    pose proof (IHs _ _ _ Es) as Hx.
    destruct (skip_ws r1) as [|c r2]; [discriminate|].
    destruct (Ascii.eqb c "]"%char).
    + injection H as <- _. cbn [dict_tree]. rewrite forallb_app, forallb_rev_tree, Ha. cbn.
      rewrite Hx. reflexivity.
    + destruct (Ascii.eqb c ","%char); [|discriminate].
      apply (IHi _ (x :: acc) _ _ ltac:(cbn; rewrite Hx, Ha; reflexivity) H).
  - intros s acc v r Hk Ha H. cbn [parse_members] in H.
    destruct s as [|q s]; [discriminate|].
    destruct (Ascii.eqb q dquote); [|discriminate].
    destruct (scanstring s) as [[k r1]|]; [|discriminate].
    destruct (skip_ws r1) as [|c r2]; [discriminate|].
    destruct (Ascii.eqb c ":"%char); [|discriminate].
    destruct (scan_once n (skip_ws r2)) as [[x r3]|] eqn:Es; [|discriminate].
    pose proof (IHs _ _ _ Es) as Hx.
    destruct (skip_ws r3) as [|d r4]; [discriminate|].
    destruct (Ascii.eqb d "}"%char).
    + injection H as <- _. cbn [dict_tree].
      rewrite nodup_dict_set, trees_dict_set by assumption. reflexivity.
    + destruct (Ascii.eqb d ","%char); [|discriminate].
      refine (IHm _ (dict_set k x acc) _ _ _ _ H);
        [apply nodup_dict_set, Hk|apply trees_dict_set; assumption].
Qed.

Lemma loads_tree s v : loads s = Some v -> dict_tree v = true.
Proof.
  unfold loads. destruct (scan_once _ _) as [[x r]|] eqn:E; [|discriminate].
  destruct (skip_ws r); [|discriminate]. intros H. injection H as <-.
  exact (proj1 (parse_tree _) _ _ _ E).
Qed.

Lemma lookup_tree k (d : list (key * json)) v :
  forallb (fun kv => dict_tree (snd kv)) d = true -> lookup k d = Some v -> dict_tree v = true.
Proof.
  induction d as [|[k0 v0] d IH]; cbn; [discriminate|].
  intros H. apply andb_prop in H as [H1 H2].
  destruct (key_eqb k k0); [intros E; injection E as <-; exact H1|exact (IH H2)].
Qed.

Lemma load_knowledge_tree file : dict_tree (load_knowledge file) = true.
Proof.
  destruct file as [s|]; [|reflexivity]. cbn [load_knowledge].
  destruct (loads s) as [v|] eqn:E; [|reflexivity].
  pose proof (loads_tree _ _ E) as T.
  destruct v as [| | | | |d]; try reflexivity.
  cbn [dict_tree] in T. apply andb_prop in T as [_ T].
  unfold Enrich.get. destruct (lookup (K "items") d) eqn:L; [|reflexivity].
  exact (lookup_tree _ _ _ T L).
Qed.

Lemma save_then_load (items : list json) (t : text) :
  save_knowledge items = Some t -> forallb dict_tree items = true ->
  load_knowledge (Some t) = JArr items.
Proof.
  intros H D. unfold load_knowledge.
  rewrite (dump_then_loads _ _ H) by (cbn; rewrite D; reflexivity). reflexivity.
Qed.

Lemma add_then_load (file : option text) (x : list Z) (t : text) :
  add_knowledge file x = inr t ->
  exists items, load_knowledge file = JArr items /\
                load_knowledge (Some t) = JArr (items ++ [JStr x]).
Proof.
  unfold add_knowledge. pose proof (load_knowledge_tree file) as T.
  destruct (load_knowledge file) as [| | | |items|]; try discriminate.
  destruct (save_knowledge (items ++ [JStr x])) as [t'|] eqn:S; [|discriminate].
  intros H. injection H as <-. exists items. split; [reflexivity|].
  apply save_then_load; [exact S|]. cbn in T. rewrite forallb_app, T. reflexivity.
Qed.

(** X17: for items holding no numbers and only ASCII text ([dump] leaves
    other values out), [load_knowledge] reads back what [save_knowledge]
    writes: after
    [save_knowledge(items)] has written its file, [load_knowledge()]
    returns [items]. *)
Theorem save_load_knowledge (items : list json) (t : text) :
  save_knowledge items = Some t -> forallb dict_tree items = true ->
  load_knowledge (Some t) = JArr items.
Proof. apply save_then_load. Qed.

Lemma save_load_knowledge_witness :
  let items := [JStr (K "[URL http://x]"); JObj [(K "a", JNull)]] in
  exists t, save_knowledge items = Some t /\ load_knowledge (Some t) = JArr items.
Proof.
  intros items. eexists. split; [reflexivity|].
  apply save_load_knowledge; reflexivity.
Defined.

(** X18: for knowledge holding no numbers and only ASCII text ([dump]
    leaves other values out), [add_knowledge(text)] appends: when it writes
    the file, the items
    that [load_knowledge()] returns afterwards are the ones it returned
    before, followed by [text]. *)
Theorem add_knowledge_appends (file : option text) (x : list Z) (t : text) :
  add_knowledge file x = inr t ->
  exists items, load_knowledge file = JArr items /\
                load_knowledge (Some t) = JArr (items ++ [JStr x]).
Proof. apply add_then_load. Qed.

Lemma add_knowledge_appends_witness :
  let q := String "034"%char EmptyString in
  let file := Some (T ("{" ++ q ++ "items" ++ q ++ ": [" ++ q ++ "a" ++ q ++ "], " ++
                       q ++ "other" ++ q ++ ": 1}")) in
  exists t, add_knowledge file (K "b") = inr t /\
    exists items, load_knowledge file = JArr items /\
                  load_knowledge (Some t) = JArr (items ++ [JStr (K "b")]).
Proof.
  intros q file. eexists. split; [reflexivity|].
  apply add_knowledge_appends. reflexivity.
Defined.

(** X19: a knowledge file that [json.load] cannot read as a dict (not JSON,
    a list, a string, ...) counts as empty: [add_knowledge(text)] then
    overwrites it with a file whose only item is [text], and the earlier
    content is lost. *)
Theorem add_knowledge_unreadable (s : text) (x : list Z) (t : text) :
  (forall d, loads s <> Some (JObj d)) ->
  add_knowledge (Some s) x = inr t ->
  load_knowledge (Some t) = JArr [JStr x].
Proof.
  intros Hs H. destruct (add_then_load _ _ _ H) as [items [E1 E2]].
  rewrite E2. cbn [load_knowledge] in E1.
  destruct (loads s) as [[| | | | |d]|]; try (injection E1 as <-; reflexivity).
  exfalso. exact (Hs d eq_refl).
Qed.

Lemma add_knowledge_unreadable_witness :
  let s := T "[1, 2" in
  (forall d, loads s <> Some (JObj d)) /\
  exists t, add_knowledge (Some s) (K "new") = inr t /\
            load_knowledge (Some t) = JArr [JStr (K "new")].
Proof.
  intros s. assert (Hs : forall d, loads s <> Some (JObj d)) by (intros d; vm_compute; discriminate).
  split; [exact Hs|]. eexists. split; [reflexivity|].
  apply (add_knowledge_unreadable s); [exact Hs|reflexivity].
Defined.

End KnowledgeFacts.


Module AgentFacts.
Import Text Json Dump AgentModel DumpFacts.

Lemma msg_tree r c : dict_tree (msg r c) = true.
Proof. reflexivity. Qed.

Lemma handle_ok b a u sm s' reply a' :
  handle b a u sm = (s', inr (reply, a')) ->
  exists c mem,
    b (msg (T "system") (system_prompt a) ::
       (match sm with Some l => l | None => [] end) ++ [msg (T "user") u])
      = AContent (Some c) /\
    reply = strip c /\
    memory a = JArr mem /\
    s' = (match sm with Some l => l | None => [] end) ++
         [msg (T "user") u; msg (T "assistant") reply] /\
    memory a' = JArr (mem ++ s') /\
    system_prompt a' = system_prompt a /\
    exists f, dump (memory a') = Some f /\ memory_file a' = Some f.
Proof.
  unfold handle. set (sess := match sm with Some l => l | None => [] end).
  destruct (b _) as [|[c|]] eqn:B; try discriminate.
  destruct (memory a) as [| | | |mem|] eqn:M; try discriminate.
  destruct (dump (JArr (mem ++ (sess ++ [msg (T "user") u]) ++
                        [msg (T "assistant") (strip c)]))) as [f|] eqn:D; [|discriminate].
  intros H. injection H as <- <- <-. exists c, mem.
  rewrite <- app_assoc in *. cbn [app] in *.
  repeat split; try reflexivity. exists f. split; [exact D|reflexivity].
Qed.

(** X20: for a memory and session holding no numbers and only ASCII text
    ([dump] leaves other values out), a successful [handle] extends
    [self.memory] by the whole session
    list, earlier turns included, ending with the new user message and the
    reply; it saves the memory so that [load_memory] on the file gives the
    new memory back. *)
Theorem handle_saves_memory (b : completions) (a : agent) (u : text)
    (sm : option (list json)) (s' : list json) (reply : text) (a' : agent) :
  handle b a u sm = (s', inr (reply, a')) ->
  dict_tree (memory a) = true ->
  forallb dict_tree (match sm with Some l => l | None => [] end) = true ->
  exists mem, memory a = JArr mem /\
    s' = (match sm with Some l => l | None => [] end) ++
         [msg (T "user") u; msg (T "assistant") reply] /\
    memory a' = JArr (mem ++ s') /\
    load_memory (memory_file a') = memory a'.
Proof.
  intros H Dm Ds. destruct (handle_ok _ _ _ _ _ _ _ H) as [c [mem [_ [_ [Ma [Es [Ma' [_ F]]]]]]]].
  exists mem. split; [exact Ma|]. split; [exact Es|]. split; [exact Ma'|].
  destruct F as [f [Dt Ff]]. rewrite Ff. unfold load_memory.
  rewrite (dump_then_loads _ _ Dt); [reflexivity|].
  rewrite Ma'. rewrite Ma in Dm. cbn [dict_tree] in Dm |- *.
  rewrite forallb_app, Dm, Es, forallb_app, Ds. reflexivity.
Qed.

Lemma handle_saves_memory_witness :
  let b : completions := fun _ => AContent (Some (T "  hello  ")) in
  let a := init (T "sys") (Some (T "[]")) in
  exists s' reply a', handle b a (T "hi") (Some []) = (s', inr (reply, a')) /\
    exists mem, memory a = JArr mem /\
      s' = [] ++ [msg (T "user") (T "hi"); msg (T "assistant") reply] /\
      memory a' = JArr (mem ++ s') /\ load_memory (memory_file a') = memory a'.
Proof.
  intros b a. do 3 eexists. split; [reflexivity|].
  apply (handle_saves_memory b a (T "hi") (Some [])); reflexivity.
Defined.

(** X21: for a memory and messages holding no numbers and only ASCII text
    ([dump] leaves other values out), [k] successful calls of [handle] on
    one session list leave the
    session as its start followed by one user message and one assistant
    message (the reply returned) per call, and add the session after each
    call to the memory: starting from [m0] memory entries and a session of
    [s0] messages the memory ends with [m0 + k*s0 + k*(k+1)] entries. *)
Theorem handle_all_growth (b : completions) (a : agent) (s0 : list json) (inputs : list text)
    (s : list json) (a' : agent) (replies : list text) (m0 : list json) :
  handle_all b a s0 inputs = (s, inr (a', replies)) ->
  memory a = JArr m0 ->
  exists m, memory a' = JArr m /\ length replies = length inputs /\
    s = s0 ++ flat_map (fun ur => [msg (T "user") (fst ur); msg (T "assistant") (snd ur)])
                       (combine inputs replies) /\
    length m = length m0 + length inputs * length s0
               + length inputs * (length inputs + 1).
Proof.
  revert a s0 s a' replies m0.
  induction inputs as [|u rest IH]; intros a s0 s a' replies m0 H Ma; cbn [handle_all] in H.
  - injection H as <- <- <-. exists m0. cbn. rewrite app_nil_r, Nat.add_0_r. auto.
  - destruct (handle b a u (Some s0)) as [s1 [e|[reply a1]]] eqn:Hh; [discriminate|].
    destruct (handle_all b a1 s1 rest) as [s2 [e|[a2 rs]]] eqn:Hr; [discriminate|].
    injection H as <- <- <-.
    destruct (handle_ok _ _ _ _ _ _ _ Hh) as [c [mem [_ [_ [Ma0 [Es1 [Ma1 _]]]]]]].
    rewrite Ma in Ma0. injection Ma0 as <-.
    destruct (IH a1 s1 s2 a2 rs (m0 ++ s1) Hr Ma1) as [m [Ma2 [Lr [Es2 Lm]]]].
    exists m. split; [exact Ma2|]. cbn [length combine flat_map fst snd].
    split; [rewrite Lr; reflexivity|]. split.
    + rewrite Es2, Es1, <- app_assoc. reflexivity.
    + rewrite Lm, length_app, Es1, length_app. cbn [length]. nia.
Qed.

Lemma handle_all_growth_witness :
  let b : completions := fun _ => AContent (Some (T "ok")) in
  let a := Agent (T "sys") (JArr []) None in
  exists s a' replies,
    handle_all b a [] [T "a"; T "b"; T "c"] = (s, inr (a', replies)) /\
    exists m, memory a' = JArr m /\ length replies = 3 /\
      s = [] ++ flat_map (fun ur => [msg (T "user") (fst ur); msg (T "assistant") (snd ur)])
                         (combine [T "a"; T "b"; T "c"] replies) /\
      length m = 0 + 3 * 0 + 3 * (3 + 1).
Proof.
  intros b a. do 3 eexists. split; [reflexivity|].
  apply (handle_all_growth b a [] [T "a"; T "b"; T "c"] _ _ _ []); reflexivity.
Defined.

End AgentFacts.


Module TagFacts.
Import Text Chat Shapes RepairShape.

Lemma no_gt_existsb t : no_gt t = true -> existsb (Ascii.eqb ">"%char) t = false.
Proof.
  induction t as [|c t IH]; cbn [existsb no_gt forallb]; [reflexivity|].
  intros H. apply andb_prop in H as [H1 H2]. rewrite Ascii.eqb_sym.
  apply negb_true_iff in H1. rewrite H1, IH by exact H2. reflexivity.
Qed.

Lemma no_gt_no_tag t : no_gt t = true -> has_tag t = false.
Proof.
  induction t as [|c t IH]; cbn [has_tag]; [reflexivity|].
  intros H. cbn [no_gt forallb] in H. apply andb_prop in H as [_ H2].
  rewrite IH by exact H2. rewrite orb_false_r.
  destruct t as [|d t]; [apply andb_false_r|].
  cbn [no_gt forallb] in H2. apply andb_prop in H2 as [_ H3].
  rewrite no_gt_existsb by exact H3. rewrite !andb_false_r. reflexivity.
Qed.

Lemma no_gt_rev b : no_gt (rev b) = no_gt b.
Proof.
  unfold no_gt. induction b as [|c b IH]; cbn; [reflexivity|].
  rewrite forallb_app, IH. cbn. rewrite andb_true_r, andb_comm. reflexivity.
Qed.

Lemma tags_go_no_tag s : forall pend,
  (forall b, pend = Some b -> no_gt b = true) -> has_tag (tags_go pend s) = false.
Proof.
  induction s as [|c r IH]; intros pend Hp.
  - destruct pend as [b|]; [|reflexivity]. cbn [tags_go].
    apply no_gt_no_tag. cbn [no_gt forallb]. fold (no_gt (rev b)). rewrite no_gt_rev. apply Hp. reflexivity.
  - destruct pend as [[|d b]|]; cbn [tags_go].
    + destruct (Ascii.eqb c ">"%char) eqn:E.
      * cbn [has_tag]. rewrite IH by discriminate. reflexivity.
      * apply IH. intros b' H. injection H as <-. cbn [no_gt forallb]. rewrite E. reflexivity.
    + specialize (Hp _ eq_refl).
      destruct (Ascii.eqb c ">"%char) eqn:E; apply IH; [discriminate|].
      intros b' H. injection H as <-. cbn [no_gt forallb] in Hp |- *. rewrite E. exact Hp.
    + destruct (Ascii.eqb c "<"%char) eqn:E.
      * apply IH. intros b H. injection H as <-. reflexivity.
      * cbn [has_tag]. rewrite E, IH by discriminate. reflexivity.
Qed.

Lemma tags_go_subseq s : forall pend,
  subseq Ascii.eqb (tags_go pend s) (pending pend ++ s) = true.
Proof.
  induction s as [|c r IH]; intros pend.
  - destruct pend as [b|]; cbn [tags_go pending]; rewrite ?app_nil_r; [|reflexivity].
    apply subseq_refl, Ascii.eqb_refl.
  - destruct pend as [[|d b]|]; cbn [tags_go pending].
    + destruct (Ascii.eqb c ">"%char) eqn:E.
      * apply Ascii.eqb_eq in E; subst c. cbn [app].
        apply subseq_both, subseq_both, (IH None); apply Ascii.eqb_refl.
      * apply (IH (Some [c])).
    + destruct (Ascii.eqb c ">"%char) eqn:E.
      * replace (("<"%char :: rev (d :: b)) ++ c :: r)
          with ((("<"%char :: rev (d :: b)) ++ [c]) ++ r) by (rewrite <- app_assoc; reflexivity).
        apply subseq_skip, (IH None).
      * pose proof (IH (Some (c :: d :: b))) as H. cbn [pending rev] in H |- *.
        cbn [app] in H |- *. rewrite <- !app_assoc in H |- *. cbn [app] in H |- *.
        rewrite <- app_assoc in H. exact H.
    + destruct (Ascii.eqb c "<"%char) eqn:E.
      * apply Ascii.eqb_eq in E; subst c. apply (IH (Some [])).
      * cbn [app]. apply subseq_both, (IH None); apply Ascii.eqb_refl.
Qed.

Lemma tags_go_plain b r : b <> [] -> no_gt r = true -> tags_go (Some b) r = "<"%char :: rev b ++ r.
Proof.
  revert b; induction r as [|c r IH]; intros b Hb Hr.
  - destruct b; [congruence|]. cbn. rewrite app_nil_r. reflexivity.
  - cbn [no_gt forallb] in Hr. apply andb_prop in Hr as [H1 H2]. apply negb_true_iff in H1.
    destruct b as [|d b]; [congruence|]. cbn [tags_go]. rewrite H1.
    rewrite IH by (discriminate || exact H2). cbn [rev]. rewrite <- !app_assoc. reflexivity.
Qed.

Lemma tags_go_none_id s : has_tag s = false -> tags_go None s = s.
Proof.
  induction s as [|c r IH]; [reflexivity|]. cbn [has_tag tags_go].
  intros H. apply orb_false_iff in H as [H1 H2].
  destruct (Ascii.eqb c "<"%char) eqn:E.
  - apply Ascii.eqb_eq in E; subst c. cbn [andb] in H1.
    destruct r as [|d r]; [reflexivity|]. cbn [tags_go].
    destruct (Ascii.eqb d ">"%char) eqn:Ed.
    + apply Ascii.eqb_eq in Ed; subst d. pose proof (IH H2) as IH'. cbn [tags_go] in IH'.
      change (Ascii.eqb ">" "<") with false in IH'. cbn iota in IH'.
      injection IH' as IH'. rewrite IH'. reflexivity.
    + cbn [negb andb] in H1. rewrite tags_go_plain; [reflexivity|discriminate|].
      unfold no_gt. apply forallb_forall. intros x Hx. apply negb_true_iff.
      destruct (Ascii.eqb x ">"%char) eqn:Ex; [|reflexivity].
      apply Ascii.eqb_eq in Ex; subst x.
      assert (Hg : existsb (Ascii.eqb ">"%char) r = true)
        by (apply existsb_exists; exists ">"%char; split; [exact Hx|apply Ascii.eqb_refl]).
      rewrite Hg in H1. discriminate H1.
  - rewrite IH by exact H2. reflexivity.
Qed.

(** X24: removing the matches of [<[^>]+>] from the fetched page (line 335) only deletes
    characters (its result is a subsequence of [s]), leaves no match of
    [<[^>]+>] behind, and returns a text without such a match unchanged. *)
Theorem strip_tags_spec (s : text) :
  subseq Ascii.eqb (strip_tags s) s = true /\
  has_tag (strip_tags s) = false /\
  (has_tag s = false -> strip_tags s = s).
Proof.
  split; [apply (tags_go_subseq s None)|]. split.
  - apply tags_go_no_tag. discriminate.
  - apply tags_go_none_id.
Qed.

End TagFacts.
